(** * WarGames map display: geometry, entity animation and glow rendering

    A shallow embedding of the C++ front end (wargames_cpp) and of the
    browser front end (wargames_web).

    Numbers.  The sources compute with [float], [double] and JavaScript
    numbers.  They are embedded as exact rationals [Q]: every arithmetic
    operation is the exact one and comparisons are those of [Q]
    ([==] is [Qeq]), except where a property depends on the rounding of
    an operation: there the rounding to the nearest [float] or [double]
    is written out with [f32] and [f64].  Infinities, NaN and subnormal
    numbers are outside the model.  [int] values are [Z]. *)

From Stdlib Require Import QArith Qabs Qround Qminmax Qpower Lqa ZArith Lia List Bool.
Import ListNotations.

Local Open Scope Q_scope.

(* ================================================================= *)
(** ** Numeric helpers *)

(** [a < b] as a boolean test. *)
Definition Qlt_bool (a b : Q) : bool := negb (Qle_bool b a).

(** [static_cast<int>(q)]: truncation toward zero. *)
Definition Qtrunc (q : Q) : Z := if Qle_bool 0 q then Qfloor q else Qceiling q.

(** [q mod 1.0] for the fractional part: [q - floor q]. *)
Definition Qmod1 (q : Q) : Q := q - inject_Z (Qfloor q).

(** *** Rounding to binary floating point *)

Definition pow2 (e : Z) : Q := Qpower 2 e.

(** The binary exponent of [q <> 0]: the [e] with [2^e <= |q| < 2^(e+1)]. *)
Definition ilog2 (q : Q) : Z :=
  let e := (Z.log2 (Z.abs (Qnum q)) - Z.log2 (Zpos (Qden q)))%Z in
  if Qle_bool (pow2 e) (Qabs q) then e else (e - 1)%Z.

(** The nearest integer, ties to the even one. *)
Definition roundHalfEven (q : Q) : Z :=
  let f := Qfloor q in
  match Qcompare (q - inject_Z f) (1 # 2) with
  | Lt => f
  | Gt => (f + 1)%Z
  | Eq => if Z.even f then f else (f + 1)%Z
  end.

(** The nearest binary floating-point number with [precision] significant
    bits, ties to even (the IEEE 754 default), with an unbounded exponent. *)
Definition roundTo (precision : Z) (q : Q) : Q :=
  if Qeq_bool q 0 then 0
  else
    let ulp := pow2 (ilog2 q - precision + 1) in
    Qred (inject_Z (roundHalfEven (q / ulp)) * ulp).

(** The result of an operation on [float] and on [double]. *)
Definition f32 (q : Q) : Q := roundTo 24 q.
Definition f64 (q : Q) : Q := roundTo 53 q.

(** [q] is a binary floating-point number with [precision] significant
    bits: [q = m * 2^e] for integers [m], [e] with [|m| < 2^precision]. *)
Definition representable (precision : Z) (q : Q) : Prop :=
  exists m e : Z, q == inject_Z m * pow2 e /\ (Z.abs m < 2 ^ precision)%Z.

(** [v] is the value [V] up to [c] roundings of a [double] of magnitude
    [B]: [|V| <= B] and [|v - V| <= c * 2^-53 * B]. *)
Definition near64 (c B v V : Q) : Prop :=
  Qabs V <= B /\ Qabs (v - V) <= c * pow2 (-53) * B.

(* ================================================================= *)
(** ** Common.hpp *)

Module Common.

Definition SCREEN_WIDTH : Z := 1920.
Definition SCREEN_HEIGHT : Z := 1080.

(** [struct Color { float r, g, b, a; }] *)
Record Color := mkColor { r : Q; g : Q; b : Q; a : Q }.

Definition CYAN : Color := mkColor 0 1 1 1.
Definition DIM_CYAN : Color := mkColor 0 (4 # 10) (4 # 10) 1.
Definition RED : Color := mkColor 1 (196 # 1000) (196 # 1000) 1.

(** [struct Point { float x, y; }] *)
Record Point := mkPoint { x : Q; y : Q }.

(** [struct LatLon { double lat, lon; }] *)
Record LatLon := mkLatLon { lat : Q; lon : Q }.

(** [inline Point lonlat_to_xy(double lon, double lat, int width, int height)] *)
Definition lonlat_to_xy (lo la : Q) (width height : Z) : Point :=
  mkPoint ((lo + 180) / 360 * inject_Z width)
          ((90 - la) / 180 * inject_Z height).

(** [lonlat_to_xy] as C++ evaluates it: [180.0f], [360.0f] and the
    [int] sizes are promoted to [double], every operation returns the
    nearest [double], and the initialisation of [float x], [float y]
    converts the result to the nearest [float]. *)
Definition lonlat_to_xy_f32 (lo la : Q) (width height : Z) : Point :=
  mkPoint (f32 (f64 (f64 (f64 (lo + 180) / 360) * inject_Z width)))
          (f32 (f64 (f64 (f64 (90 - la) / 180) * inject_Z height))).

(** Two screen points denote the same pixel position. *)
Definition Point_eq (p q : Point) : Prop := x p == x q /\ y p == y q.

End Common.

(* ================================================================= *)
(** ** wargames_web/src/utils.js *)

Module Utils.
Import Common.

(** A viewport object [{ centerLon, centerLat, zoom }]. *)
Record Viewport := mkViewport { centerLon : Q; centerLat : Q; zoom : Q }.

(** [zoom || 1.0]: a zero zoom is falsy and replaced by [1.0]. *)
Definition zoomOr1 (z : Q) : Q := if Qeq_bool z 0 then 1 else z.

(** [lonLatToXY(lon, lat, width, height, viewport = null)] *)
Definition lonLatToXY (lo la width height : Q) (viewport : option Viewport) : Point :=
  match viewport with
  | Some vp =>
      let zoomLevel := zoomOr1 (zoom vp) in
      let viewRangeX := 360 / zoomLevel in
      let viewRangeY := 180 / zoomLevel in
      let relLon := lo - centerLon vp in
      let relLat := la - centerLat vp in
      let normX := relLon / (viewRangeX / 2) in
      let normY := relLat / (viewRangeY / 2) in
      mkPoint (((normX + 1) / 2) * width) (((1 - normY) / 2) * height)
  | None =>
      mkPoint (((lo + 180) / 360) * width) (((90 - la) / 180) * height)
  end.

(** [isInViewport(lon, lat, viewport)] *)
Definition isInViewport (lo la : Q) (viewport : option Viewport) : bool :=
  match viewport with
  | None => true
  | Some vp =>
      let halfWidth := 180 / zoomOr1 (zoom vp) in
      let halfHeight := 90 / zoomOr1 (zoom vp) in
      Qle_bool (centerLon vp - halfWidth) lo &&
      Qle_bool lo (centerLon vp + halfWidth) &&
      Qle_bool (centerLat vp - halfHeight) la &&
      Qle_bool la (centerLat vp + halfHeight)
  end.

(** [lonLatToXY] as JavaScript evaluates it: every operation returns
    the [double] nearest to its exact result.  The arguments are [double]
    values. *)
Definition lonLatToXY64 (lo la width height : Q) (viewport : option Viewport)
  : Point :=
  match viewport with
  | Some vp =>
      let zoomLevel := zoomOr1 (zoom vp) in
      let viewRangeX := f64 (360 / zoomLevel) in
      let viewRangeY := f64 (180 / zoomLevel) in
      let relLon := f64 (lo - centerLon vp) in
      let relLat := f64 (la - centerLat vp) in
      let normX := f64 (relLon / f64 (viewRangeX / 2)) in
      let normY := f64 (relLat / f64 (viewRangeY / 2)) in
      mkPoint (f64 (f64 (f64 (normX + 1) / 2) * width))
              (f64 (f64 (f64 (1 - normY) / 2) * height))
  | None =>
      mkPoint (f64 (f64 (f64 (lo + 180) / 360) * width))
              (f64 (f64 (f64 (90 - la) / 180) * height))
  end.

(** [isInViewport] as JavaScript evaluates it: the half extents and the
    four bounds are the nearest [double]s. *)
Definition isInViewport64 (lo la : Q) (viewport : option Viewport) : bool :=
  match viewport with
  | None => true
  | Some vp =>
      let halfWidth := f64 (180 / zoomOr1 (zoom vp)) in
      let halfHeight := f64 (90 / zoomOr1 (zoom vp)) in
      Qle_bool (f64 (centerLon vp - halfWidth)) lo &&
      Qle_bool lo (f64 (centerLon vp + halfWidth)) &&
      Qle_bool (f64 (centerLat vp - halfHeight)) la &&
      Qle_bool la (f64 (centerLat vp + halfHeight))
  end.

End Utils.

(* ================================================================= *)
(** ** VectorMap.cpp: antimeridian segmentation *)

Module VectorMap.
Import Common.

(** [struct LineSegment { std::vector<Point> points; Color color; }] *)
Record LineSegment := mkLineSegment { points : list Point; color : Color }.

(** [bool VectorMap::crossesAntimeridian(const Point& p1, const Point& p2)]:
    [float dx = std::abs(p2.x - p1.x); return dx > SCREEN_WIDTH * 0.5f;].
    The coordinates are [float] and so is their difference, which is
    rounded; [std::abs] and the constant [960.0f] are exact. *)
Definition crossesAntimeridian (p1 p2 : Point) : bool :=
  let dx := Qabs (f32 (x p2 - x p1)) in
  Qlt_bool (inject_Z SCREEN_WIDTH * (5 # 10)) dx.

(** [if (currentSegment.size() > 1) output.push_back({currentSegment, color})] *)
Definition saveSegment (currentSegment : list Point) (output : list LineSegment)
           (c : Color) : list LineSegment :=
  if (1 <? length currentSegment)%nat
  then output ++ [mkLineSegment currentSegment c]
  else output.

(** The [for (size_t i = 1; i < points.size(); i++)] loop; [prev] is
    [points[i-1]] and [rest] holds [points[i..]]. *)
Fixpoint splitLoop (prev : Point) (rest : list Point)
         (currentSegment : list Point) (output : list LineSegment) (c : Color)
  : list Point * list LineSegment :=
  match rest with
  | [] => (currentSegment, output)
  | p :: rest' =>
      if crossesAntimeridian prev p
      then splitLoop p rest' [p] (saveSegment currentSegment output c) c
      else splitLoop p rest' (currentSegment ++ [p]) output c
  end.

(** [void VectorMap::splitAtAntimeridian(points, output, color)]; the
    result is the new contents of [output]. *)
Definition splitAtAntimeridian (pts : list Point) (output : list LineSegment)
           (c : Color) : list LineSegment :=
  match pts with
  | [] => output
  | p0 :: rest =>
      let '(currentSegment, out) := splitLoop p0 rest [p0] output c in
      saveSegment currentSegment out c
  end.

(** The segments produced for one polyline, as point sequences. *)
Definition splitPath (pts : list Point) : list (list Point) :=
  map points (splitAtAntimeridian pts [] DIM_CYAN).

End VectorMap.

(* ================================================================= *)
(** ** Renderer.cpp: layered glow drawing *)

Module Renderer.
Import Common.

(** The primitive routines [drawLine], [drawCircle] and [drawPath]. *)
Inductive Primitive :=
| Line (x1 y1 x2 y2 : Q)
| Circle (cx cy radius : Q)
| Path (pts : list Point).

(** One invocation of a primitive routine, with its colour and line
    width.  The renderer is modelled by the sequence of invocations it
    makes. *)
Record DrawCall := mkDraw { prim : Primitive; color : Color; width : Q }.

(** The loop [for (int i = layers - 1; i >= 0; i--)] shared, word for
    word, by the three glow routines; [n] is [i + 1]. *)
Fixpoint glowLoop (p : Primitive) (c : Color) (layers : Z) (n : nat)
  : list DrawCall :=
  match n with
  | O => []
  | S n' =>
      let i := Z.of_nat n' in
      let layerAlpha := if (i =? 0)%Z then 1 else (3 # 10) / inject_Z layers in
      let layerWidth := 1 + inject_Z (layers - i) * (8 # 10) in
      let layerColor := mkColor (r c) (g c) (b c) (a c * layerAlpha) in
      mkDraw p layerColor layerWidth :: glowLoop p c layers n'
  end.

Definition drawLineWithGlow (x1 y1 x2 y2 : Q) (c : Color) (layers : Z)
  : list DrawCall :=
  glowLoop (Line x1 y1 x2 y2) c layers (Z.to_nat layers).

Definition drawCircleWithGlow (cx cy radius : Q) (c : Color) (layers : Z)
  : list DrawCall :=
  glowLoop (Circle cx cy radius) c layers (Z.to_nat layers).

Definition drawPathWithGlow (pts : list Point) (c : Color) (layers : Z)
  : list DrawCall :=
  glowLoop (Path pts) c layers (Z.to_nat layers).

End Renderer.

(* ================================================================= *)
(** ** Missile.hpp / Missile.cpp *)

Module Missile.
Import Common.

(** The state of a [Missile].  A [SubmarineMissile] differs in its launch
    icon only and shares [update], [isFinished] and [getPosition]. *)
Record t := mk {
  m_path : list Point;
  m_basePos : Point;
  m_color : Color;
  m_progress : Q;
  m_duration : Q
}.

(** [void Missile::update(float dt)] *)
Definition update (dt : Q) (m : t) : t :=
  let p := m_progress m + dt / m_duration m in
  mk (m_path m) (m_basePos m) (m_color m)
     (if Qlt_bool 1 p then 1 else p) (m_duration m).

(** [bool isFinished() const { return m_progress >= 1.0f; }] *)
Definition isFinished (m : t) : bool := Qle_bool 1 (m_progress m).

(** [Point Missile::getPosition() const].  The comparison
    [idx >= m_path.size()] is unsigned, so a negative [idx] is also
    replaced by [size - 1]. *)
Definition getPosition (m : t) : Point :=
  match m_path m with
  | [] => mkPoint 0 0
  | _ =>
      let size := Z.of_nat (length (m_path m)) in
      let idx := Qtrunc (m_progress m * inject_Z (size - 1)) in
      let idx' := if ((idx <? 0) || (size <=? idx))%Z then (size - 1)%Z else idx in
      nth (Z.to_nat idx') (m_path m) (mkPoint 0 0)
  end.

Section Geodesic.
(** GeographicLib is an external library.  [Inverse lat1 lon1 lat2 lon2]
    stands for [Geodesic::WGS84().Inverse] and returns [(s12, azi1, azi2)];
    [Position lat1 lon1 azi1 s] stands for [GeodesicLine::Position] on
    the line [geod.Line(lat1, lon1, azi1)] and returns [(lat, lon)]. *)
Variable Inverse : Q -> Q -> Q -> Q -> Q * Q * Q.
Variable Position : Q -> Q -> Q -> Q -> Q * Q.

(** [void Missile::calculatePath(start, end, int samples = 220)];
    the result is the new [m_path]. *)
Definition calculatePath (start end_ : LatLon) (samples : Z) : list Point :=
  let '(s12, azi1, _) := Inverse (lat start) (lon start) (lat end_) (lon end_) in
  map (fun i : nat =>
         let t := inject_Z (Z.of_nat i) / inject_Z (samples - 1) in
         let '(la, lo) := Position (lat start) (lon start) azi1 (t * s12) in
         lonlat_to_xy lo la SCREEN_WIDTH SCREEN_HEIGHT)
      (seq 0 (Z.to_nat samples)).

(** [Missile::Missile(start, end, color)] *)
Definition new (start end_ : LatLon) (c : Color) : t :=
  mk (calculatePath start end_ 220)
     (lonlat_to_xy (lon start) (lat start) SCREEN_WIDTH SCREEN_HEIGHT)
     c 0 12.
End Geodesic.

End Missile.

(* ================================================================= *)
(** ** Explosion.hpp / Explosion.cpp *)

Module Explosion.
Import Common Renderer.

Record t := mk {
  m_x : Q;
  m_y : Q;
  m_color : Color;
  m_age : Q;
  m_duration : Q
}.

Definition NUM_RINGS : nat := 4.
Definition RING_DELAYS : list Q := [0; 3 # 10; 6 # 10; 9 # 10].

(** [Explosion::Explosion(float x, float y, const Color& color)] *)
Definition new (px py : Q) (c : Color) : t := mk px py c 0 (25 # 10).

(** [void Explosion::update(float dt)] *)
Definition update (dt : Q) (e : t) : t :=
  mk (m_x e) (m_y e) (m_color e) (m_age e + dt) (m_duration e).

(** [bool isFinished() const { return m_age >= m_duration; }] *)
Definition isFinished (e : t) : bool := Qle_bool (m_duration e) (m_age e).

(** The body of the ring loop of [Explosion::draw] for ring [i]; the
    empty list is a [continue]. *)
Definition drawRing (e : t) (i : nat) : list DrawCall :=
  let maxRadius := 50 in
  let ringDuration := m_duration e - nth (NUM_RINGS - 1) RING_DELAYS 0 in
  let ringAge := m_age e - nth i RING_DELAYS 0 in
  if Qlt_bool ringAge 0 then []
  else
    let t := ringAge / ringDuration in
    if Qlt_bool 1 t then []
    else
      let radius := t * maxRadius in
      let alpha := 1 - t in
      let c := m_color e in
      let ringColor := mkColor (r c) (g c) (b c) (alpha * a c) in
      drawCircleWithGlow (m_x e) (m_y e) radius ringColor 4.

(** [void Explosion::draw(Renderer* renderer)] *)
Definition draw (e : t) : list DrawCall :=
  flat_map (drawRing e) (seq 0 NUM_RINGS)
  ++ (if Qlt_bool (m_age e) (5 # 10)
      then
        let flashAlpha := 1 - m_age e / (5 # 10) in
        let flashRadius := 5 + m_age e * 10 in
        let c := m_color e in
        drawCircleWithGlow (m_x e) (m_y e) flashRadius
                           (mkColor (r c) (g c) (b c) flashAlpha) 5
      else []).

End Explosion.

(* ================================================================= *)
(** ** Aircraft.hpp / Aircraft.cpp *)

Module Aircraft.
Import Common.

Record t := mk {
  m_path : list Point;
  m_color : Color;
  m_progress : Q;
  m_duration : Q;
  m_trailLength : Z
}.

(** [void Aircraft::update(float dt)].  [dt], [m_duration] and
    [m_progress] are [float]: the quotient, the sum and the subtraction
    of the floor each return the nearest [float]. *)
Definition update (dt : Q) (c : t) : t :=
  if Qle_bool (m_duration c) 0 || (length (m_path c) =? 0)%nat then c
  else
    let p := f32 (m_progress c + f32 (dt / m_duration c)) in
    mk (m_path c) (m_color c)
       (if Qle_bool 1 p then f32 (p - inject_Z (Qfloor p)) else p)
       (m_duration c) (m_trailLength c).

End Aircraft.

(* ================================================================= *)
(** ** main.cpp: the per-frame entity update *)

Module Main.
Import Common.

(** The loop [for (auto& missile : missiles)] of the frame: every
    missile is updated and a finished one pushes an explosion. *)
Fixpoint updateMissiles (dt : Q) (missiles : list Missile.t)
         (explosions : list Explosion.t) : list Missile.t * list Explosion.t :=
  match missiles with
  | [] => ([], explosions)
  | m :: rest =>
      let m' := Missile.update dt m in
      let explosions' :=
        if Missile.isFinished m'
        then let pos := Missile.getPosition m' in
             explosions ++ [Explosion.new (x pos) (y pos) CYAN]
        else explosions in
      let '(rest', explosions'') := updateMissiles dt rest explosions' in
      (m' :: rest', explosions'')
  end.

(** [missiles.erase(std::remove_if(..., isFinished), missiles.end())] *)
Definition removeFinishedMissiles (missiles : list Missile.t) : list Missile.t :=
  filter (fun m => negb (Missile.isFinished m)) missiles.

(** [explosions.erase(std::remove_if(..., isFinished), explosions.end())] *)
Definition removeFinishedExplosions (explosions : list Explosion.t)
  : list Explosion.t :=
  filter (fun e => negb (Explosion.isFinished e)) explosions.

Record World := mkWorld {
  missiles : list Missile.t;
  explosions : list Explosion.t
}.

(** The missile and explosion part of one iteration of the main loop,
    for the frame's (capped) [deltaTime].  [launched] are the missiles
    pushed this frame by the launch timer and by burst mode (their
    targets are random); they are pushed before the update loop runs. *)
Definition frame (deltaTime : Q) (launched : list Missile.t) (w : World) : World :=
  let ms := missiles w ++ launched in
  let '(ms1, ex1) := updateMissiles deltaTime ms (explosions w) in
  let ms2 := removeFinishedMissiles ms1 in
  let ex2 := map (Explosion.update deltaTime) ex1 in
  mkWorld ms2 (removeFinishedExplosions ex2).

(** Number of explosions pushed by the missile loop of a frame. *)
Definition spawnedIn (deltaTime : Q) (launched : list Missile.t) (w : World) : nat :=
  (length (snd (updateMissiles deltaTime (missiles w ++ launched) (explosions w)))
   - length (explosions w))%nat.

(** A run of frames, with the number of explosions pushed so far. *)
Fixpoint run (frames : list (Q * list Missile.t)) (w : World) (spawned : nat)
  : World * nat :=
  match frames with
  | [] => (w, spawned)
  | (dt, launched) :: frames' =>
      run frames' (frame dt launched w) (spawned + spawnedIn dt launched w)%nat
  end.

End Main.

(* ================================================================= *)
(** ** wargames_web/src/Missile.js *)

Module WebMissile.
Import Common.

(** A missile object.  [exploded] is a property the simulation adds;
    while it is absent it reads as falsy, here [false]. *)
Record t := mk {
  start : LatLon;
  target : LatLon;
  duration : Q;
  progress : Q;
  finished : bool;
  exploded : bool;
  path : list LatLon;
  color : Color
}.

(** [update(deltaTime)] *)
Definition update (deltaTime : Q) (m : t) : t :=
  if finished m then m
  else
    let p := progress m + deltaTime / duration m in
    if Qle_bool 1 p
    then mk (start m) (target m) (duration m) 1 true (exploded m) (path m) (color m)
    else mk (start m) (target m) (duration m) p (finished m) (exploded m) (path m) (color m).

(** [missile.exploded = true] *)
Definition setExploded (m : t) : t :=
  mk (start m) (target m) (duration m) (progress m) (finished m) true
     (path m) (color m).

Section Turf.
(** [turf.greatCircle(from, to, { npoints })] belongs to turf.js, an
    external library; it stands here for the coordinates of the line
    it returns. *)
Variable greatCircle : LatLon -> LatLon -> Z -> list LatLon.

(** [constructor(start, target, duration = 12.0)], with
    [calculatePath()] inlined. *)
Definition new (start_ target_ : LatLon) (duration_ : Q) : t :=
  let c := if Qlt_bool (Qabs (lat target_ - (557558 # 10000))) (1 # 100)
              && Qlt_bool (Qabs (lon target_ - (376173 # 10000))) (1 # 100)
           || Qlt_bool (Qabs (lat target_ - (356762 # 10000))) (1 # 100)
              && Qlt_bool (Qabs (lon target_ - (1396503 # 10000))) (1 # 100)
           then RED else CYAN in
  mk start_ target_ duration_ 0 false false
     (greatCircle start_ target_ 220) c.
End Turf.

End WebMissile.

(* ================================================================= *)
(** ** wargames_web/src/Explosion.js *)

Module WebExplosion.
Import Common Utils.

Record Ring := mkRing { delay : Q; maxRadius : Q }.

Record t := mk {
  lat : Q;
  lon : Q;
  startTime : Q;
  duration : Q;
  finished : bool;
  rings : list Ring
}.

(** [constructor(lat, lon, startTime)] *)
Definition new (la lo startTime_ : Q) : t :=
  mk la lo startTime_ (25 # 10) false
     [mkRing 0 80; mkRing (3 # 10) 100; mkRing (6 # 10) 120; mkRing (9 # 10) 140].

(** [update(currentTime)] *)
Definition update (currentTime : Q) (e : t) : t :=
  let elapsed := currentTime - startTime e in
  if Qle_bool (duration e) elapsed
  then mk (lat e) (lon e) (startTime e) (duration e) true (rings e)
  else e.




End WebExplosion.

(* ================================================================= *)
(** ** wargames_web/src/SimulationState.js *)

Module SimulationState.
Import Common.

(** The aircraft fleet does not interact with missiles or explosions
    and is left out of the state. *)
Record t := mk {
  missiles : list WebMissile.t;
  explosions : list WebExplosion.t;
  time : Q;
  missileSpawnInterval : Q;
  timeSinceLastSpawn : Q;
  running : bool
}.

(** The loop [for (const missile of this.missiles)] of [update]; [now]
    is [this.time]. *)
Fixpoint updateMissiles (deltaTime now : Q) (ms : list WebMissile.t)
         (exs : list WebExplosion.t) : list WebMissile.t * list WebExplosion.t :=
  match ms with
  | [] => ([], exs)
  | m :: rest =>
      let m1 := WebMissile.update deltaTime m in
      let '(m2, exs') :=
        if WebMissile.finished m1 && negb (WebMissile.exploded m1)
        then (WebMissile.setExploded m1,
              exs ++ [WebExplosion.new (lat (WebMissile.target m1))
                                       (lon (WebMissile.target m1)) now])
        else (m1, exs) in
      let '(rest', exs'') := updateMissiles deltaTime now rest exs' in
      (m2 :: rest', exs'')
  end.

(** [this.missiles.filter(m => !m.finished || !m.exploded)] *)
Definition cleanMissiles (ms : list WebMissile.t) : list WebMissile.t :=
  filter (fun m => negb (WebMissile.finished m) || negb (WebMissile.exploded m)) ms.

(** [update(deltaTime)].  [fresh] is the missile that [spawnMissile()]
    creates when a launch is due (its start and target are random). *)
Definition update (deltaTime : Q) (fresh : WebMissile.t) (s : t) : t :=
  if negb (running s) then s
  else
    let time' := time s + deltaTime in
    let sinceSpawn := timeSinceLastSpawn s + deltaTime in
    let '(ms1, ex1) := updateMissiles deltaTime time' (missiles s) (explosions s) in
    let ex2 := map (WebExplosion.update time') ex1 in
    let '(ms2, sinceSpawn') :=
      if Qle_bool (missileSpawnInterval s) sinceSpawn
      then (ms1 ++ [fresh], 0)
      else (ms1, sinceSpawn) in
    mk (cleanMissiles ms2)
       (filter (fun e => negb (WebExplosion.finished e)) ex2)
       time' (missileSpawnInterval s) sinceSpawn' (running s).

End SimulationState.

(* ================================================================= *)
(** ** shaders/composite.frag *)

Module Composite.

Record vec2 := mkVec2 { u : Q; v : Q }.
Record vec4 := mkVec4 { cr : Q; cg : Q; cb : Q; ca : Q }.

(** A bound [sampler2D], read with [texture(sampler, uv)]. *)
Definition sampler2D := vec2 -> vec4.

(** GLSL [fract]: [x - floor(x)]. *)
Definition fract (q : Q) : Q := q - inject_Z (Qfloor q).

(** GLSL [mix(a, b, t)]: [a * (1 - t) + b * t]. *)
Definition mix (p q t : Q) : Q := p * (1 - t) + q * t.

Section Shader.
(** The GLSL built-in [sin]. *)
Variable sin : Q -> Q.

(** [float rand(vec2 co)] *)
Definition rand (co : vec2) : Q :=
  fract (sin (u co * (129898 # 10000) + v co * (78233 # 1000))
         * (437585453 # 10000)).

(** [void main()]; the result is [FragColor]. *)
Definition main (screenTexture bloomTexture scanlineTexture vignetteTexture : sampler2D)
           (noiseIntensity bloomIntensity flickerIntensity time : Q)
           (TexCoord : vec2) : vec4 :=
  let color := screenTexture TexCoord in
  let bloom := bloomTexture TexCoord in
  let color1 := mkVec4 (cr color + cr bloom * bloomIntensity)
                       (cg color + cg bloom * bloomIntensity)
                       (cb color + cb bloom * bloomIntensity)
                       (ca color + ca bloom * bloomIntensity) in
  let scanline := scanlineTexture TexCoord in
  let color2 := mkVec4 (cr color1 * mix 1 (cr scanline) (5 # 10))
                       (cg color1 * mix 1 (cg scanline) (5 # 10))
                       (cb color1 * mix 1 (cb scanline) (5 # 10))
                       (ca color1 * mix 1 (ca scanline) (5 # 10)) in
  let vignette := vignetteTexture TexCoord in
  let color3 := mkVec4 (cr color2 * cr vignette) (cg color2 * cg vignette)
                       (cb color2 * cb vignette) (ca color2 * ca vignette) in
  let noise := rand (mkVec2 (u TexCoord + time) (v TexCoord + time))
               * noiseIntensity in
  let color4 := mkVec4 (cr color3 + noise) (cg color3 + noise)
                       (cb color3 + noise) (ca color3) in
  let flicker := 1 + sin (time * 120) * flickerIntensity
                 + sin (time * 67) * flickerIntensity * (5 # 10) in
  mkVec4 (cr color4 * flicker) (cg color4 * flicker) (cb color4 * flicker)
         (ca color4).
End Shader.

End Composite.

(* ================================================================= *)
(** ** Vocabulary of the statements *)

Module Segments.
Import Common VectorMap.

(** The pair [(p, q)] jumps by more than half the screen width: the
    [float] difference of the two abscissas exceeds it. *)
Definition exceedsHalfWidth (p q : Point) : Prop :=
  inject_Z SCREEN_WIDTH / 2 < Qabs (f32 (x q - x p)).

(** The same for the difference of the abscissas as real numbers. *)
Definition exactlyExceedsHalfWidth (p q : Point) : Prop :=
  inject_Z SCREEN_WIDTH / 2 < Qabs (x q - x p).

(** [p] and [q] are consecutive points of [s], in this order. *)
Definition consecutive (s : list Point) (p q : Point) : Prop :=
  exists l1 l2, s = l1 ++ p :: q :: l2.

(** [s] contains no crossing pair. *)
Definition noCrossing (s : list Point) : Prop :=
  forall p q, consecutive s p q -> ~ exceedsHalfWidth p q.

(** [s] is a contiguous run of [pts]. *)
Definition infix (s pts : list Point) : Prop :=
  exists pre post, pts = pre ++ s ++ post.

(** A piece is kept as a segment only with two points or more. *)
Definition keep (s : list Point) : list (list Point) :=
  if (1 <? length s)%nat then [s] else [].

(** No pair of the chain [prev :: rest] crosses. *)
Fixpoint calm (prev : Point) (rest : list Point) : Prop :=
  match rest with
  | [] => True
  | p :: rest' => crossesAntimeridian prev p = false /\ calm p rest'
  end.

(** Number of crossing pairs of a polyline. *)
Fixpoint crossingCount (pts : list Point) : nat :=
  match pts with
  | [] => O
  | p :: tl =>
      match tl with
      | [] => O
      | q :: _ => ((if crossesAntimeridian p q then 1 else 0) + crossingCount tl)%nat
      end
  end.

(** Length of the longest calm prefix of [rest] after [prev]. *)
Fixpoint calmLength (prev : Point) (rest : list Point) : nat :=
  match rest with
  | [] => O
  | p :: rest' =>
      if crossesAntimeridian prev p then O else S (calmLength p rest')
  end.

End Segments.

Module Glow.
Import Common Renderer.

(** The draw of layer [i] as the algorithm describes it. *)
Definition glowLayer (p : Primitive) (c : Color) (layers i : Z) : DrawCall :=
  let alpha := if (i =? 0)%Z then 1 else (3 # 10) / inject_Z layers in
  mkDraw p (mkColor (r c) (g c) (b c) (a c * alpha))
         (1 + inject_Z (layers - i) * (8 # 10)).

(** [calls] is the glow of primitive [p]: [layers] draws, the one at
    position [k] being layer [i = layers - 1 - k]. *)
Definition isGlowOf (calls : list DrawCall) (p : Primitive) (c : Color)
           (layers : Z) : Prop :=
  length calls = Z.to_nat layers
  /\ forall k : nat,
       (k < Z.to_nat layers)%nat ->
       nth_error calls k = Some (glowLayer p c layers (layers - 1 - Z.of_nat k)).

End Glow.

Module Runs.

(** The state of an entity after the updates [dts], oldest first. *)
Definition missileUpdates (dts : list Q) (m : Missile.t) : Missile.t :=
  fold_left (fun s dt => Missile.update dt s) dts m.

Definition webMissileUpdates (dts : list Q) (m : WebMissile.t) : WebMissile.t :=
  fold_left (fun s dt => WebMissile.update dt s) dts m.

Definition aircraftUpdates (dts : list Q) (c : Aircraft.t) : Aircraft.t :=
  fold_left (fun s dt => Aircraft.update dt s) dts c.

(** A web missile in a consistent state: [finished] is set exactly
    when the progress is 1. *)
Definition webValid (w : WebMissile.t) : Prop :=
  0 < WebMissile.duration w
  /\ WebMissile.progress w <= 1
  /\ (WebMissile.finished w = true <-> WebMissile.progress w == 1).

End Runs.

Module Handoff.
Import Common.

(** The explosion that the C++ loop pushes for a finished missile. *)
Definition impactOf (m : Missile.t) : Explosion.t :=
  let pos := Missile.getPosition m in
  Explosion.new (x pos) (y pos) CYAN.

(** The terminal point of a missile's path. *)
Definition terminalPoint (m : Missile.t) : Point :=
  last (Missile.m_path m) (mkPoint 0 0).









End Handoff.

Module Geodesy.
Import Common.


(** Two coordinates within [eps] degrees of each other. *)
Definition near (eps : Q) (c d : LatLon) : Prop :=
  Qabs (lat c - lat d) <= eps /\ Qabs (lon c - lon d) <= eps.

Section Solver.
Variable Inverse : Q -> Q -> Q -> Q -> Q * Q * Q.
Variable Position : Q -> Q -> Q -> Q -> Q * Q.



End Solver.

(** A solver for two points of the equator less than 180 degrees apart,
    where the geodesic is the equator itself; distances are counted in
    degrees of longitude.  It serves to evaluate the statements on
    concrete routes. *)
Definition equatorInverse (lat1 lon1 lat2 lon2 : Q) : Q * Q * Q :=
  (lon2 - lon1, 90, 90).

Definition equatorPosition (lat1 lon1 azi1 s : Q) : Q * Q :=
  (lat1, lon1 + s).



End Geodesy.

Module CompositeClaim.
Import Composite.

(** The composite as the specification words it: the scanline mask
    itself is the factor, and noise and flicker apply to the whole
    colour. *)
Definition claimed (sin : Q -> Q)
           (screenTexture bloomTexture scanlineTexture vignetteTexture : sampler2D)
           (noiseIntensity bloomIntensity flickerIntensity time : Q)
           (TexCoord : vec2) : vec4 :=
  let sceneColor := screenTexture TexCoord in
  let bloomColor := bloomTexture TexCoord in
  let scanlineMask := scanlineTexture TexCoord in
  let vignetteMask := vignetteTexture TexCoord in
  let noise := rand sin (mkVec2 (u TexCoord + time) (v TexCoord + time)) in
  let flicker := 1 + sin (time * 120) * flickerIntensity
                 + (5 # 10) * sin (time * 67) * flickerIntensity in
  let channel (f : vec4 -> Q) :=
    ((f sceneColor + f bloomColor * bloomIntensity) * f scanlineMask * f vignetteMask
     + noise * noiseIntensity) * flicker in
  mkVec4 (channel cr) (channel cg) (channel cb) (channel ca).

End CompositeClaim.

(* ================================================================= *)
(** ** Common.hpp: [clamp]; main.cpp: target colours *)

Module Targets.
Import Common.

(** [inline float clamp(float value, float min, float max)] *)
Definition clamp (value min max : Q) : Q :=
  if Qlt_bool value min then min
  else if Qlt_bool max value then max
  else value.

(** [bool isRussiaOrJapanTarget(const LatLon& target)] *)
Definition isRussiaOrJapanTarget (target : LatLon) : bool :=
  let MOSCOW_LAT := 557558 # 10000 in
  let MOSCOW_LON := 376173 # 10000 in
  let TOKYO_LAT := 356762 # 10000 in
  let TOKYO_LON := 1396503 # 10000 in
  let EPSILON := 1 # 100 in
  let isMoscow := Qlt_bool (Qabs (lat target - MOSCOW_LAT)) EPSILON
                  && Qlt_bool (Qabs (lon target - MOSCOW_LON)) EPSILON in
  let isTokyo := Qlt_bool (Qabs (lat target - TOKYO_LAT)) EPSILON
                 && Qlt_bool (Qabs (lon target - TOKYO_LON)) EPSILON in
  isMoscow || isTokyo.

(** [Color getColorForTarget(const LatLon& target)] *)
Definition getColorForTarget (target : LatLon) : Color :=
  if isRussiaOrJapanTarget target then RED else CYAN.

End Targets.

(* ================================================================= *)
(** ** wargames_web/src/utils.js and VectorMap.js: further helpers *)

Module UtilsMore.
Import Common Utils.

(** One element of the array returned by [splitSegmentAtAntimeridian]:
    [{ segments: [[lon, lat], ...], crossesAntimeridian }]. *)
Record Piece := mkPiece {
  segments : list (Q * Q);
  crossesAntimeridian : bool
}.

(** [splitSegmentAtAntimeridian(lon1, lat1, lon2, lat2)]; the difference
    of the two longitudes is the nearest [double]. *)
Definition splitSegmentAtAntimeridian (lon1 lat1 lon2 lat2 : Q) : list Piece :=
  let lonDiff := Qabs (f64 (lon2 - lon1)) in
  if Qlt_bool 180 lonDiff
  then [mkPiece [(lon1, lat1)] true; mkPiece [(lon2, lat2)] true]
  else [mkPiece [(lon1, lat1); (lon2, lat2)] false].

(** [isRussiaOrJapanTarget(lat, lon)] of utils.js *)
Definition isRussiaOrJapanTarget (la lo : Q) : bool :=
  let MOSCOW_LAT := 557558 # 10000 in
  let MOSCOW_LON := 376173 # 10000 in
  let TOKYO_LAT := 356762 # 10000 in
  let TOKYO_LON := 1396503 # 10000 in
  let EPSILON := 1 # 100 in
  let isMoscow := Qlt_bool (Qabs (la - MOSCOW_LAT)) EPSILON
                  && Qlt_bool (Qabs (lo - MOSCOW_LON)) EPSILON in
  let isTokyo := Qlt_bool (Qabs (la - TOKYO_LAT)) EPSILON
                 && Qlt_bool (Qabs (lo - TOKYO_LON)) EPSILON in
  isMoscow || isTokyo.

(** [VectorMap.isRoughlyInViewport(lon, lat, viewport)] *)
Definition isRoughlyInViewport (lo la : Q) (viewport : option Viewport) : bool :=
  match viewport with
  | None => true
  | Some vp =>
      let margin := 20 in
      let halfWidth := 180 / zoomOr1 (zoom vp) + margin in
      let halfHeight := 90 / zoomOr1 (zoom vp) + margin in
      Qle_bool (centerLon vp - halfWidth) lo &&
      Qle_bool lo (centerLon vp + halfWidth) &&
      Qle_bool (centerLat vp - halfHeight) la &&
      Qle_bool la (centerLat vp + halfHeight)
  end.

End UtilsMore.

(* ================================================================= *)
(** ** main.cpp: controls, frame time and launch timer *)

Module Controls.

(** [enum class CRTMode { OFF, LIGHT, FULL }] *)
Inductive CRTMode := OFF | LIGHT | FULL.

(** The keys the event loop distinguishes; [KEY_OTHER] is any other key. *)
Inductive Key :=
| KEY_ESCAPE | KEY_Q | KEY_UP | KEY_DOWN | KEY_R | KEY_SPACE | KEY_C | KEY_F
| KEY_OTHER.

(** The loop variables that the key handler reads and writes. *)
Record t := mk {
  running : bool;
  fullscreen : bool;
  crtMode : CRTMode;
  launchInterval : Q
}.

(** The state before the main loop starts. *)
Definition initial : t := mk true false OFF 2.

(** [std::max(a, b)] and [std::min(a, b)] *)
Definition Qmax_std (p q : Q) : Q := if Qlt_bool p q then q else p.
Definition Qmin_std (p q : Q) : Q := if Qlt_bool q p then q else p.

(** The [switch (event.key.keysym.sym)] of an [SDL_KEYDOWN] event, on the
    loop variables.  [SDLK_SPACE] pushes eight missiles and leaves these
    variables as they are. *)
Definition keyDown (k : Key) (s : t) : t :=
  match k with
  | KEY_ESCAPE | KEY_Q =>
      mk false (fullscreen s) (crtMode s) (launchInterval s)
  | KEY_UP =>
      mk (running s) (fullscreen s) (crtMode s)
         (Qmax_std (3 # 10) (launchInterval s - (5 # 10)))
  | KEY_DOWN =>
      mk (running s) (fullscreen s) (crtMode s)
         (Qmin_std 10 (launchInterval s + (5 # 10)))
  | KEY_R => mk (running s) (fullscreen s) (crtMode s) 2
  | KEY_SPACE => s
  | KEY_C =>
      mk (running s) (fullscreen s)
         (match crtMode s with OFF => LIGHT | LIGHT => FULL | FULL => OFF end)
         (launchInterval s)
  | KEY_F => mk (running s) (negb (fullscreen s)) (crtMode s) (launchInterval s)
  | KEY_OTHER => s
  end.

(** The keys of one or more frames, handled in order. *)
Definition keysDown (ks : list Key) (s : t) : t :=
  fold_left (fun st k => keyDown k st) ks s.

(** [if (deltaTime > 0.1f) deltaTime = 0.1f;] *)
Definition capDelta (deltaTime : Q) : Q :=
  if Qlt_bool (1 # 10) deltaTime then 1 # 10 else deltaTime.



End Controls.

Module Timing.


(** An explosion that is not finished. *)
Definition alive (e : Explosion.t) : Prop := Explosion.isFinished e = false.

End Timing.


(* ================================================================= *)
(** ** Missile.cpp: drawing *)

Module MissileDraw.
Import Common Renderer.

(** [void Missile::drawBase(Renderer* renderer, const Point& pos) const] *)
Definition drawBase (m : Missile.t) (pos : Point) : list DrawCall :=
  let size := 12 in
  let p1 := mkPoint (x pos) (y pos - size) in
  let p2 := mkPoint (x pos - size * (866 # 1000)) (y pos + size * (5 # 10)) in
  let p3 := mkPoint (x pos + size * (866 # 1000)) (y pos + size * (5 # 10)) in
  drawLineWithGlow (x p1) (y p1) (x p2) (y p2) (Missile.m_color m) 3
  ++ drawLineWithGlow (x p2) (y p2) (x p3) (y p3) (Missile.m_color m) 3
  ++ drawLineWithGlow (x p3) (y p3) (x p1) (y p1) (Missile.m_color m) 3.

(** [int numPoints = static_cast<int>(m_progress * m_path.size())]; the
    product is a [float]. *)
Definition numPoints (m : Missile.t) : Z :=
  Qtrunc (f32 (Missile.m_progress m
               * inject_Z (Z.of_nat (length (Missile.m_path m))))).

(** [std::vector<Point> visiblePath(m_path.begin(), m_path.begin() + numPoints)];
    the source relies on [numPoints <= m_path.size()], which holds while
    the progress is at most 1. *)
Definition visiblePath (m : Missile.t) : list Point :=
  firstn (Z.to_nat (numPoints m)) (Missile.m_path m).

(** [if (currentSegment.size() > 1) renderer->drawPathWithGlow(currentSegment, m_color, 5)] *)
Definition flush (currentSegment : list Point) (c : Color)
           (calls : list DrawCall) : list DrawCall :=
  if (1 <? length currentSegment)%nat
  then calls ++ drawPathWithGlow currentSegment c 5
  else calls.

(** The loop [for (size_t i = 1; i < visiblePath.size(); i++)] of
    [Missile::draw]; [prev] is [visiblePath[i-1]], [rest] holds
    [visiblePath[i..]] and [calls] the invocations made so far.  The
    difference [visiblePath[i].x - visiblePath[i - 1].x] is a [float]. *)
Fixpoint trailLoop (prev : Point) (rest : list Point)
         (currentSegment : list Point) (c : Color) (calls : list DrawCall)
  : list Point * list DrawCall :=
  match rest with
  | [] => (currentSegment, calls)
  | p :: rest' =>
      let dx := Qabs (f32 (x p - x prev)) in
      if Qlt_bool (inject_Z SCREEN_WIDTH * (5 # 10)) dx
      then trailLoop p rest' [p] c (flush currentSegment c calls)
      else trailLoop p rest' (currentSegment ++ [p]) c calls
  end.

Section Sine.
(** [std::sin] *)
Variable sin : Q -> Q.

(** The block "pulsing target marker" that ends [Missile::draw]; the
    constant [0.85f] is the [float] nearest to 0.85. *)
Definition marker (m : Missile.t) : list DrawCall :=
  if Qle_bool (f32 (85 # 100)) (Missile.m_progress m)
     && Qlt_bool (Missile.m_progress m) 1
  then
    let targetPos := last (Missile.m_path m) (mkPoint 0 0) in
    let pulse := (5 # 10) + (5 # 10) * sin (Missile.m_progress m * 20) in
    let radius := 10 + pulse * 5 in
    let c := Missile.m_color m in
    let pulseColor := mkColor (r c) (g c) (b c) ((5 # 10) + pulse * (5 # 10)) in
    drawCircleWithGlow (x targetPos) (y targetPos) radius pulseColor 3
  else [].

(** [void Missile::draw(Renderer* renderer)] *)
Definition draw (m : Missile.t) : list DrawCall :=
  match Missile.m_path m with
  | [] => []
  | _ :: _ =>
      let base := drawBase m (Missile.m_basePos m) in
      if (numPoints m <? 2)%Z then base
      else
        match visiblePath m with
        | [] => base
        | p0 :: rest =>
            let '(currentSegment, calls) :=
              trailLoop p0 rest [p0] (Missile.m_color m) base in
            flush currentSegment (Missile.m_color m) calls ++ marker m
        end
  end.
End Sine.

(** Some invocation of [calls] draws a circle. *)
Definition drawsCircle (calls : list DrawCall) : Prop :=
  exists call cx cy radius, In call calls /\ prim call = Circle cx cy radius.

(** The invocations that draw the polylines [segs], one after the other,
    as the trail of a missile of colour [c] is drawn. *)
Definition pathCalls (c : Color) (segs : list (list Point)) : list DrawCall :=
  flat_map (fun s => drawPathWithGlow s c 5) segs.

End MissileDraw.

(* ================================================================= *)
(** ** Aircraft.cpp: loop construction and drawing *)

Module AircraftDraw.
Import Common Renderer.

(** [while (lon > 180.0) lon -= 360.0;] with at most [fuel] tests of the
    condition; [None] when they do not suffice. *)
Fixpoint wrapDown (fuel : nat) (lo : Q) : option Q :=
  match fuel with
  | O => None
  | S f => if Qlt_bool 180 lo then wrapDown f (lo - 360) else Some lo
  end.

(** [while (lon < -180.0) lon += 360.0;] *)
Fixpoint wrapUp (fuel : nat) (lo : Q) : option Q :=
  match fuel with
  | O => None
  | S f => if Qlt_bool lo (-180) then wrapUp f (lo + 360) else Some lo
  end.

(** [double wrapLongitude(double lon)] *)
Definition wrapLongitude (fuel : nat) (lo : Q) : option Q :=
  match wrapDown fuel lo with
  | None => None
  | Some lo' => wrapUp fuel lo'
  end.

(** A number of loop tests that suffices for longitudes of absolute value
    at most [bound]. *)
Definition fuelFor (bound : Q) : nat := S (Z.to_nat (Qceiling (bound / 360))).

Section Trig.
(** [std::sin], [std::cos] and the constant [M_PI]. *)
Variables sin cos : Q -> Q.
Variable M_PI : Q.

(** The body of the loop of [buildLoop] for sample [i]. *)
Definition loopPoint (fuel : nat) (center : LatLon) (radiusDeg : Q)
           (samples : Z) (i : nat) : option Point :=
  let t := inject_Z (Z.of_nat i) / inject_Z samples in
  let angle := t * 2 * M_PI in
  let la := lat center + radiusDeg * sin angle in
  let lo := lon center + radiusDeg * cos angle in
  match wrapLongitude fuel lo with
  | None => None
  | Some lo' => Some (lonlat_to_xy lo' la SCREEN_WIDTH SCREEN_HEIGHT)
  end.

(** The loop [for (int i = 0; i < samples; i++)] over the indices [idxs]. *)
Fixpoint buildPoints (fuel : nat) (center : LatLon) (radiusDeg : Q)
         (samples : Z) (idxs : list nat) : option (list Point) :=
  match idxs with
  | [] => Some []
  | i :: rest =>
      match loopPoint fuel center radiusDeg samples i with
      | None => None
      | Some p =>
          match buildPoints fuel center radiusDeg samples rest with
          | None => None
          | Some ps => Some (p :: ps)
          end
      end
  end.

(** [void Aircraft::buildLoop(center, radiusDeg, int samples = 240)];
    the result is the new [m_path]. *)
Definition buildLoop (fuel : nat) (center : LatLon) (radiusDeg : Q)
           (samples : Z) : option (list Point) :=
  buildPoints fuel center radiusDeg samples (seq 0 (Z.to_nat samples)).

(** [Aircraft::Aircraft(center, radiusDeg, loopSeconds, color)] *)
Definition new (fuel : nat) (center : LatLon) (radiusDeg loopSeconds : Q)
           (c : Color) : option Aircraft.t :=
  match buildLoop fuel center radiusDeg 240 with
  | None => None
  | Some path => Some (Aircraft.mk path c 0 loopSeconds 18)
  end.
End Trig.

(** [idx] as [Aircraft::draw] computes it from [m_progress] and
    [count = m_path.size()], with its two clamps. *)
Definition headIndex (c : Aircraft.t) : Z :=
  let count := Z.of_nat (length (Aircraft.m_path c)) in
  let idx := Qtrunc (Aircraft.m_progress c * inject_Z (count - 1)) in
  let idx := if (idx <? 0)%Z then 0%Z else idx in
  if (count <=? idx)%Z then (count - 1)%Z else idx.

(** The tag drawn next to the head: a leader line and a small box. *)
Definition drawTag (c : Aircraft.t) (head : Point) : list DrawCall :=
  let tagOffsetX := 10 in
  let tagOffsetY := -8 in
  let tagW := 10 in
  let tagH := 6 in
  let tagX := x head + tagOffsetX in
  let tagY := y head + tagOffsetY in
  let mc := Aircraft.m_color c in
  let tagColor := mkColor (r mc) (g mc) (b mc) (8 # 10) in
  drawLineWithGlow (x head) (y head) tagX tagY tagColor 2
  ++ drawLineWithGlow tagX tagY (tagX + tagW) tagY tagColor 2
  ++ drawLineWithGlow (tagX + tagW) tagY (tagX + tagW) (tagY + tagH) tagColor 2
  ++ drawLineWithGlow (tagX + tagW) (tagY + tagH) tagX (tagY + tagH) tagColor 2
  ++ drawLineWithGlow tagX (tagY + tagH) tagX tagY tagColor 2.

(** [void Aircraft::draw(Renderer* renderer) const]; [None] stands for a
    read of [m_path[idx]] outside the vector. *)
Definition draw (c : Aircraft.t) : option (list DrawCall) :=
  if (length (Aircraft.m_path c) <? 2)%nat then Some []
  else
    match nth_error (Aircraft.m_path c) (Z.to_nat (headIndex c)) with
    | None => None
    | Some head =>
        Some (drawCircleWithGlow (x head) (y head) 3 (Aircraft.m_color c) 3
              ++ drawTag c head)
    end.

End AircraftDraw.

(* ================================================================= *)
(** ** shaders/bloom.frag, barrel.frag and chromatic.frag *)

Module PostShaders.
Import Composite.

(** Componentwise sum of two [vec4] and product of a [vec4] with a
    [float]. *)
Definition vadd (p q : vec4) : vec4 :=
  mkVec4 (cr p + cr q) (cg p + cg q) (cb p + cb q) (ca p + ca q).

Definition vscale (p : vec4) (k : Q) : vec4 :=
  mkVec4 (cr p * k) (cg p * k) (cb p * k) (ca p * k).

(** [float weights[5]] of the blur. *)
Definition weights : list Q :=
  [227027 # 1000000; 1945946 # 10000000; 1216216 # 10000000;
   54054 # 1000000; 16216 # 1000000].

(** The body of the loop [for (int i = 1; i < 5; i++)] of the blur. *)
Definition bloomStep (screenTexture : sampler2D)
           (TexCoord direction texelSize : vec2) (result : vec4) (i : nat)
  : vec4 :=
  let fi := inject_Z (Z.of_nat i) in
  let offset := mkVec2 (u direction * u texelSize * fi)
                       (v direction * v texelSize * fi) in
  let wi := nth i weights 0 in
  let result1 :=
    vadd result
         (vscale (screenTexture (mkVec2 (u TexCoord + u offset)
                                        (v TexCoord + v offset))) wi) in
  vadd result1
       (vscale (screenTexture (mkVec2 (u TexCoord - u offset)
                                      (v TexCoord - v offset))) wi).

(** [void main()] of bloom.frag; the result is [FragColor]. *)
Definition bloom (screenTexture : sampler2D) (resolution direction : vec2)
           (TexCoord : vec2) : vec4 :=
  let texelSize := mkVec2 (1 / u resolution) (1 / v resolution) in
  let result := mkVec4 0 0 0 0 in
  let result0 := vadd result (vscale (screenTexture TexCoord) (nth 0 weights 0)) in
  fold_left (bloomStep screenTexture TexCoord direction texelSize)
            (seq 1 4) result0.

(** Every channel of [c] lies between [lo] and [hi]. *)
Definition within (lo hi : Q) (c : vec4) : Prop :=
  (lo <= cr c <= hi) /\ (lo <= cg c <= hi)
  /\ (lo <= cb c <= hi) /\ (lo <= ca c <= hi).

(** Channel by channel, [c] is [k] times [d]. *)
Definition scaled (k : Q) (d c : vec4) : Prop :=
  cr c == k * cr d /\ cg c == k * cg d /\ cb c == k * cb d /\ ca c == k * ca d.

Section Length.
(** The GLSL built-in [length] on [vec2]. *)
Variable length : vec2 -> Q.

(** The coordinate [distorted] of barrel.frag. *)
Definition barrelPoint (distortion : Q) (TexCoord : vec2) : vec2 :=
  let uv := TexCoord in
  let center := mkVec2 (5 # 10) (5 # 10) in
  let cc := mkVec2 (u uv - u center) (v uv - v center) in
  let dist := length cc in
  let factor := 1 + dist * dist * distortion in
  mkVec2 (u center + u cc * factor) (v center + v cc * factor).

(** [void main()] of barrel.frag; the result is [FragColor]. *)
Definition barrel (screenTexture : sampler2D) (distortion : Q)
           (TexCoord : vec2) : vec4 :=
  let distorted := barrelPoint distortion TexCoord in
  if Qlt_bool (u distorted) 0 || Qlt_bool 1 (u distorted)
     || Qlt_bool (v distorted) 0 || Qlt_bool 1 (v distorted)
  then mkVec4 0 0 0 1
  else screenTexture distorted.
End Length.

(** The vector [offset] of chromatic.frag. *)
Definition chromaticOffset (intensity : Q) (TexCoord : vec2) : vec2 :=
  let uv := TexCoord in
  let center := mkVec2 (5 # 10) (5 # 10) in
  mkVec2 ((u uv - u center) * intensity * (1 # 100))
         ((v uv - v center) * intensity * (1 # 100)).

(** [void main()] of chromatic.frag; the result is [FragColor]. *)
Definition chromatic (screenTexture : sampler2D) (intensity : Q)
           (TexCoord : vec2) : vec4 :=
  let uv := TexCoord in
  let offset := chromaticOffset intensity TexCoord in
  let r := cr (screenTexture (mkVec2 (u uv + u offset) (v uv + v offset))) in
  let g := cg (screenTexture uv) in
  let b := cb (screenTexture (mkVec2 (u uv - u offset) (v uv - v offset))) in
  mkVec4 r g b 1.

End PostShaders.

(* ================================================================= *)
(** ** Projection matrices: utils.js, Renderer.js, Renderer.cpp, basic.vert *)

Module Matrices.

(** A [Float32Array(16)] or [float[16]], read with [m[i]]; all arrays
    here have 16 entries. *)
Definition mat4 := list Q.

Definition get (m : mat4) (i : nat) : Q := nth i m 0.

(** [mat4Multiply(a, b)]: the loops over [i] and [j] fill
    [result[i * 4 + j]] in increasing index order. *)
Definition mat4Multiply (a b : mat4) : mat4 :=
  flat_map
    (fun i =>
       map (fun j =>
              get a (i * 4 + 0) * get b (0 * 4 + j)
              + get a (i * 4 + 1) * get b (1 * 4 + j)
              + get a (i * 4 + 2) * get b (2 * 4 + j)
              + get a (i * 4 + 3) * get b (3 * 4 + j))
           (seq 0 4))
    (seq 0 4).

(** [createOrthographicProjection(left, right, bottom, top)] *)
Definition createOrthographicProjection (left right bottom top : Q) : mat4 :=
  let near := -1 in
  let far := 1 in
  let lr := 1 / (left - right) in
  let bt := 1 / (bottom - top) in
  let nf := 1 / (near - far) in
  [ -2 * lr; 0; 0; 0;
    0; -2 * bt; 0; 0;
    0; 0; 2 * nf; 0;
    (left + right) * lr; (top + bottom) * bt; (far + near) * nf; 1 ].

(** [getProjectionMatrix()] of the web renderer for a canvas of the
    given size. *)
Definition getProjectionMatrix (width height : Q) : mat4 :=
  createOrthographicProjection 0 width height 0.

(** The array [ortho] that [Renderer::setupGL] uploads, for a window of
    [m_width] by [m_height] pixels. *)
Definition ortho (m_width m_height : Q) : mat4 :=
  let left := 0 in
  let right := m_width in
  let bottom := m_height in
  let top := 0 in
  let near := -1 in
  let far := 1 in
  [ 2 / (right - left); 0; 0; 0;
    0; 2 / (top - bottom); 0; 0;
    0; 0; -2 / (far - near); 0;
    - (right + left) / (right - left); - (top + bottom) / (top - bottom);
    - (far + near) / (far - near); 1 ].

(** A GLSL [vec4] of coordinates. *)
Record gvec4 := mkG { gx : Q; gy : Q; gz : Q; gw : Q }.

(** The GLSL product [m * p] of a [mat4] uniform with a [vec4]; both
    front ends upload the array without transposition, so entry
    [m[c * 4 + r]] is column [c], row [r]. *)
Definition mulMV (m : mat4) (p : gvec4) : gvec4 :=
  mkG (get m 0 * gx p + get m 4 * gy p + get m 8 * gz p + get m 12 * gw p)
      (get m 1 * gx p + get m 5 * gy p + get m 9 * gz p + get m 13 * gw p)
      (get m 2 * gx p + get m 6 * gy p + get m 10 * gz p + get m 14 * gw p)
      (get m 3 * gx p + get m 7 * gy p + get m 11 * gz p + get m 15 * gw p).

(** [gl_Position = uProjection * vec4(aPos, 0.0, 1.0)] of basic.vert. *)
Definition vertexPosition (uProjection : mat4) (aPosX aPosY : Q) : gvec4 :=
  mulMV uProjection (mkG aPosX aPosY 0 1).

(** Entrywise equality of two arrays and of two vectors. *)
Definition mat4_eq (a b : mat4) : Prop := Forall2 Qeq a b.

Definition gvec4_eq (p q : gvec4) : Prop :=
  gx p == gx q /\ gy p == gy q /\ gz p == gz q /\ gw p == gw q.

Definition identity : mat4 :=
  [1; 0; 0; 0;  0; 1; 0; 0;  0; 0; 1; 0;  0; 0; 0; 1].

End Matrices.

(* ================================================================= *)
(** ** utils.js: formatTime *)

From Stdlib Require Ascii String DecimalString.

Module Format.
Import Ascii String.

(** The JavaScript remainder [x % n] on numbers: the quotient is
    truncated, so the result has the sign of [x]. *)
Definition jsRem (p n : Q) : Q := p - n * inject_Z (Qtrunc (p / n)).

(** [h], [m] and [s] of [formatTime(seconds)]. *)
Definition hours (seconds : Q) : Z := Qfloor (seconds / 3600).
Definition minutes (seconds : Q) : Z := Qfloor (jsRem seconds 3600 / 60).
Definition secs (seconds : Q) : Z := Qfloor (jsRem seconds 60).

(** [n.toString()] for an integer [n]. *)
Definition toString (n : Z) : String.string :=
  DecimalString.NilZero.string_of_int (Z.to_int n).

(** [str.padStart(targetLength, '0')] *)
Definition padStart (str : String.string) (targetLength : nat) : String.string :=
  String.append
    (String.concat String.EmptyString
                   (repeat (String.String "0"%char String.EmptyString)
                           (targetLength - String.length str)))
    str.

(** [formatTime(seconds)] *)
Definition formatTime (seconds : Q) : String.string :=
  String.append (padStart (toString (hours seconds)) 2)
    (String.append ":"%string
       (String.append (padStart (toString (minutes seconds)) 2)
          (String.append ":"%string
             (padStart (toString (secs seconds)) 2)))).

End Format.

(* ================================================================= *)
(** ** wargames_web/src/TicTacToeGame.js *)

Module TicTacToe.

(** The marks ['X'] and ['O']; a cell holds [null] or a mark. *)
Inductive Mark := X | O.

(** The values of [winner] other than [null]: a mark or ['DRAW']. *)
Inductive Winner := Won (p : Mark) | DRAW.

Record t := mk {
  board : list (option Mark);
  currentPlayer : Mark;
  gameOver : bool;
  winner : option Winner;
  winLine : option (list nat);
  thinkingTime : Q;
  moveDelay : Q;
  lastMoveTime : Q
}.

(** [constructor()] *)
Definition new : t := mk (repeat None 9) X false None None 0 (15 # 10) 0.

(** [reset()]: [moveDelay] and [lastMoveTime] are kept. *)
Definition reset (g : t) : t :=
  mk (repeat None 9) X false None None 0 (moveDelay g) (lastMoveTime g).

(** [board[i]] *)
Definition cell (b : list (option Mark)) (i : nat) : option Mark := nth i b None.

(** [board[i] = v] for an index inside the array. *)
Fixpoint assign (b : list (option Mark)) (i : nat) (v : option Mark)
  : list (option Mark) :=
  match b, i with
  | [], _ => []
  | _ :: rest, 0%nat => v :: rest
  | c :: rest, S i' => c :: assign rest i' v
  end.

Definition lines : list (list nat) :=
  [[0; 1; 2]; [3; 4; 5]; [6; 7; 8];
   [0; 3; 6]; [1; 4; 7]; [2; 5; 8];
   [0; 4; 8]; [2; 4; 6]]%nat.

Definition sameMark (p q : Mark) : bool :=
  match p, q with
  | X, X | O, O => true
  | _, _ => false
  end.

(** [board[a] && board[a] === board[b] && board[a] === board[c]] *)
Definition complete (b : list (option Mark)) (line : list nat) : bool :=
  match line with
  | [a; b'; c] =>
      match cell b a, cell b b', cell b c with
      | Some p, Some q, Some s => sameMark p q && sameMark p s
      | _, _, _ => false
      end
  | _ => false
  end.

(** [checkWinner()]: the first complete line, which the method stores in
    [winLine] when it returns [true]. *)
Definition checkWinner (b : list (option Mark)) : option (list nat) :=
  find (complete b) lines.

(** The array [available] of [makeAIMove]. *)
Definition available (b : list (option Mark)) : list nat :=
  filter (fun i => match cell b i with None => true | Some _ => false end)
         (seq 0 9).

Definition other (p : Mark) : Mark :=
  match p with X => O | O => X end.

(** [makeAIMove()]; [rnd] is the value of [Math.random()], a number of
    [0, 1), for which the index [floor(rnd * available.length)] is inside
    [available]. *)
Definition makeAIMove (rnd : Q) (g : t) : t :=
  let avail := available (board g) in
  match avail with
  | [] =>
      mk (board g) (currentPlayer g) true (winner g) (winLine g)
         (thinkingTime g) (moveDelay g) (lastMoveTime g)
  | _ :: _ =>
      let idx := Qfloor (rnd * inject_Z (Z.of_nat (length avail))) in
      let move := nth (Z.to_nat idx) avail 0%nat in
      let board' := assign (board g) move (Some (currentPlayer g)) in
      match checkWinner board' with
      | Some line =>
          mk board' (currentPlayer g) true (Some (Won (currentPlayer g)))
             (Some line) (thinkingTime g) (moveDelay g) (lastMoveTime g)
      | None =>
          if (length avail =? 1)%nat
          then mk board' (currentPlayer g) true (Some DRAW) (winLine g)
                  (thinkingTime g) (moveDelay g) (lastMoveTime g)
          else mk board' (other (currentPlayer g)) (gameOver g) (winner g)
                  (winLine g) (thinkingTime g) (moveDelay g) (lastMoveTime g)
      end
  end.

(** [update(deltaTime, currentTime)] *)
Definition update (deltaTime currentTime rnd : Q) (g : t) : t :=
  if gameOver g
  then
    if Qlt_bool 3 (currentTime - lastMoveTime g) then reset g else g
  else
    let thinking := thinkingTime g + deltaTime in
    if Qle_bool (moveDelay g) thinking
    then
      let g' := makeAIMove rnd
                  (mk (board g) (currentPlayer g) (gameOver g) (winner g)
                      (winLine g) thinking (moveDelay g) (lastMoveTime g)) in
      mk (board g') (currentPlayer g') (gameOver g') (winner g') (winLine g')
         0 (moveDelay g') currentTime
    else
      mk (board g) (currentPlayer g) (gameOver g) (winner g) (winLine g)
         thinking (moveDelay g) (lastMoveTime g).

(** One call of [update]: the frame time, the clock and the random
    number it draws. *)
Record Tick := mkTick { deltaTime : Q; currentTime : Q; random : Q }.

(** The game after a sequence of updates. *)
Definition run (ticks : list Tick) (g : t) : t :=
  fold_left (fun s k => update (deltaTime k) (currentTime k) (random k) s)
            ticks g.

(** The random numbers are numbers of [0, 1). *)
Definition fair (ticks : list Tick) : Prop :=
  Forall (fun k => 0 <= random k /\ random k < 1) ticks.

(** The state of a game as the methods keep it: nine cells; a running
    game has an empty cell, no complete line and no winner; a finished
    game has a result. *)
Definition wellFormed (g : t) : Prop :=
  length (board g) = 9%nat
  /\ (gameOver g = false ->
      available (board g) <> [] /\ winner g = None
      /\ checkWinner (board g) = None)
  /\ (gameOver g = true -> winner g <> None).

End TicTacToe.

(* ================================================================= *)
(** ** utils.js and SimulationState.js: random choices *)

Module Random.
Import Common.

(** [randomInt(min, max)]; [rnd] is the value of [Math.random()]. *)
Definition randomInt (rnd : Q) (min max : Z) : Z :=
  (Qfloor (rnd * inject_Z (max - min + 1)) + min)%Z.

(** [randomElement(array)]; [None] is [undefined], the value of a read
    outside the array. *)
Definition randomElement {A : Type} (rnd : Q) (array : list A) : option A :=
  let i := randomInt rnd 0 (Z.of_nat (length array) - 1) in
  if (i <? 0)%Z then None else nth_error array (Z.to_nat i).

(** The loop [while (targetIdx === startIdx) targetIdx = randomInt(...)]
    of [spawnMissile], entered with the first draw of [targetIdx] already
    made; [draws] are the following values of [Math.random()], and [None]
    means that the loop is still running when they are used up. *)
Fixpoint redraw (draws : list Q) (count startIdx targetIdx : Z) : option Z :=
  if (targetIdx =? startIdx)%Z
  then
    match draws with
    | [] => None
    | rnd :: rest => redraw rest count startIdx (randomInt rnd 0 (count - 1))
    end
  else Some targetIdx.

(** The land-based branch of [spawnMissile()]: the indices of the start
    and of the target city among [count] cities.  The first two draws give
    [startIdx] and the first [targetIdx]. *)
Definition pickCities (rndStart rndTarget : Q) (draws : list Q) (count : Z)
  : option (Z * Z) :=
  let startIdx := randomInt rndStart 0 (count - 1) in
  let targetIdx := randomInt rndTarget 0 (count - 1) in
  match redraw draws count startIdx targetIdx with
  | None => None
  | Some t => Some (startIdx, t)
  end.

(** A value that [Math.random()] can return. *)
Definition fraction (rnd : Q) : Prop := 0 <= rnd /\ rnd < 1.

End Random.

(* ================================================================= *)
(** ** ScreenManager.js: the DEFCON panel *)

Module Defcon.

Inductive Threat := CRITICAL | HIGH | MODERATE.

(** [Math.min(5, Math.max(1, 6 - Math.floor(stats.missiles / 3)))];
    [missiles] is the length of the missile array. *)
Definition defconLevel (missiles : Z) : Z :=
  Z.min 5 (Z.max 1 (6 - Qfloor (inject_Z missiles / 3))).

(** [stats.missiles > 10 ? 'CRITICAL' : stats.missiles > 5 ? 'HIGH' : 'MODERATE'] *)
Definition threatLevel (missiles : Z) : Threat :=
  if (10 <? missiles)%Z then CRITICAL
  else if (5 <? missiles)%Z then HIGH
  else MODERATE.

(** [defconLevel <= 2 ? '#ff3333' : '#00ffff']: the panel is red. *)
Definition alertColour (missiles : Z) : bool := (defconLevel missiles <=? 2)%Z.

End Defcon.

(* ================================================================= *)
(** ** wargames_web/src/Aircraft.js *)

Module WebAircraft.
Import Common.

Record t := mk {
  centerLat : Q;
  centerLon : Q;
  radius : Q;
  speed : Q;
  angle : Q
}.

Section Trig.
(** [Math.sin], [Math.cos] and [Math.PI]. *)
Variables sin cos : Q -> Q.
Variable PI : Q.

(** [update(deltaTime)] *)
Definition update (deltaTime : Q) (c : t) : t :=
  let angle1 := angle c + speed c * deltaTime in
  mk (centerLat c) (centerLon c) (radius c) (speed c)
     (if Qlt_bool (PI * 2) angle1 then angle1 - PI * 2 else angle1).

(** [getCurrentPosition()] *)
Definition getCurrentPosition (c : t) : LatLon :=
  mkLatLon (centerLat c + sin (angle c) * radius c)
           (centerLon c + cos (angle c) * radius c).
End Trig.

End WebAircraft.

(* ================================================================= *)
(** ** SimulationState.js: explosions in the state *)

Module WebState.

(** An explosion of the state is running at the state's time: it is not
    marked finished and its elapsed time is in [0, duration). *)
Definition running (now : Q) (e : WebExplosion.t) : Prop :=
  WebExplosion.finished e = false
  /\ 0 <= now - WebExplosion.startTime e
  /\ now - WebExplosion.startTime e < WebExplosion.duration e.


End WebState.
(* ================================================================= *)
(** * Theorems *)

(* ----------------------------------------------------------------- *)
(** ** Rounding *)

Lemma pow2_pos (e : Z) : 0 < pow2 e.
Proof. apply Qpower_0_lt. reflexivity. Qed.

Lemma pow2_add (a b : Z) : pow2 (a + b) == pow2 a * pow2 b.
Proof. apply Qpower_plus. discriminate. Qed.

Lemma pow2_inject (n : Z) : (0 <= n)%Z -> pow2 n == inject_Z (2 ^ n).
Proof. intro H. unfold pow2. rewrite Zpower_Qpower by assumption. reflexivity. Qed.

(** The exponent that [roundTo] uses is not above that of the number:
    [2^(ilog2 q) <= |q|]. *)
Lemma ilog2_lower (q : Q) : ~ q == 0 -> pow2 (ilog2 q) <= Qabs q.
Proof.
  intro Hq. unfold ilog2.
  set (a := Z.log2 (Z.abs (Qnum q))). set (b := Z.log2 (Z.pos (Qden q))).
  destruct (Qle_bool (pow2 (a - b)) (Qabs q)) eqn:E.
  - apply Qle_bool_iff. exact E.
  - assert (Hn : (0 < Z.abs (Qnum q))%Z).
    { destruct q as [n d]. unfold Qeq in Hq. simpl in *. lia. }
    destruct (Z.log2_spec _ Hn) as [La _]. fold a in La.
    destruct (Z.log2_spec (Z.pos (Qden q)) eq_refl) as [_ Lb]. fold b in Lb.
    assert (Ha : (0 <= a)%Z) by apply Z.log2_nonneg.
    assert (Hb : (0 <= b)%Z) by apply Z.log2_nonneg.
    assert (Hs : pow2 (a - b - 1) * pow2 (b + 1) == pow2 a).
    { rewrite <- pow2_add. replace (a - b - 1 + (b + 1))%Z with a by lia.
      reflexivity. }
    assert (Hp := pow2_pos (b + 1)).
    apply Qmult_le_r with (z := pow2 (b + 1)); [assumption|].
    rewrite Hs, !pow2_inject by lia.
    replace (Z.succ b) with (b + 1)%Z in Lb by lia.
    destruct q as [n d]. unfold Qabs, Qle, Qmult, inject_Z. simpl in *.
    nia.
Qed.

Lemma roundHalfEven_error (t : Q) : Qabs (inject_Z (roundHalfEven t) - t) <= 1 # 2.
Proof.
  unfold roundHalfEven.
  assert (Hf := Qfloor_le t). assert (Hl := Qlt_floor t).
  rewrite inject_Z_plus in Hl. change (inject_Z 1) with 1 in Hl.
  apply Qabs_Qle_condition.
  destruct (Qcompare (t - inject_Z (Qfloor t)) (1 # 2)) eqn:E.
  - apply Qeq_alt in E.
    destruct (Z.even (Qfloor t)); rewrite ?inject_Z_plus;
      change (inject_Z 1) with 1; split; lra.
  - apply Qlt_alt in E. split; lra.
  - apply Qgt_alt in E. rewrite inject_Z_plus. change (inject_Z 1) with 1.
    split; lra.
Qed.

(** Rounding to [precision] bits moves a number by at most
    [2^-precision] of its magnitude. *)
Lemma roundTo_error (precision : Z) (q : Q) :
  Qabs (roundTo precision q - q) <= pow2 (- precision) * Qabs q.
Proof.
  unfold roundTo. destruct (Qeq_bool q 0) eqn:E.
  - apply Qeq_bool_iff in E. rewrite E. change (Qabs (0 - 0)) with 0. change (Qabs 0) with 0.
    rewrite Qmult_0_r. apply Qle_refl.
  - assert (Hq : ~ q == 0).
    { intro H. apply Qeq_bool_iff in H. congruence. }
    set (e := ilog2 q). rewrite Qred_correct.
    set (ulp := pow2 (e - precision + 1)).
    assert (Hu : 0 < ulp) by apply pow2_pos.
    assert (Hr := roundHalfEven_error (q / ulp)).
    set (k := inject_Z (roundHalfEven (q / ulp))) in *.
    assert (Hd : k * ulp - q == (k - q / ulp) * ulp) by (field; lra).
    rewrite Hd, Qabs_Qmult, (Qabs_pos ulp) by lra.
    assert (Hl := ilog2_lower q Hq). fold e in Hl.
    assert (Hh : (1 # 2) * ulp == pow2 (- precision) * pow2 e).
    { unfold ulp. replace (e - precision + 1)%Z with (- precision + e + 1)%Z by lia.
      rewrite !pow2_add. change (pow2 1) with 2. field. }
    assert (Hp := pow2_pos (- precision)).
    apply Qle_trans with ((1 # 2) * ulp).
    + apply Qmult_le_compat_r; lra.
    + rewrite Hh. apply Qmult_le_l; assumption.
Qed.

Lemma ilog2_upper (q : Q) : Qabs q < pow2 (ilog2 q + 1).
Proof.
  unfold ilog2.
  set (a := Z.log2 (Z.abs (Qnum q))). set (b := Z.log2 (Z.pos (Qden q))).
  destruct (Qle_bool (pow2 (a - b)) (Qabs q)) eqn:E.
  - destruct (Z.log2_spec (Z.pos (Qden q)) eq_refl) as [Lb _]. fold b in Lb.
    assert (Ha : (0 <= a)%Z) by apply Z.log2_nonneg.
    assert (Hb : (0 <= b)%Z) by apply Z.log2_nonneg.
    assert (La : (Z.abs (Qnum q) < 2 ^ (a + 1))%Z).
    { destruct (Z.eq_dec (Z.abs (Qnum q)) 0) as [E0|N0].
      - rewrite E0. apply Z.pow_pos_nonneg; lia.
      - destruct (Z.log2_spec (Z.abs (Qnum q))) as [_ L]; [lia|].
        fold a in L. replace (Z.succ a) with (a + 1)%Z in L by lia. exact L. }
    assert (Hs : pow2 (a - b + 1) * pow2 b == pow2 (a + 1)).
    { rewrite <- pow2_add. replace (a - b + 1 + b)%Z with (a + 1)%Z by lia.
      reflexivity. }
    assert (Hp := pow2_pos b).
    apply Qmult_lt_r with (z := pow2 b); [assumption|].
    rewrite Hs, !pow2_inject by lia.
    destruct q as [n d]. unfold Qabs, Qlt, Qmult, inject_Z. simpl in *.
    nia.
  - replace (a - b - 1 + 1)%Z with (a - b)%Z by lia.
    apply Qnot_le_lt. intro H. apply Qle_bool_iff in H. congruence.
Qed.

Lemma pow2_le (a b : Z) : (a <= b)%Z -> pow2 a <= pow2 b.
Proof. intro H. apply Qpower_le_compat_l; [assumption | discriminate]. Qed.

Lemma pow2_lt_inv (a b : Z) : pow2 a < pow2 b -> (a < b)%Z.
Proof. intro H. apply (Qpower_lt_compat_l_inv 2); [assumption | reflexivity]. Qed.

(** The binary exponent is determined by the magnitude. *)
Lemma ilog2_unique (q : Q) (e : Z) :
  pow2 e <= Qabs q -> Qabs q < pow2 (e + 1) -> ilog2 q = e.
Proof.
  intros Hl Hu.
  assert (Hq : ~ q == 0).
  { intro H. assert (Ha : Qabs q == 0) by (rewrite H; reflexivity).
    pose proof (pow2_pos e). lra. }
  pose proof (ilog2_lower q Hq) as Ll. pose proof (ilog2_upper q) as Lu.
  assert (H1 : (e < ilog2 q + 1)%Z) by (apply pow2_lt_inv; lra).
  assert (H2 : (ilog2 q < e + 1)%Z) by (apply pow2_lt_inv; lra).
  lia.
Qed.

Lemma ilog2_comp (q q' : Q) : q == q' -> ~ q == 0 -> ilog2 q = ilog2 q'.
Proof.
  intros E Hq. symmetry. apply ilog2_unique.
  - rewrite <- E. now apply ilog2_lower.
  - rewrite <- E. apply ilog2_upper.
Qed.

Lemma roundHalfEven_comp (q q' : Q) : q == q' -> roundHalfEven q = roundHalfEven q'.
Proof.
  intro E. unfold roundHalfEven.
  rewrite (Qfloor_comp _ _ E).
  assert (Ec : (q - inject_Z (Qfloor q') ?= 1 # 2)
               = (q' - inject_Z (Qfloor q') ?= 1 # 2)).
  { apply Qcompare_comp; [rewrite E|]; reflexivity. }
  rewrite Ec. reflexivity.
Qed.

(** Rounding depends on the value only, not on the fraction that
    denotes it. *)
Lemma roundTo_comp (precision : Z) (q q' : Q) :
  q == q' -> roundTo precision q = roundTo precision q'.
Proof.
  intro E. unfold roundTo.
  destruct (Qeq_bool q 0) eqn:E0.
  - assert (E0' : Qeq_bool q' 0 = true).
    { apply Qeq_bool_iff. rewrite <- E. now apply Qeq_bool_iff. }
    now rewrite E0'.
  - assert (Hq : ~ q == 0) by (intro H; apply Qeq_bool_iff in H; congruence).
    assert (E0' : Qeq_bool q' 0 = false).
    { destruct (Qeq_bool q' 0) eqn:E1; [|reflexivity].
      apply Qeq_bool_iff in E1. rewrite <- E in E1. contradiction. }
    rewrite E0'. rewrite <- (ilog2_comp q q' E Hq).
    apply Qred_complete.
    rewrite (roundHalfEven_comp (q / pow2 (ilog2 q - precision + 1))
                                (q' / pow2 (ilog2 q - precision + 1))).
    + reflexivity.
    + unfold Qdiv. apply Qmult_comp; [exact E | reflexivity].
Qed.

Lemma roundHalfEven_Z (z : Z) : roundHalfEven (inject_Z z) = z.
Proof.
  unfold roundHalfEven. rewrite Qfloor_Z.
  assert (E : (inject_Z z - inject_Z z ?= 1 # 2) = Lt).
  { apply Qlt_alt. assert (H : inject_Z z - inject_Z z == 0) by ring.
    rewrite H. reflexivity. }
  now rewrite E.
Qed.

Lemma roundHalfEven_nonneg (q : Q) : 0 <= q -> (0 <= roundHalfEven q)%Z.
Proof.
  intro H. unfold roundHalfEven.
  assert (Hf : (0 <= Qfloor q)%Z).
  { change 0%Z with (Qfloor 0). now apply Qfloor_resp_le. }
  destruct (q - inject_Z (Qfloor q) ?= 1 # 2); [destruct (Z.even _)| |]; lia.
Qed.

Lemma roundTo_nonneg (precision : Z) (q : Q) : 0 <= q -> 0 <= roundTo precision q.
Proof.
  intro H. unfold roundTo. destruct (Qeq_bool q 0); [apply Qle_refl|].
  rewrite Qred_correct.
  set (ulp := pow2 (ilog2 q - precision + 1)).
  assert (Hu : 0 < ulp) by apply pow2_pos.
  apply Qmult_le_0_compat; [|lra].
  change 0 with (inject_Z 0). rewrite <- Zle_Qle.
  apply roundHalfEven_nonneg. apply Qle_shift_div_l; lra.
Qed.

Lemma pow2_opp (e : Z) : pow2 e * pow2 (- e) == 1.
Proof. rewrite <- pow2_add. replace (e + - e)%Z with 0%Z by lia. reflexivity. Qed.

Lemma Qabs_inject_Z (m : Z) : Qabs (inject_Z m) == inject_Z (Z.abs m).
Proof. unfold Qabs, inject_Z. simpl. reflexivity. Qed.

(** A floating-point number is not moved by the rounding. *)
Lemma roundTo_exact (precision : Z) (q : Q) :
  representable precision q -> roundTo precision q == q.
Proof.
  intros (m & e & Eq & Hm). unfold roundTo.
  destruct (Qeq_bool q 0) eqn:E0.
  - apply Qeq_bool_iff in E0. now rewrite E0.
  - assert (Hq : ~ q == 0) by (intro H; apply Qeq_bool_iff in H; congruence).
    rewrite Qred_correct.
    set (E := ilog2 q).
    assert (Hl := ilog2_lower q Hq). fold E in Hl.
    assert (Hp : (0 <= precision)%Z).
    { destruct (Z.le_gt_cases 0 precision) as [H|H]; [assumption|].
      rewrite Z.pow_neg_r in Hm by assumption. lia. }
    assert (Habs : Qabs q == inject_Z (Z.abs m) * pow2 e).
    { rewrite Eq, Qabs_Qmult, Qabs_inject_Z.
      rewrite (Qabs_pos (pow2 e)); [reflexivity|]. pose proof (pow2_pos e). lra. }
    assert (Hd : (E < precision + e)%Z).
    { apply pow2_lt_inv. apply Qle_lt_trans with (1 := Hl).
      rewrite Habs, pow2_add, (pow2_inject precision Hp).
      apply Qmult_lt_compat_r; [apply pow2_pos|].
      rewrite <- Zlt_Qlt. exact Hm. }
    set (d := (e - E + precision - 1)%Z).
    assert (Hd0 : (0 <= d)%Z) by (unfold d; lia).
    set (ulp := pow2 (E - precision + 1)).
    assert (Hu : 0 < ulp) by apply pow2_pos.
    assert (Hpe : pow2 e == pow2 d * ulp).
    { unfold ulp. rewrite <- pow2_add. unfold d.
      replace (e - E + precision - 1 + (E - precision + 1))%Z with e by lia.
      reflexivity. }
    assert (Hk : q / ulp == inject_Z (m * 2 ^ d)).
    { rewrite inject_Z_mult, <- (pow2_inject d Hd0), Eq, Hpe. field. lra. }
    rewrite (roundHalfEven_comp _ _ Hk), roundHalfEven_Z.
    rewrite inject_Z_mult, <- (pow2_inject d Hd0), Eq, Hpe. ring.
Qed.

Lemma roundHalfEven_bound (t : Q) (n : Z) :
  Qabs t < inject_Z n -> (Z.abs (roundHalfEven t) <= n)%Z.
Proof.
  intro H. unfold roundHalfEven.
  assert (Hf := Qfloor_le t). assert (Hl := Qlt_floor t).
  assert (Ht : - inject_Z n <= t <= inject_Z n).
  { apply Qabs_Qle_condition. lra. }
  assert (Hlt : t < inject_Z n).
  { apply Qle_lt_trans with (2 := H). apply Qle_Qabs. }
  assert (H1 : (Qfloor t < n)%Z).
  { rewrite Zlt_Qlt. lra. }
  assert (H2 : (- n <= Qfloor t)%Z).
  { rewrite <- inject_Z_opp in Ht.
    rewrite <- (Qfloor_Z (- n)). apply Qfloor_resp_le. apply Ht. }
  destruct (t - inject_Z (Qfloor t) ?= 1 # 2); [destruct (Z.even _)| |]; lia.
Qed.

(** The result of the rounding is a floating-point number. *)
Lemma roundTo_representable (precision : Z) (q : Q) :
  (0 < precision)%Z -> representable precision (roundTo precision q).
Proof.
  intro Hp. unfold roundTo.
  destruct (Qeq_bool q 0) eqn:E0.
  - exists 0%Z, 0%Z. split; [reflexivity|].
    simpl. apply Z.pow_pos_nonneg; lia.
  - set (E := ilog2 q).
    assert (Hup := ilog2_upper q). fold E in Hup.
    set (ulp := pow2 (E - precision + 1)).
    assert (Hu : 0 < ulp) by apply pow2_pos.
    set (k := roundHalfEven (q / ulp)).
    assert (Hk : (Z.abs k <= 2 ^ precision)%Z).
    { apply roundHalfEven_bound.
      rewrite <- (pow2_inject precision) by lia.
      unfold Qdiv. rewrite Qabs_Qmult, (Qabs_pos (/ ulp)).
      2:{ apply Qlt_le_weak, Qinv_lt_0_compat; assumption. }
      apply Qlt_shift_div_r; [assumption|].
      unfold ulp. rewrite <- pow2_add.
      replace (precision + (E - precision + 1))%Z with (E + 1)%Z by lia.
      exact Hup. }
    assert (H2 : (1 < 2 ^ precision)%Z) by (apply Z.pow_gt_1; lia).
    destruct (Z.eq_dec (Z.abs k) (2 ^ precision)) as [Ek|Nk].
    + exists (Z.sgn k), (E + 1)%Z. split; [|lia].
      rewrite Qred_correct.
      assert (Eq : k = (Z.sgn k * 2 ^ precision)%Z) by lia.
      rewrite Eq at 1. rewrite inject_Z_mult, <- (pow2_inject precision) by lia.
      unfold ulp. rewrite <- Qmult_assoc, <- pow2_add.
      replace (precision + (E - precision + 1))%Z with (E + 1)%Z by lia.
      reflexivity.
    + exists k, (E - precision + 1)%Z. split; [apply Qred_correct | lia].
Qed.

(** The fractional part of a non-negative floating-point number is a
    floating-point number: [q - floor(q)] does not round. *)
Lemma frac_representable (precision : Z) (q : Q) :
  0 <= q -> representable precision q ->
  representable precision (q - inject_Z (Qfloor q)).
Proof.
  intros Hq (m & e & Eq & Hm).
  assert (Hpe := pow2_pos e).
  assert (Hm0 : (0 <= m)%Z).
  { destruct (Z.le_gt_cases 0 m) as [H|H]; [assumption|exfalso].
    assert (Hn : inject_Z m <= -1).
    { change (-1) with (inject_Z (-1)). rewrite <- Zle_Qle. lia. }
    assert (Hneg : inject_Z m * pow2 e < 0).
    { assert (Hx : (- inject_Z m) * pow2 e > 0)
        by (apply Qmult_lt_0_compat; lra).
      assert (Er : - inject_Z m * pow2 e == - (inject_Z m * pow2 e)) by ring.
      lra. }
    lra. }
  destruct (Z.le_gt_cases 0 e) as [He|He].
  - exists 0%Z, 0%Z. split; [|destruct precision; simpl in *; lia].
    assert (Ez : q == inject_Z (m * 2 ^ e)).
    { rewrite inject_Z_mult, <- (pow2_inject e He). exact Eq. }
    rewrite (Qfloor_comp _ _ Ez), Qfloor_Z, Ez. ring.
  - set (n := (- e)%Z). assert (Hn : (0 < n)%Z) by (unfold n; lia).
    assert (H2n : (0 < 2 ^ n)%Z) by (apply Z.pow_pos_nonneg; lia).
    assert (Einv : pow2 e * inject_Z (2 ^ n) == 1).
    { rewrite <- (pow2_inject n) by lia. unfold n. apply pow2_opp. }
    assert (Ef : Qfloor q = (m / 2 ^ n)%Z).
    { assert (Ez : q == m # Z.to_pos (2 ^ n)).
      { rewrite Eq, (Qmake_Qdiv m), Z2Pos.id by assumption.
        apply Qmult_inj_r with (z := inject_Z (2 ^ n)).
        - change 0 with (inject_Z 0). rewrite inject_Z_injective. lia.
        - rewrite <- Qmult_assoc, Einv. field.
          change 0 with (inject_Z 0). rewrite inject_Z_injective. lia. }
      rewrite (Qfloor_comp _ _ Ez). unfold Qfloor.
      rewrite Z2Pos.id by assumption. reflexivity. }
    exists (m mod 2 ^ n)%Z, e. split.
    + rewrite Ef, Eq.
      rewrite (Z.div_mod m (2 ^ n)) at 1 by lia.
      rewrite inject_Z_plus, inject_Z_mult.
      set (a := inject_Z (m / 2 ^ n)) in *. set (b := inject_Z (m mod 2 ^ n)).
      set (c := inject_Z (2 ^ n)) in *. set (p := pow2 e) in *.
      assert (Ex : (c * a + b) * p - a == a * (p * c - 1) + b * p) by ring.
      rewrite Ex, Einv. ring.
    + pose proof (Z.mod_pos_bound m (2 ^ n) H2n).
      pose proof (Z.mod_le m (2 ^ n) Hm0 H2n). lia.
Qed.

Lemma near64_exact (V : Q) : near64 0 (Qabs V) V V.
Proof.
  split; [apply Qle_refl|].
  assert (E : V - V == 0) by ring. rewrite E. change (Qabs 0) with 0.
  assert (E0 : 0 * pow2 (-53) * Qabs V == 0) by ring. rewrite E0. apply Qle_refl.
Qed.

Lemma near64_f64 (c B v V : Q) :
  0 <= c -> c <= 1024 -> near64 c B v V -> near64 (c + 2) B (f64 v) V.
Proof.
  intros Hc0 Hc [HV Hv]. split; [assumption|].
  assert (Hr := roundTo_error 53 v). fold (f64 v) in Hr.
  change (- (53))%Z with (-53)%Z in Hr.
  assert (Hu : 0 < pow2 (-53)) by apply pow2_pos.
  assert (Hu1 : 1024 * pow2 (-53) <= 1) by (vm_compute; discriminate).
  set (u := pow2 (-53)) in *. clearbody u.
  assert (HB : 0 <= B) by (eapply Qle_trans; [apply Qabs_nonneg|exact HV]).
  assert (Ha : Qabs v <= B + c * u * B).
  { apply Qabs_Qle_condition. apply Qabs_Qle_condition in HV, Hv. split; lra. }
  assert (Hua : u * Qabs v <= u * (B + c * u * B)).
  { apply Qmult_le_l; assumption. }
  assert (Hcu : c * u * (u * B) <= 1 * (u * B)).
  { apply Qmult_le_compat_r; [|apply Qmult_le_0_compat; lra].
    apply Qle_trans with (1024 * u); [|assumption].
    apply Qmult_le_compat_r; lra. }
  apply Qabs_Qle_condition. apply Qabs_Qle_condition in Hr, Hv.
  split; lra.
Qed.

Lemma near64_scale (k c B v V : Q) :
  0 <= c -> near64 c B v V -> near64 c (B * Qabs k) (v * k) (V * k).
Proof.
  intros Hc [HV Hv].
  assert (Hk := Qabs_nonneg k).
  split.
  - rewrite Qabs_Qmult. apply Qmult_le_compat_r; assumption.
  - assert (E : v * k - V * k == (v - V) * k) by ring.
    rewrite E, Qabs_Qmult.
    apply Qle_trans with (c * pow2 (-53) * B * Qabs k).
    + apply Qmult_le_compat_r; assumption.
    + assert (E2 : c * pow2 (-53) * (B * Qabs k) == c * pow2 (-53) * B * Qabs k)
        by ring.
      rewrite E2. apply Qle_refl.
Qed.

Lemma near64_weaken (c B B' v V : Q) :
  0 <= c -> B <= B' -> near64 c B v V -> near64 c B' v V.
Proof.
  intros Hc HB [HV Hv]. split; [lra|].
  assert (Hu : 0 < pow2 (-53)) by apply pow2_pos.
  assert (Hp : 0 <= c * pow2 (-53) * (B' - B)).
  { apply Qmult_le_0_compat; [apply Qmult_le_0_compat|]; lra. }
  assert (E : c * pow2 (-53) * (B' - B)
              == c * pow2 (-53) * B' - c * pow2 (-53) * B) by ring.
  lra.
Qed.

Lemma near64_shift (a c B v V : Q) :
  near64 c B v V -> Qabs (V + a) <= B -> near64 c B (v + a) (V + a).
Proof.
  intros [HV Hv] Ha. split; [assumption|].
  assert (E : v + a - (V + a) == v - V) by ring. rewrite E. assumption.
Qed.

Lemma near64_from (a c B v V : Q) :
  near64 c B v V -> Qabs (a - V) <= B -> near64 c B (a - v) (a - V).
Proof.
  intros [HV Hv] Ha. split; [assumption|].
  assert (E : a - v - (a - V) == - (v - V)) by ring.
  rewrite E, Qabs_opp. assumption.
Qed.

Lemma near64_target (c B v V V' : Q) :
  V == V' -> near64 c B v V -> near64 c B v V'.
Proof. intros E [HV Hv]. unfold near64. rewrite <- E. split; assumption. Qed.

Lemma near64_both (c c' B v v' V : Q) :
  near64 c B v V -> near64 c' B v' V ->
  Qabs (v - v') <= (c + c') * pow2 (-53) * B.
Proof.
  intros [_ H] [_ H'].
  apply Qabs_Qle_condition. apply Qabs_Qle_condition in H, H'.
  split; lra.
Qed.

Lemma near64_start (v V : Q) : v == V -> near64 0 (Qabs V) v V.
Proof.
  intro E. destruct (near64_exact V) as [A B]. split; [assumption|].
  rewrite E. assumption.
Qed.

(** The conversion to [float] of a [double] result of the global
    projection stays within [2^-23] of the magnitude of the real value. *)
Lemma f32_of_near64 (B v V : Q) :
  near64 6 B v V -> Qabs (f32 v - V) <= pow2 (-23) * B.
Proof.
  intros [HV Hv].
  assert (Hr := roundTo_error 24 v). fold (f32 v) in Hr.
  change (pow2 (- (24))) with (1 # 16777216) in Hr.
  change (pow2 (-53)) with (1 # 9007199254740992) in Hv.
  change (pow2 (-23)) with (1 # 8388608).
  assert (HB : 0 <= B) by (eapply Qle_trans; [apply Qabs_nonneg|exact HV]).
  assert (Ha : Qabs v <= B + 6 * (1 # 9007199254740992) * B).
  { apply Qabs_Qle_condition. apply Qabs_Qle_condition in HV, Hv. split; lra. }
  apply Qabs_Qle_condition. apply Qabs_Qle_condition in Hr, Hv.
  split; lra.
Qed.

Section Projection.
Import Common Utils.

(** The regional projection with the unit viewport, in [double]
    arithmetic: at most five units of [2^-53] of the magnitude away from
    the real value. *)
Lemma regional64_near_x (lo la width height : Q) :
  near64 10 ((Qabs lo / 180 + 1) / 2 * Qabs width)
         (x (lonLatToXY64 lo la width height (Some (mkViewport 0 0 1))))
         ((lo + 180) / 360 * width).
Proof.
  cbn [lonLatToXY64 x zoom centerLon centerLat].
  assert (E180 : f64 (f64 (360 / zoomOr1 1) / 2) = 180) by (vm_compute; reflexivity).
  rewrite E180.
  assert (HM : 0 <= Qabs lo) by apply Qabs_nonneg.
  assert (N0 : near64 0 (Qabs lo) (lo - 0) lo) by (apply near64_start; ring).
  apply near64_f64 in N0; [|lra|lra].
  apply (near64_scale (/ 180)) in N0; [|lra].
  change (Qabs (/ 180)) with (/ 180) in N0.
  apply near64_weaken with (B' := Qabs lo / 180 + 1) in N0;
    [|lra|unfold Qdiv; lra].
  apply near64_f64 in N0; [|lra|lra].
  apply (near64_shift 1) in N0.
  2:{ eapply Qle_trans; [apply Qabs_triangle|].
      rewrite Qabs_Qmult. apply Qle_refl. }
  apply near64_f64 in N0; [|lra|lra].
  apply (near64_scale (/ 2)) in N0; [|lra].
  change (Qabs (/ 2)) with (/ 2) in N0.
  apply near64_f64 in N0; [|lra|lra].
  apply (near64_scale width) in N0; [|lra].
  apply near64_f64 in N0; [|lra|lra].
  eapply near64_target; [|exact N0]. field.
Qed.

Lemma regional64_near_y (lo la width height : Q) :
  near64 10 ((Qabs la / 90 + 1) / 2 * Qabs height)
         (y (lonLatToXY64 lo la width height (Some (mkViewport 0 0 1))))
         ((90 - la) / 180 * height).
Proof.
  cbn [lonLatToXY64 y zoom centerLon centerLat].
  assert (E90 : f64 (f64 (180 / zoomOr1 1) / 2) = 90) by (vm_compute; reflexivity).
  rewrite E90.
  assert (HM : 0 <= Qabs la) by apply Qabs_nonneg.
  assert (N0 : near64 0 (Qabs la) (la - 0) la) by (apply near64_start; ring).
  apply near64_f64 in N0; [|lra|lra].
  apply (near64_scale (/ 90)) in N0; [|lra].
  change (Qabs (/ 90)) with (/ 90) in N0.
  apply near64_weaken with (B' := Qabs la / 90 + 1) in N0;
    [|lra|unfold Qdiv; lra].
  apply near64_f64 in N0; [|lra|lra].
  apply (near64_from 1) in N0.
  2:{ assert (E : 1 - la * / 90 == 1 + - (la * / 90)) by ring. rewrite E.
      eapply Qle_trans; [apply Qabs_triangle|].
      rewrite Qabs_opp, Qabs_Qmult. change (Qabs 1) with 1.
      change (Qabs (/ 90)) with (/ 90). unfold Qdiv. lra. }
  apply near64_f64 in N0; [|lra|lra].
  apply (near64_scale (/ 2)) in N0; [|lra].
  change (Qabs (/ 2)) with (/ 2) in N0.
  apply near64_f64 in N0; [|lra|lra].
  apply (near64_scale height) in N0; [|lra].
  apply near64_f64 in N0; [|lra|lra].
  eapply near64_target; [|exact N0]. field.
Qed.

(** The global projection in [double] arithmetic: at most three units of
    [2^-53] of the magnitude away from the real value. *)
Lemma global64_near_x (lo la width height : Q) :
  near64 6 ((Qabs lo / 180 + 1) / 2 * Qabs width)
         (x (lonLatToXY64 lo la width height None))
         ((lo + 180) / 360 * width).
Proof.
  cbn [lonLatToXY64 x].
  assert (HM : 0 <= Qabs lo) by apply Qabs_nonneg.
  assert (N0 : near64 0 (Qabs (lo + 180)) (lo + 180) (lo + 180))
    by apply near64_exact.
  apply near64_weaken with (B' := (Qabs lo / 180 + 1) * 180) in N0; [|lra|].
  2:{ eapply Qle_trans; [apply Qabs_triangle|].
      change (Qabs 180) with 180.
      assert (E : (Qabs lo / 180 + 1) * 180 == Qabs lo + 180) by field.
      rewrite E. apply Qle_refl. }
  apply near64_f64 in N0; [|lra|lra].
  apply (near64_scale (/ 360)) in N0; [|lra].
  change (Qabs (/ 360)) with (/ 360) in N0.
  apply near64_weaken with (B' := (Qabs lo / 180 + 1) / 2) in N0; [|lra|].
  2:{ assert (E : (Qabs lo / 180 + 1) * 180 * / 360 == (Qabs lo / 180 + 1) / 2)
        by field.
      rewrite E. apply Qle_refl. }
  apply near64_f64 in N0; [|lra|lra].
  apply (near64_scale width) in N0; [|lra].
  apply near64_f64 in N0; [|lra|lra].
  exact N0.
Qed.

Lemma global64_near_y (lo la width height : Q) :
  near64 6 ((Qabs la / 90 + 1) / 2 * Qabs height)
         (y (lonLatToXY64 lo la width height None))
         ((90 - la) / 180 * height).
Proof.
  cbn [lonLatToXY64 y].
  assert (HM : 0 <= Qabs la) by apply Qabs_nonneg.
  assert (N0 : near64 0 (Qabs (90 - la)) (90 - la) (90 - la))
    by apply near64_exact.
  apply near64_weaken with (B' := (Qabs la / 90 + 1) * 90) in N0; [|lra|].
  2:{ assert (E0 : 90 - la == 90 + - la) by ring. rewrite E0.
      eapply Qle_trans; [apply Qabs_triangle|].
      rewrite Qabs_opp. change (Qabs 90) with 90.
      assert (E : (Qabs la / 90 + 1) * 90 == 90 + Qabs la) by field.
      rewrite E. apply Qle_refl. }
  apply near64_f64 in N0; [|lra|lra].
  apply (near64_scale (/ 180)) in N0; [|lra].
  change (Qabs (/ 180)) with (/ 180) in N0.
  apply near64_weaken with (B' := (Qabs la / 90 + 1) / 2) in N0; [|lra|].
  2:{ assert (E : (Qabs la / 90 + 1) * 90 * / 180 == (Qabs la / 90 + 1) / 2)
        by field.
      rewrite E. apply Qle_refl. }
  apply near64_f64 in N0; [|lra|lra].
  apply (near64_scale height) in N0; [|lra].
  apply near64_f64 in N0; [|lra|lra].
  exact N0.
Qed.

(** C10 (amended).  Over the real numbers, in regional mode with the
    viewport [{centerLon: 0, centerLat: 0, zoom: 1}] the web projection is
    the same map as in global mode, for every coordinate and canvas size:
    the regional map reduces to [x = (lon+180)/360 * width],
    [y = (90-lat)/180 * height].  The two modes evaluate different
    expressions, so that in [double] arithmetic their results agree up
    to rounding only: on a canvas of integer size the abscissas differ
    by at most [2^-50 * (|lon|/180 + 1) * width] and the ordinates by at
    most [2^-50 * (|lat|/90 + 1) * height], each mode being within five
    (regional) and three (global) units of [2^-53] of that magnitude of
    the real value.  The C++ [lonlat_to_xy] evaluates the expression of
    the global mode in [double] and stores the result in a [float]: it
    is the global projection rounded to [float], within
    [2^-24 * (|lon|/180 + 1) * width] and
    [2^-24 * (|lat|/90 + 1) * height] of the real value. *)
Theorem regional_unit_viewport_is_global :
  forall (lo la width height : Q),
    Point_eq (lonLatToXY lo la width height (Some (mkViewport 0 0 1)))
             (lonLatToXY lo la width height None)
    /\ x (lonLatToXY lo la width height (Some (mkViewport 0 0 1)))
         == (lo + 180) / 360 * width
    /\ y (lonLatToXY lo la width height (Some (mkViewport 0 0 1)))
         == (90 - la) / 180 * height
    /\ forall (w h : Z),
         let regional :=
           lonLatToXY64 lo la (inject_Z w) (inject_Z h) (Some (mkViewport 0 0 1)) in
         let global := lonLatToXY64 lo la (inject_Z w) (inject_Z h) None in
         Qabs (x regional - x global)
           <= pow2 (-50) * (Qabs lo / 180 + 1) * Qabs (inject_Z w)
         /\ Qabs (y regional - y global)
            <= pow2 (-50) * (Qabs la / 90 + 1) * Qabs (inject_Z h)
         /\ Qabs (x regional - (lo + 180) / 360 * inject_Z w)
            <= 5 * pow2 (-53) * (Qabs lo / 180 + 1) * Qabs (inject_Z w)
         /\ Qabs (x global - (lo + 180) / 360 * inject_Z w)
            <= 3 * pow2 (-53) * (Qabs lo / 180 + 1) * Qabs (inject_Z w)
         /\ Qabs (y regional - (90 - la) / 180 * inject_Z h)
            <= 5 * pow2 (-53) * (Qabs la / 90 + 1) * Qabs (inject_Z h)
         /\ Qabs (y global - (90 - la) / 180 * inject_Z h)
            <= 3 * pow2 (-53) * (Qabs la / 90 + 1) * Qabs (inject_Z h)
         /\ x (lonlat_to_xy_f32 lo la w h) = f32 (x global)
         /\ y (lonlat_to_xy_f32 lo la w h) = f32 (y global)
         /\ Qabs (x (lonlat_to_xy_f32 lo la w h) - (lo + 180) / 360 * inject_Z w)
            <= pow2 (-24) * (Qabs lo / 180 + 1) * Qabs (inject_Z w)
         /\ Qabs (y (lonlat_to_xy_f32 lo la w h) - (90 - la) / 180 * inject_Z h)
            <= pow2 (-24) * (Qabs la / 90 + 1) * Qabs (inject_Z h).
Proof.
  intros lo la width height.
  split; [|split; [|split]].
  - unfold Point_eq, lonLatToXY, zoomOr1; simpl. split; field.
  - unfold lonLatToXY, zoomOr1; simpl. field.
  - unfold lonLatToXY, zoomOr1; simpl. field.
  - intros w h regional global.
    assert (Rx := regional64_near_x lo la (inject_Z w) (inject_Z h)).
    assert (Ry := regional64_near_y lo la (inject_Z w) (inject_Z h)).
    assert (Gx := global64_near_x lo la (inject_Z w) (inject_Z h)).
    assert (Gy := global64_near_y lo la (inject_Z w) (inject_Z h)).
    fold regional in Rx, Ry. fold global in Gx, Gy.
    assert (Dx := near64_both _ _ _ _ _ _ Rx Gx).
    assert (Dy := near64_both _ _ _ _ _ _ Ry Gy).
    assert (Cx := f32_of_near64 _ _ _ Gx).
    assert (Cy := f32_of_near64 _ _ _ Gy).
    assert (Ex : x (lonlat_to_xy_f32 lo la w h) = f32 (x global)) by reflexivity.
    assert (Ey : y (lonlat_to_xy_f32 lo la w h) = f32 (y global)) by reflexivity.
    rewrite <- Ex in Cx. rewrite <- Ey in Cy.
    destruct Rx as [_ Rx], Ry as [_ Ry], Gx as [_ Gx], Gy as [_ Gy].
    set (cx := x (lonlat_to_xy_f32 lo la w h)) in *.
    set (cy := y (lonlat_to_xy_f32 lo la w h)) in *.
    assert (E23 : pow2 (-23) == 2 * pow2 (-24)) by (vm_compute; reflexivity).
    rewrite E23 in Cx, Cy.
    set (v := pow2 (-24)) in *.
    clearbody regional global cx cy v.
    set (u := pow2 (-53)) in *.
    assert (E50 : pow2 (-50) == 8 * u) by (vm_compute; reflexivity).
    rewrite !E50. clearbody u.
    set (Mx := (Qabs lo / 180 + 1)) in *. set (My := (Qabs la / 90 + 1)) in *.
    set (W := Qabs (inject_Z w)) in *. set (H := Qabs (inject_Z h)) in *.
    clearbody Mx My W H.
    repeat split.
    + eapply Qle_trans; [exact Dx|]. apply Qle_lteq. right. field.
    + eapply Qle_trans; [exact Dy|]. apply Qle_lteq. right. field.
    + eapply Qle_trans; [exact Rx|]. apply Qle_lteq. right. field.
    + eapply Qle_trans; [exact Gx|]. apply Qle_lteq. right. field.
    + eapply Qle_trans; [exact Ry|]. apply Qle_lteq. right. field.
    + eapply Qle_trans; [exact Gy|]. apply Qle_lteq. right. field.
    + exact Ex.
    + exact Ey.
    + eapply Qle_trans; [exact Cx|]. apply Qle_lteq. right. field.
    + eapply Qle_trans; [exact Cy|]. apply Qle_lteq. right. field.
Qed.

(** C10 as written fails in [double] arithmetic: for the longitude of
    Tokyo (the [double] nearest to 139.6503) on a canvas 1920 wide, the
    regional mode gives 1704.8015999999998 and the global mode 1704.8016,
    one unit in the last place apart. *)
Lemma regional_unit_viewport_counterexample :
  let lo := f64 (1396503 # 10000) in
  let regional := lonLatToXY64 lo 0 1920 1080 (Some (mkViewport 0 0 1)) in
  let global := lonLatToXY64 lo 0 1920 1080 None in
  x global == 7497796729004517 # 4398046511104
  /\ x regional == 7497796729004516 # 4398046511104
  /\ x regional < x global
  /\ ~ Point_eq regional global.
Proof.
  vm_compute. repeat split; try congruence.
  intros [H _]. discriminate H.
Qed.

End Projection.

(* ----------------------------------------------------------------- *)
(** ** Numeric helpers *)

Lemma Qlt_bool_iff (p q : Q) : Qlt_bool p q = true <-> p < q.
Proof.
  unfold Qlt_bool. rewrite negb_true_iff.
  split; intro H.
  - apply Qnot_le_lt. intro Hle. apply Qle_bool_iff in Hle. congruence.
  - destruct (Qle_bool q p) eqn:E; [|reflexivity].
    apply Qle_bool_iff in E. exfalso. apply (Qlt_not_le _ _ H E).
Qed.

Lemma Qlt_bool_false_iff (p q : Q) : Qlt_bool p q = false <-> q <= p.
Proof.
  unfold Qlt_bool. rewrite negb_false_iff. apply Qle_bool_iff.
Qed.

Lemma Qle_bool_false_iff (p q : Q) : Qle_bool p q = false <-> q < p.
Proof.
  rewrite <- Qlt_bool_iff. unfold Qlt_bool.
  destruct (Qle_bool p q); simpl; intuition congruence.
Qed.

(* ----------------------------------------------------------------- *)
(** ** Antimeridian segmentation *)

Section Segmentation.
Import Common VectorMap Segments.

Lemma crossesAntimeridian_iff (p q : Point) :
  crossesAntimeridian p q = true <-> exceedsHalfWidth p q.
Proof.
  unfold crossesAntimeridian, exceedsHalfWidth, SCREEN_WIDTH.
  rewrite Qlt_bool_iff.
  assert (E : inject_Z 1920 * (5 # 10) == inject_Z 1920 / 2) by reflexivity.
  rewrite E. reflexivity.
Qed.

Lemma crossesAntimeridian_false_iff (p q : Point) :
  crossesAntimeridian p q = false <-> ~ exceedsHalfWidth p q.
Proof.
  rewrite <- crossesAntimeridian_iff.
  destruct (crossesAntimeridian p q); intuition congruence.
Qed.

Lemma saveSegment_app (cur : list Point) (o1 o2 : list LineSegment) (c : Color) :
  saveSegment cur (o1 ++ o2) c = o1 ++ saveSegment cur o2 c.
Proof.
  unfold saveSegment. destruct (1 <? length cur)%nat; [symmetry; apply app_assoc | reflexivity].
Qed.

Lemma saveSegment_keep (cur : list Point) (c : Color) :
  map points (saveSegment cur [] c) = keep cur.
Proof.
  unfold saveSegment, keep. destruct (1 <? length cur)%nat; reflexivity.
Qed.

(** The loop only appends to [output]. *)
Lemma splitLoop_output (c : Color) (rest : list Point) :
  forall prev cur out,
    splitLoop prev rest cur out c
    = (fst (splitLoop prev rest cur [] c),
       out ++ snd (splitLoop prev rest cur [] c)).
Proof.
  induction rest as [|p rest IH]; intros prev cur out; simpl.
  - now rewrite app_nil_r.
  - destruct (crossesAntimeridian prev p).
    + rewrite (IH p [p] (saveSegment cur out c)).
      rewrite (IH p [p] (saveSegment cur [] c)). simpl.
      replace out with (out ++ []) at 1 by apply app_nil_r.
      rewrite saveSegment_app, <- app_assoc. reflexivity.
    + apply IH.
Qed.

(** Without a crossing the loop only grows the current segment. *)
Lemma splitLoop_calm (c : Color) (rest : list Point) :
  forall prev cur out,
    calm prev rest -> splitLoop prev rest cur out c = (cur ++ rest, out).
Proof.
  induction rest as [|p rest IH]; intros prev cur out Hc; simpl in *.
  - now rewrite app_nil_r.
  - destruct Hc as [Hpq Hc]. rewrite Hpq, IH by assumption.
    now rewrite <- app_assoc.
Qed.

Lemma last_cons_default (z d d' : Point) (l : list Point) :
  last (z :: l) d = last (z :: l) d'.
Proof.
  revert z. induction l as [|w l IH]; intros z; [reflexivity|].
  change (last (w :: l) d = last (w :: l) d'). apply IH.
Qed.

(** At the first crossing the current segment is saved as it stands and
    the next one starts at the current point. *)
Lemma splitLoop_cross (c : Color) (l1 : list Point) :
  forall prev cur out q l2,
    calm prev l1 ->
    crossesAntimeridian (last l1 prev) q = true ->
    splitLoop prev (l1 ++ q :: l2) cur out c
    = splitLoop q l2 [q] (saveSegment (cur ++ l1) out c) c.
Proof.
  induction l1 as [|p l1 IH]; intros prev cur out q l2 Hc Hx; simpl in *.
  - rewrite Hx, app_nil_r. reflexivity.
  - destruct Hc as [Hpq Hc]. rewrite Hpq.
    rewrite (IH p (cur ++ [p]) out q l2 Hc).
    + now rewrite <- app_assoc.
    + destruct l1 as [|z l1]; [assumption|].
      rewrite (last_cons_default z p prev). assumption.
Qed.

Lemma consecutive_cons (p0 p q : Point) (s : list Point) :
  consecutive s p q -> consecutive (p0 :: s) p q.
Proof.
  intros (l1 & l2 & ->). exists (p0 :: l1), l2. reflexivity.
Qed.

Lemma consecutive_cons_inv (p0 p1 p q : Point) (s : list Point) :
  consecutive (p0 :: p1 :: s) p q ->
  (p = p0 /\ q = p1) \/ consecutive (p1 :: s) p q.
Proof.
  intros (l1 & l2 & E). destruct l1 as [|z l1]; simpl in E.
  - left. inversion E. auto.
  - right. inversion E. exists l1, l2. assumption.
Qed.

Lemma noCrossing_calm (prev : Point) (rest : list Point) :
  noCrossing (prev :: rest) <-> calm prev rest.
Proof.
  revert prev. induction rest as [|p rest IH]; intros prev; simpl.
  - split; [trivial|]. intros _ p q (l1 & l2 & E).
    destruct l1 as [|z [|z' l1]]; discriminate.
  - split.
    + intros H. split.
      * apply crossesAntimeridian_false_iff. apply H. exists [], rest. reflexivity.
      * apply IH. intros a b Hab. apply H. now apply consecutive_cons.
    + intros [Hpq Hc] a b Hab.
      apply consecutive_cons_inv in Hab. destruct Hab as [[-> ->]|Hab].
      * now apply crossesAntimeridian_false_iff.
      * apply IH in Hc. now apply Hc.
Qed.

Lemma noCrossing_short (s : list Point) : (length s <= 1)%nat -> noCrossing s.
Proof.
  intros Hl p q (l1 & l2 & ->). rewrite length_app in Hl. simpl in Hl. lia.
Qed.

(** A polyline without a crossing pair is kept whole (if long enough). *)
Lemma splitPath_calm (pts : list Point) :
  noCrossing pts -> splitPath pts = keep pts.
Proof.
  unfold splitPath, splitAtAntimeridian. destruct pts as [|p0 rest]; intros H.
  - reflexivity.
  - apply noCrossing_calm in H. rewrite splitLoop_calm by assumption.
    apply saveSegment_keep.
Qed.

(** A crossing between the last point of [A] and the first of [B]
    separates the calm piece [A] from what the routine makes of [B]. *)
Lemma splitPath_cross (A B : list Point) (p0 q0 : Point) :
  A <> [] -> B <> [] -> noCrossing A ->
  exceedsHalfWidth (last A p0) (hd q0 B) ->
  splitPath (A ++ B) = keep A ++ splitPath B.
Proof.
  intros HA HB Hcalm Hx.
  destruct A as [|a A]; [congruence|]. destruct B as [|q B]; [congruence|].
  apply noCrossing_calm in Hcalm. apply crossesAntimeridian_iff in Hx.
  unfold splitPath, splitAtAntimeridian.
  change ((a :: A) ++ q :: B) with (a :: (A ++ q :: B)). cbv beta iota.
  rewrite (splitLoop_cross DIM_CYAN A a [a] [] q B Hcalm).
  - rewrite splitLoop_output.
    destruct (splitLoop q B [q] [] DIM_CYAN) as [cur out].
    cbv beta iota. unfold fst, snd.
    rewrite saveSegment_app, map_app, saveSegment_keep. reflexivity.
  - simpl hd in Hx. destruct A as [|z A]; [assumption|].
    rewrite (last_cons_default z a p0).
    change (last (a :: z :: A) p0) with (last (z :: A) p0) in Hx. assumption.
Qed.

Lemma calm_firstn (rest : list Point) :
  forall prev, calm prev (firstn (calmLength prev rest) rest).
Proof.
  induction rest as [|p rest IH]; intros prev; simpl; [trivial|].
  destruct (crossesAntimeridian prev p) eqn:E; simpl; auto.
Qed.

Lemma cross_after_calm (rest : list Point) :
  forall prev q B,
    skipn (calmLength prev rest) rest = q :: B ->
    crossesAntimeridian (last (firstn (calmLength prev rest) rest) prev) q = true.
Proof.
  induction rest as [|p rest IH]; intros prev q B; simpl; [discriminate|].
  destruct (crossesAntimeridian prev p) eqn:E; simpl.
  - intros [= -> _]. assumption.
  - intros H. specialize (IH p q B H).
    destruct (firstn (calmLength p rest) rest) as [|z l] eqn:F; [assumption|].
    rewrite (last_cons_default z prev p). assumption.
Qed.

Lemma crossingCount_calm (rest : list Point) :
  forall prev, crossingCount (prev :: rest) = O <-> calm prev rest.
Proof.
  induction rest as [|p rest IH]; intros prev.
  - simpl. tauto.
  - change (crossingCount (prev :: p :: rest))
      with ((if crossesAntimeridian prev p then 1 else 0)
            + crossingCount (p :: rest))%nat.
    simpl calm. rewrite <- IH.
    destruct (crossesAntimeridian prev p); simpl; intuition (try lia; congruence).
Qed.

Lemma crossingCount_skip (rest : list Point) :
  forall prev,
    crossingCount (prev :: rest)
    = match skipn (calmLength prev rest) rest with
      | [] => O
      | q :: B => S (crossingCount (q :: B))
      end.
Proof.
  induction rest as [|p rest IH]; intros prev; [reflexivity|].
  change (crossingCount (prev :: p :: rest))
    with ((if crossesAntimeridian prev p then 1 else 0)
          + crossingCount (p :: rest))%nat.
  simpl calmLength. destruct (crossesAntimeridian prev p); simpl skipn.
  - reflexivity.
  - simpl. apply IH.
Qed.

(** Every non-empty polyline is its longest calm prefix [A] followed by
    a rest [B] that the routine treats as a polyline of its own; when
    [B] is not empty the pair at the junction crosses. *)
Lemma splitPath_decompose (p0 : Point) (rest : list Point) :
  let A := p0 :: firstn (calmLength p0 rest) rest in
  let B := skipn (calmLength p0 rest) rest in
  p0 :: rest = A ++ B
  /\ noCrossing A
  /\ (forall q B', B = q :: B' -> exceedsHalfWidth (last A p0) q)
  /\ splitPath (p0 :: rest) = keep A ++ splitPath B.
Proof.
  intros A B.
  assert (E : p0 :: rest = A ++ B)
    by (unfold A, B; simpl; now rewrite firstn_skipn).
  assert (HA : noCrossing A) by (apply noCrossing_calm, calm_firstn).
  assert (HX : forall q B', B = q :: B' -> exceedsHalfWidth (last A p0) q).
  { intros q B' S. apply crossesAntimeridian_iff.
    pose proof (cross_after_calm rest p0 q B' S) as Hx. unfold A.
    destruct (firstn (calmLength p0 rest) rest) as [|z l]; [assumption|].
    change (last (p0 :: z :: l) p0) with (last (z :: l) p0). assumption. }
  repeat split; try assumption.
  destruct B as [|q B'] eqn:S.
  - rewrite app_nil_r in E. rewrite E.
    rewrite (splitPath_calm _ HA). now rewrite app_nil_r.
  - rewrite E. apply (splitPath_cross _ _ p0 q); try discriminate; [assumption|].
    simpl hd. now apply (HX q B').
Qed.

Lemma infix_app_r (s A B : list Point) : infix s B -> infix s (A ++ B).
Proof.
  intros (pre & post & ->). exists (A ++ pre), post. now rewrite <- app_assoc.
Qed.

Lemma keep_In (s A : list Point) : In s (keep A) -> s = A /\ (2 <= length A)%nat.
Proof.
  unfold keep. destruct (1 <? length A)%nat eqn:E; simpl; [|tauto].
  intros [<-|[]]. apply Nat.ltb_lt in E. split; [reflexivity | lia].
Qed.

(** What holds of every segment the routine returns. *)
Lemma splitPath_segments (n : nat) :
  forall pts, (length pts <= n)%nat ->
  forall s, In s (splitPath pts) ->
            (2 <= length s)%nat /\ noCrossing s /\ infix s pts.
Proof.
  induction n as [|n IH]; intros pts Hlen s Hin.
  - destruct pts; [destruct Hin | simpl in Hlen; lia].
  - destruct pts as [|p0 rest]; [destruct Hin|].
    destruct (splitPath_decompose p0 rest) as (E & Hcalm & _ & Hsplit).
    set (A := p0 :: firstn (calmLength p0 rest) rest) in *.
    set (B := skipn (calmLength p0 rest) rest) in *.
    rewrite Hsplit in Hin. apply in_app_or in Hin. destruct Hin as [Hin|Hin].
    + apply keep_In in Hin. destruct Hin as [-> Hl].
      repeat split; try assumption. exists [], B. now rewrite E.
    + assert (HB : (length B <= n)%nat).
      { apply (f_equal (@length Point)) in E. rewrite length_app in E.
        simpl in E, Hlen. lia. }
      destruct (IH B HB s Hin) as (H1 & H2 & H3).
      repeat split; try assumption. rewrite E. now apply infix_app_r.
Qed.

Lemma saveSegment_points (c c' : Color) (cur : list Point)
      (out out' : list LineSegment) :
  map points out = map points out' ->
  map points (saveSegment cur out c) = map points (saveSegment cur out' c').
Proof.
  intros E. unfold saveSegment. destruct (1 <? length cur)%nat; [|assumption].
  rewrite !map_app, E. reflexivity.
Qed.

(** The colour does not influence where the polyline is cut. *)
Lemma splitLoop_points (c c' : Color) (rest : list Point) :
  forall prev cur out out',
    map points out = map points out' ->
    fst (splitLoop prev rest cur out c) = fst (splitLoop prev rest cur out' c')
    /\ map points (snd (splitLoop prev rest cur out c))
       = map points (snd (splitLoop prev rest cur out' c')).
Proof.
  induction rest as [|p rest IH]; intros prev cur out out' E; simpl.
  - auto.
  - destruct (crossesAntimeridian prev p); apply IH;
      [now apply saveSegment_points | assumption].
Qed.

Lemma saveSegment_color (c : Color) (cur : list Point) (out : list LineSegment) :
  Forall (fun s => color s = c) out ->
  Forall (fun s => color s = c) (saveSegment cur out c).
Proof.
  intros H. unfold saveSegment. destruct (1 <? length cur)%nat; [|assumption].
  apply Forall_app. split; [assumption|]. now constructor.
Qed.

Lemma splitLoop_color (c : Color) (rest : list Point) :
  forall prev cur out,
    Forall (fun s => color s = c) out ->
    Forall (fun s => color s = c) (snd (splitLoop prev rest cur out c)).
Proof.
  induction rest as [|p rest IH]; intros prev cur out H; simpl.
  - assumption.
  - destruct (crossesAntimeridian prev p); apply IH;
      [now apply saveSegment_color | assumption].
Qed.

Lemma segments_of_points (c : Color) (l : list LineSegment) :
  Forall (fun s => color s = c) l ->
  l = map (fun s => mkLineSegment s c) (map points l).
Proof.
  induction 1 as [|s l Hs _ IH]; [reflexivity|].
  simpl. rewrite <- IH. destruct s as [ps cs]. simpl in Hs. now rewrite Hs.
Qed.

(** The routine appends to [output] the segments of [splitPath], each
    with the colour it was given. *)
Lemma splitAtAntimeridian_splitPath (pts : list Point)
      (out : list LineSegment) (c : Color) :
  splitAtAntimeridian pts out c
  = out ++ map (fun s => mkLineSegment s c) (splitPath pts).
Proof.
  unfold splitPath, splitAtAntimeridian.
  destruct pts as [|p0 rest]; [now rewrite app_nil_r|].
  rewrite (splitLoop_output c rest p0 [p0] out).
  destruct (splitLoop_points c DIM_CYAN rest p0 [p0] [] [] eq_refl) as [Ef Es].
  pose proof (splitLoop_color c rest p0 [p0] [] (Forall_nil _)) as Hc.
  destruct (splitLoop p0 rest [p0] [] c) as [cur o].
  destruct (splitLoop p0 rest [p0] [] DIM_CYAN) as [cur' o'].
  simpl in *. subst cur'.
  rewrite saveSegment_app. f_equal.
  rewrite <- (saveSegment_points c DIM_CYAN cur o o' Es).
  apply segments_of_points. now apply saveSegment_color.
Qed.

(** C9 (amended).  Every segment returned by the antimeridian split has
    at least two points (shorter candidates are discarded), contains no
    two consecutive points whose |dx|, computed as the code computes it
    (the [float] difference of the abscissas), exceeds half the screen
    width, and is a contiguous run of the input points, so nothing is
    inserted; the crossing test is strict on that computed |dx|, and
    equality with half the width does not split; where the difference of
    the abscissas is itself a [float] the test is the one on the real
    |dx|; on a crossing the piece before it ends at the previous point and
    the rest is segmented as a polyline that begins at the current
    point. *)
Theorem antimeridian_split_invariants :
  forall pts : list Point,
    (forall s, In s (splitPath pts) ->
               (2 <= length s)%nat /\ noCrossing s /\ infix s pts)
    /\ (forall p q, crossesAntimeridian p q = true
                    <-> inject_Z SCREEN_WIDTH / 2 < Qabs (f32 (x q - x p)))
    /\ (forall p q, Qabs (f32 (x q - x p)) == inject_Z SCREEN_WIDTH / 2 ->
                    splitPath [p; q] = [[p; q]])
    /\ (forall p q, f32 (x q - x p) == x q - x p ->
                    (crossesAntimeridian p q = true
                     <-> exactlyExceedsHalfWidth p q))
    /\ (forall A B p0 q0,
          pts = A ++ B -> A <> [] -> B <> [] -> noCrossing A ->
          exceedsHalfWidth (last A p0) (hd q0 B) ->
          splitPath pts = keep A ++ splitPath B)
    /\ (forall out c,
          splitAtAntimeridian pts out c
          = out ++ map (fun s => mkLineSegment s c) (splitPath pts)).
Proof.
  intros pts. repeat apply conj.
  - intros s Hin. now apply (splitPath_segments (length pts) pts (le_n _)).
  - intros p q. apply crossesAntimeridian_iff.
  - intros p q Heq. apply (splitPath_calm [p; q]).
    apply noCrossing_calm. simpl. split; [|trivial].
    apply crossesAntimeridian_false_iff. unfold exceedsHalfWidth.
    rewrite Heq. apply Qlt_irrefl.
  - intros p q Hexact. rewrite crossesAntimeridian_iff.
    unfold exceedsHalfWidth, exactlyExceedsHalfWidth. now rewrite Hexact.
  - intros A B p0 q0 -> HA HB Hc Hx. now apply (splitPath_cross A B p0 q0).
  - intros out c. apply splitAtAntimeridian_splitPath.
Qed.

Lemma antimeridian_split_invariants_witness :
  let pts := [mkPoint 0 0; mkPoint 100 0; mkPoint 1900 0; mkPoint 1800 0] in
  let s := [mkPoint 1900 0; mkPoint 1800 0] in
  In s (splitPath pts)
  /\ (2 <= length s)%nat /\ noCrossing s /\ infix s pts.
Proof.
  intros pts s.
  assert (H : In s (splitPath pts)) by (vm_compute; auto).
  split; [exact H|].
  exact (proj1 (antimeridian_split_invariants pts) s H).
Defined.

(** C9 as written fails for the real |dx|: the abscissas [3 * 2^-16] and
    [960 + 2^-14] are [float] values 960 + 2^-16 apart, their [float]
    difference is 960, and the two points are returned as one segment. *)
Lemma antimeridian_split_counterexample :
  let a := mkPoint (3 # 65536) 0 in
  let b := mkPoint (960 + (1 # 16384)) 0 in
  splitPath [a; b] = [[a; b]]
  /\ exactlyExceedsHalfWidth a b
  /\ f32 (x b - x a) == 960
  /\ f32 (x a) == x a /\ f32 (x b) == x b.
Proof.
  vm_compute. repeat split; congruence.
Qed.

Lemma crossingCount_noCrossing (pts : list Point) :
  crossingCount pts = 0%nat <-> noCrossing pts.
Proof.
  destruct pts as [|p0 rest].
  - split; [intros _; apply noCrossing_short; simpl; lia | reflexivity].
  - rewrite crossingCount_calm. symmetry. apply noCrossing_calm.
Qed.

Lemma keep_long (s : list Point) : (2 <= length s)%nat -> keep s = [s].
Proof.
  intros H. unfold keep.
  destruct (1 <? length s)%nat eqn:E; [reflexivity|].
  apply Nat.ltb_ge in E. lia.
Qed.

(** C3 (amended).  A polyline has no crossing pair exactly when no two
    consecutive points jump by more than half the screen width (the jump
    being the [float] difference of the abscissas that the crossing test
    computes).  The
    split of a polyline without a crossing pair is the polyline itself,
    kept only when it has two points or more: exactly one segment, equal
    to the input, for an input of at least two points.  A polyline with
    exactly one crossing pair is cut at that pair into two pieces, each
    kept only when it has two points or more: exactly two segments when
    both pieces have at least two points. *)
Theorem splitPath_by_crossing_count :
  forall pts : list Point,
    (crossingCount pts = 0%nat <-> noCrossing pts)
    /\ (crossingCount pts = 0%nat -> splitPath pts = keep pts)
    /\ (crossingCount pts = 0%nat -> (2 <= length pts)%nat ->
        splitPath pts = [pts])
    /\ (crossingCount pts = 1%nat ->
        exists A B,
          pts = A ++ B /\ A <> [] /\ B <> []
          /\ noCrossing A /\ noCrossing B
          /\ (forall p0 q0, exceedsHalfWidth (last A p0) (hd q0 B))
          /\ splitPath pts = keep A ++ keep B
          /\ ((2 <= length A)%nat -> (2 <= length B)%nat ->
              splitPath pts = [A; B])).
Proof.
  intros pts.
  assert (H0 : crossingCount pts = 0%nat -> splitPath pts = keep pts).
  { intros H. apply splitPath_calm. now apply crossingCount_noCrossing. }
  repeat apply conj.
  - apply crossingCount_noCrossing.
  - apply crossingCount_noCrossing.
  - exact H0.
  - intros H Hl. rewrite (H0 H). now apply keep_long.
  - destruct pts as [|p0 rest]; [discriminate|]. intros H1.
    destruct (splitPath_decompose p0 rest) as (E & HA & HX & Hsplit).
    rewrite crossingCount_skip in H1.
    set (A := p0 :: firstn (calmLength p0 rest) rest) in *.
    destruct (skipn (calmLength p0 rest) rest) as [|q B'] eqn:S; [discriminate|].
    injection H1 as H1.
    assert (HB : noCrossing (q :: B')) by now apply crossingCount_noCrossing.
    assert (HS : splitPath (p0 :: rest) = keep A ++ keep (q :: B'))
      by (rewrite Hsplit; f_equal; now apply splitPath_calm).
    exists A, (q :: B'). repeat split; try assumption; try discriminate.
    + intros p1 q0. simpl hd. unfold A.
      rewrite (last_cons_default p0 p1 p0). now apply (HX q B').
    + intros HlA HlB. rewrite HS, (keep_long A HlA), (keep_long _ HlB). reflexivity.
Qed.

Lemma splitPath_by_crossing_count_witness :
  let pts := [mkPoint 0 0; mkPoint 100 0; mkPoint 1900 0; mkPoint 1800 0] in
  crossingCount pts = 1%nat
  /\ exists A B,
       pts = A ++ B /\ A <> [] /\ B <> []
       /\ noCrossing A /\ noCrossing B
       /\ (forall p0 q0, exceedsHalfWidth (last A p0) (hd q0 B))
       /\ splitPath pts = keep A ++ keep B
       /\ ((2 <= length A)%nat -> (2 <= length B)%nat -> splitPath pts = [A; B]).
Proof.
  intros pts.
  assert (H : crossingCount pts = 1%nat) by (vm_compute; reflexivity).
  split; [exact H|].
  exact (proj2 (proj2 (proj2 (splitPath_by_crossing_count pts))) H).
Defined.

(** C3 as written fails: a single point has no crossing pair and yields
    no segment at all, and a polyline whose only crossing pair is its
    first pair yields one segment, not two. *)
Lemma splitPath_count_counterexample :
  let p := mkPoint 0 0 in
  let q := mkPoint 1900 0 in
  let r := mkPoint 1800 0 in
  (crossingCount [p] = 0%nat /\ splitPath [p] <> [[p]])
  /\ (crossingCount [p; q; r] = 1%nat /\ length (splitPath [p; q; r]) <> 2%nat).
Proof.
  vm_compute. repeat split; discriminate.
Qed.

End Segmentation.

(* ----------------------------------------------------------------- *)
(** ** Layered glow *)

Section GlowDrawing.
Import Common Renderer Glow.

Lemma glowLoop_length (p : Primitive) (c : Color) (layers : Z) (n : nat) :
  length (glowLoop p c layers n) = n.
Proof.
  induction n as [|n IH]; simpl; [reflexivity | now rewrite IH].
Qed.

Lemma glowLoop_nth (p : Primitive) (c : Color) (layers : Z) (n : nat) :
  forall k, (k < n)%nat ->
    nth_error (glowLoop p c layers n) k
    = Some (glowLayer p c layers (Z.of_nat (n - 1 - k))).
Proof.
  induction n as [|n IH]; intros k Hk; [lia|].
  destruct k as [|k].
  - replace (S n - 1 - 0)%nat with n by lia. reflexivity.
  - replace (S n - 1 - S k)%nat with (n - 1 - k)%nat by lia.
    simpl. apply IH. lia.
Qed.

Lemma glowLoop_isGlowOf (p : Primitive) (c : Color) (layers : Z) :
  isGlowOf (glowLoop p c layers (Z.to_nat layers)) p c layers.
Proof.
  split; [apply glowLoop_length|].
  intros k Hk. rewrite glowLoop_nth by assumption. repeat f_equal. lia.
Qed.

(** C7.  Each of [drawLineWithGlow], [drawCircleWithGlow] and
    [drawPathWithGlow] issues exactly [layers] draws of its primitive, for
    [i] from [layers-1] down to [0]; draw [i] has alpha [1.0] when
    [i = 0] and [0.3/layers] otherwise, width [1.0 + (layers-i)*0.8] and
    colour [(color.rgb, color.a*alpha)].  The layer [i = 0], of alpha
    [1.0], has width [1.0 + layers*0.8], is strictly wider than every
    other layer and is drawn last. *)
Theorem glow_draws_layers :
  forall (c : Color) (layers : Z),
    (forall x1 y1 x2 y2,
        isGlowOf (drawLineWithGlow x1 y1 x2 y2 c layers) (Line x1 y1 x2 y2) c layers)
    /\ (forall cx cy radius,
           isGlowOf (drawCircleWithGlow cx cy radius c layers)
                    (Circle cx cy radius) c layers)
    /\ (forall pts,
           isGlowOf (drawPathWithGlow pts c layers) (Path pts) c layers)
    /\ (forall p,
           color (glowLayer p c layers 0) = mkColor (r c) (g c) (b c) (a c * 1)
           /\ width (glowLayer p c layers 0) == 1 + inject_Z layers * (8 # 10)
           /\ (forall i, (0 < i)%Z ->
                 a (color (glowLayer p c layers i))
                 = a c * ((3 # 10) / inject_Z layers)
                 /\ width (glowLayer p c layers i)
                    < width (glowLayer p c layers 0)))
    /\ (forall p calls,
           isGlowOf calls p c layers -> (0 < layers)%Z ->
           nth_error calls (length calls - 1) = Some (glowLayer p c layers 0)).
Proof.
  intros c layers. repeat apply conj.
  - intros. apply glowLoop_isGlowOf.
  - intros. apply glowLoop_isGlowOf.
  - intros. apply glowLoop_isGlowOf.
  - intros p. split; [reflexivity|]. split.
    + simpl. rewrite Z.sub_0_r. reflexivity.
    + intros i Hi. unfold glowLayer. simpl. split.
      * destruct (i =? 0)%Z eqn:E; [lia | reflexivity].
      * rewrite Z.sub_0_r. unfold Z.sub. rewrite inject_Z_plus, inject_Z_opp.
        assert (Hq : inject_Z 0 < inject_Z i) by (rewrite <- Zlt_Qlt; exact Hi).
        change (inject_Z 0) with 0 in Hq.
        lra.
  - intros p calls [Hlen Hnth] Hpos.
    rewrite Hlen, Hnth by lia. repeat f_equal. lia.
Qed.

Lemma glow_draws_layers_witness :
  let calls := drawCircleWithGlow 0 0 10 CYAN 3 in
  isGlowOf calls (Circle 0 0 10) CYAN 3
  /\ nth_error calls (length calls - 1) = Some (glowLayer (Circle 0 0 10) CYAN 3 0).
Proof.
  intros calls.
  pose proof (glow_draws_layers CYAN 3) as (_ & HC & _ & _ & HL).
  split; [apply HC|].
  apply HL; [apply HC | lia].
Defined.

End GlowDrawing.

(* ----------------------------------------------------------------- *)
(** ** Explosion rings *)

Section ExplosionRings.
Import Common Renderer.






End ExplosionRings.

(* ----------------------------------------------------------------- *)
(** ** Missile progress *)

Section MissileProgress.
Import Runs.

Lemma Qdiv_nonneg (n d : Q) : 0 <= n -> 0 < d -> 0 <= n / d.
Proof.
  intros Hn Hd. apply Qle_shift_div_l; [assumption | lra].
Qed.

Lemma missile_update_duration (dt : Q) (m : Missile.t) :
  Missile.m_duration (Missile.update dt m) = Missile.m_duration m.
Proof. reflexivity. Qed.

Lemma missile_update_bounds (dt : Q) (m : Missile.t) :
  0 < Missile.m_duration m -> Missile.m_progress m <= 1 -> 0 <= dt ->
  Missile.m_progress m <= Missile.m_progress (Missile.update dt m)
  /\ Missile.m_progress (Missile.update dt m) <= 1.
Proof.
  intros Hd Hp Hdt. pose proof (Qdiv_nonneg dt _ Hdt Hd) as Hq.
  unfold Missile.update. simpl.
  destruct (Qlt_bool 1 (Missile.m_progress m + dt / Missile.m_duration m)) eqn:E.
  - split; [assumption | lra].
  - apply Qlt_bool_false_iff in E. split; lra.
Qed.

Lemma missileUpdates_valid (dts : list Q) :
  forall m,
    0 < Missile.m_duration m -> Missile.m_progress m <= 1 ->
    Forall (Qle 0) dts ->
    0 < Missile.m_duration (missileUpdates dts m)
    /\ Missile.m_progress (missileUpdates dts m) <= 1.
Proof.
  induction dts as [|dt dts IH]; intros m Hd Hp Hdts; simpl; [auto|].
  inversion Hdts as [|? ? Hdt Hrest]; subst.
  apply IH; [assumption | | assumption].
  now apply missile_update_bounds.
Qed.

Lemma missile_isFinished_iff (m : Missile.t) :
  Missile.m_progress m <= 1 ->
  (Missile.isFinished m = true <-> Missile.m_progress m == 1).
Proof.
  intros Hp. unfold Missile.isFinished. rewrite Qle_bool_iff.
  split; intros H; [now apply Qle_antisym | rewrite H; apply Qle_refl].
Qed.

Lemma web_update_bounds (dt : Q) (w : WebMissile.t) :
  webValid w -> 0 <= dt ->
  webValid (WebMissile.update dt w)
  /\ WebMissile.progress w <= WebMissile.progress (WebMissile.update dt w).
Proof.
  intros (Hd & Hp & Hf) Hdt. pose proof (Qdiv_nonneg dt _ Hdt Hd) as Hq.
  unfold WebMissile.update.
  destruct (WebMissile.finished w) eqn:F.
  - split; [|apply Qle_refl]. repeat split; try assumption; rewrite F; apply Hf.
  - destruct (Qle_bool 1 (WebMissile.progress w + dt / WebMissile.duration w)) eqn:E.
    + split; [|simpl; assumption].
      repeat split; simpl; try assumption; try lra; reflexivity.
    + apply Qle_bool_false_iff in E. split; [|simpl; lra].
      repeat split; simpl; try assumption; try lra; try discriminate.
Qed.

Lemma webMissileUpdates_valid (dts : list Q) :
  forall w, webValid w -> Forall (Qle 0) dts -> webValid (webMissileUpdates dts w).
Proof.
  induction dts as [|dt dts IH]; intros w Hv Hdts; simpl; [assumption|].
  inversion Hdts as [|? ? Hdt Hrest]; subst.
  apply IH; [|assumption]. now apply web_update_bounds.
Qed.

Lemma missile_update_Qmin (dt : Q) (m : Missile.t) :
  Missile.m_progress (Missile.update dt m)
  == Qmin 1 (Missile.m_progress m + dt / Missile.m_duration m).
Proof.
  unfold Missile.update. simpl.
  destruct (Qlt_bool 1 (Missile.m_progress m + dt / Missile.m_duration m)) eqn:E.
  - apply Qlt_bool_iff in E. symmetry. apply Q.min_l. lra.
  - apply Qlt_bool_false_iff in E. symmetry. now apply Q.min_r.
Qed.

Lemma web_update_Qmin (dt : Q) (w : WebMissile.t) :
  webValid w -> 0 <= dt ->
  WebMissile.progress (WebMissile.update dt w)
  == Qmin 1 (WebMissile.progress w + dt / WebMissile.duration w).
Proof.
  intros (Hd & Hp & Hf) Hdt. pose proof (Qdiv_nonneg dt _ Hdt Hd) as Hq.
  unfold WebMissile.update.
  destruct (WebMissile.finished w) eqn:F.
  - assert (H1 : WebMissile.progress w == 1) by now apply Hf.
    rewrite Q.min_l by lra. assumption.
  - destruct (Qle_bool 1 (WebMissile.progress w + dt / WebMissile.duration w)) eqn:E;
      simpl.
    + apply Qle_bool_iff in E. symmetry. now apply Q.min_l.
    + apply Qle_bool_false_iff in E. symmetry. apply Q.min_r. lra.
Qed.

(** C4.  Along every sequence of non-negative time steps the progress of
    a missile never decreases and never exceeds 1 ([update] adds
    [dt/duration] and clamps to 1.0), and the missile is finished if and
    only if its progress equals 1; this holds of the C++ missile and of
    the web missile, from their state at construction (progress 0) on. *)
Theorem missile_progress_monotone_clamped
        (m : Missile.t) (w : WebMissile.t) (dts : list Q) (dt : Q)
        (Hd : 0 < Missile.m_duration m)
        (Hp : Missile.m_progress m <= 1)
        (Hw : 0 < WebMissile.duration w)
        (Hwp : WebMissile.progress w <= 1)
        (Hwf : WebMissile.finished w = true <-> WebMissile.progress w == 1)
        (Hdts : Forall (Qle 0) dts) (Hdt : 0 <= dt) :
  let m' := missileUpdates dts m in
  let w' := webMissileUpdates dts w in
  (Missile.m_progress m' <= Missile.m_progress (Missile.update dt m')
   /\ Missile.m_progress (Missile.update dt m') <= 1
   /\ Missile.m_progress (Missile.update dt m')
      == Qmin 1 (Missile.m_progress m' + dt / Missile.m_duration m')
   /\ (Missile.isFinished m' = true <-> Missile.m_progress m' == 1)
   /\ (Missile.isFinished (Missile.update dt m') = true
       <-> Missile.m_progress (Missile.update dt m') == 1))
  /\ (WebMissile.progress w' <= WebMissile.progress (WebMissile.update dt w')
      /\ WebMissile.progress (WebMissile.update dt w') <= 1
      /\ WebMissile.progress (WebMissile.update dt w')
         == Qmin 1 (WebMissile.progress w' + dt / WebMissile.duration w')
      /\ (WebMissile.finished w' = true <-> WebMissile.progress w' == 1)
      /\ (WebMissile.finished (WebMissile.update dt w') = true
          <-> WebMissile.progress (WebMissile.update dt w') == 1))
  /\ (forall Inverse Position start end_ c,
         0 < Missile.m_duration (Missile.new Inverse Position start end_ c)
         /\ Missile.m_progress (Missile.new Inverse Position start end_ c) <= 1)
  /\ (forall greatCircle start target duration,
         0 < duration ->
         webValid (WebMissile.new greatCircle start target duration)).
Proof.
  intros m' w'.
  destruct (missileUpdates_valid dts m Hd Hp Hdts) as [Hd' Hp'].
  fold m' in Hd', Hp'.
  destruct (missile_update_bounds dt m' Hd' Hp' Hdt) as [Hmono Hle].
  assert (Hv' : webValid w')
    by (apply webMissileUpdates_valid; [repeat split; tauto | assumption]).
  destruct (web_update_bounds dt w' Hv' Hdt) as [(Hd2 & Hp2 & Hf2) Hwmono].
  split.
  - split; [assumption|]. split; [assumption|].
    split; [apply missile_update_Qmin|].
    split; now apply missile_isFinished_iff.
  - split.
    + split; [assumption|]. split; [assumption|].
      split; [now apply web_update_Qmin|].
      split; [apply Hv' | assumption].
    + split.
      * intros. split; [reflexivity | discriminate].
      * intros gc s t d Hpos. unfold webValid, WebMissile.new. simpl.
        split; [assumption|]. split; [discriminate|].
        split; [discriminate | intros H; discriminate H].
Qed.

Lemma missile_progress_monotone_clamped_witness :
  let m := Missile.mk [] (Common.mkPoint 0 0) Common.CYAN 0 12 in
  let w := WebMissile.mk (Common.mkLatLon 0 0) (Common.mkLatLon 0 170) 12 0
                         false false [] Common.CYAN in
  let m' := missileUpdates [6; 5] m in
  let w' := webMissileUpdates [6; 5] w in
  (Missile.m_progress m' <= Missile.m_progress (Missile.update 2 m')
   /\ Missile.m_progress (Missile.update 2 m') <= 1
   /\ Missile.m_progress (Missile.update 2 m')
      == Qmin 1 (Missile.m_progress m' + 2 / Missile.m_duration m')
   /\ (Missile.isFinished m' = true <-> Missile.m_progress m' == 1)
   /\ (Missile.isFinished (Missile.update 2 m') = true
       <-> Missile.m_progress (Missile.update 2 m') == 1))
  /\ (WebMissile.progress w' <= WebMissile.progress (WebMissile.update 2 w')
      /\ WebMissile.progress (WebMissile.update 2 w') <= 1
      /\ WebMissile.progress (WebMissile.update 2 w')
         == Qmin 1 (WebMissile.progress w' + 2 / WebMissile.duration w')
      /\ (WebMissile.finished w' = true <-> WebMissile.progress w' == 1)
      /\ (WebMissile.finished (WebMissile.update 2 w') = true
          <-> WebMissile.progress (WebMissile.update 2 w') == 1)).
Proof.
  intros m w m' w'.
  refine (let H := missile_progress_monotone_clamped m w [6; 5] 2 _ _ _ _ _ _ _ in
          conj (proj1 H) (proj1 (proj2 H))).
  - reflexivity.
  - simpl. lra.
  - reflexivity.
  - simpl. lra.
  - simpl. split; [discriminate | intros H; lra].
  - repeat constructor; lra.
  - lra.
Defined.

End MissileProgress.

(* ----------------------------------------------------------------- *)
(** ** Aircraft progress *)

Section AircraftProgress.
Import Runs.

Lemma Qmod1_range (q : Q) : 0 <= Qmod1 q /\ Qmod1 q < 1.
Proof.
  unfold Qmod1. pose proof (Qfloor_le q) as Hl. pose proof (Qlt_floor q) as Hu.
  rewrite inject_Z_plus in Hu. change (inject_Z 1) with 1 in Hu. split; lra.
Qed.

Lemma Qfloor_unit (q : Q) : 0 <= q -> q < 1 -> Qfloor q = 0%Z.
Proof.
  intros H0 H1.
  pose proof (Qfloor_resp_le 0 q H0) as Hl. change (Qfloor 0) with 0%Z in Hl.
  pose proof (Qfloor_le q) as Hf.
  assert (Hlt : inject_Z (Qfloor q) < inject_Z 1)
    by (change (inject_Z 1) with 1; lra).
  rewrite <- Zlt_Qlt in Hlt. lia.
Qed.

Lemma Qmod1_unit (q : Q) : 0 <= q -> q < 1 -> Qmod1 q == q.
Proof.
  intros H0 H1. unfold Qmod1. rewrite (Qfloor_unit q H0 H1).
  change (inject_Z 0) with 0. lra.
Qed.

(** With a positive period and a non-empty loop the guard of [update]
    does not fire. *)
Lemma aircraft_update_active (dt : Q) (c : Aircraft.t) :
  0 < Aircraft.m_duration c -> Aircraft.m_path c <> [] ->
  Aircraft.update dt c
  = let p := f32 (Aircraft.m_progress c + f32 (dt / Aircraft.m_duration c)) in
    Aircraft.mk (Aircraft.m_path c) (Aircraft.m_color c)
                (if Qle_bool 1 p then f32 (p - inject_Z (Qfloor p)) else p)
                (Aircraft.m_duration c) (Aircraft.m_trailLength c).
Proof.
  intros Hd Hpath. unfold Aircraft.update.
  destruct (Qle_bool (Aircraft.m_duration c) 0) eqn:E.
  - apply Qle_bool_iff in E. lra.
  - destruct (Aircraft.m_path c); [congruence | reflexivity].
Qed.

(** The subtraction of the floor does not round: the fractional part of
    a [float] is a [float]. *)
Lemma f32_frac (q : Q) :
  0 <= q -> f32 (f32 q - inject_Z (Qfloor (f32 q))) == Qmod1 (f32 q).
Proof.
  intros Hq. unfold Qmod1. apply roundTo_exact.
  apply frac_representable.
  - now apply roundTo_nonneg.
  - apply roundTo_representable. reflexivity.
Qed.

Lemma aircraft_update_mod1 (dt : Q) (c : Aircraft.t) :
  0 < Aircraft.m_duration c -> Aircraft.m_path c <> [] ->
  0 <= Aircraft.m_progress c -> 0 <= dt ->
  Aircraft.m_progress (Aircraft.update dt c)
  == Qmod1 (f32 (Aircraft.m_progress c + f32 (dt / Aircraft.m_duration c))).
Proof.
  intros Hd Hpath Hp Hdt. rewrite aircraft_update_active by assumption.
  pose proof (Qdiv_nonneg dt _ Hdt Hd) as Hq.
  pose proof (roundTo_nonneg 24 _ Hq) as Hq'. fold (f32 (dt / Aircraft.m_duration c)) in Hq'.
  assert (Hs : 0 <= Aircraft.m_progress c + f32 (dt / Aircraft.m_duration c)) by lra.
  pose proof (roundTo_nonneg 24 _ Hs) as Hs'.
  fold (f32 (Aircraft.m_progress c + f32 (dt / Aircraft.m_duration c))) in Hs'.
  cbn [Aircraft.m_progress].
  destruct (Qle_bool 1 (f32 (Aircraft.m_progress c
                             + f32 (dt / Aircraft.m_duration c)))) eqn:E.
  - now apply f32_frac.
  - apply Qle_bool_false_iff in E. symmetry. now apply Qmod1_unit.
Qed.

Lemma aircraftUpdates_invariant (dts : list Q) :
  forall c,
    0 < Aircraft.m_duration c -> Aircraft.m_path c <> [] ->
    0 <= Aircraft.m_progress c < 1 -> Forall (Qle 0) dts ->
    Aircraft.m_duration (aircraftUpdates dts c) = Aircraft.m_duration c
    /\ Aircraft.m_path (aircraftUpdates dts c) = Aircraft.m_path c
    /\ 0 <= Aircraft.m_progress (aircraftUpdates dts c) < 1.
Proof.
  induction dts as [|dt dts IH]; intros c Hd Hpath Hp Hdts; simpl; [auto|].
  inversion Hdts as [|? ? Hdt Hrest]; subst.
  assert (Hm := aircraft_update_mod1 dt c Hd Hpath (proj1 Hp) Hdt).
  assert (Hr := Qmod1_range (f32 (Aircraft.m_progress c
                                  + f32 (dt / Aircraft.m_duration c)))).
  rewrite <- Hm in Hr.
  assert (Ed : Aircraft.m_duration (Aircraft.update dt c) = Aircraft.m_duration c)
    by (rewrite aircraft_update_active by assumption; reflexivity).
  assert (Ep : Aircraft.m_path (Aircraft.update dt c) = Aircraft.m_path c)
    by (rewrite aircraft_update_active by assumption; reflexivity).
  destruct (IH (Aircraft.update dt c)) as (H1 & H2 & H3);
    try assumption; try congruence.
  repeat split; try congruence; apply H3.
Qed.

(** C6 (amended).  The aircraft update is cyclic and has no terminal
    state: with a positive period and a time step [dt >= 0],
    [update(dt)] sets the progress to [s mod 1.0], where [s] is the sum
    [progress + dt/period] as the code computes it in [float]; when the
    quotient and the sum are themselves [float] values this is
    [(progress + dt/period) mod 1.0].  The update leaves period and loop
    untouched, so that the next update applies again, and the progress
    stays in [0,1) along every sequence of updates.  With a period of 30
    seconds and progress 0, [update(15)] gives progress 0.5 and a second
    [update(15)] wraps it to 0. *)
Theorem aircraft_progress_cyclic
        (c : Aircraft.t) (dts : list Q) (dt : Q)
        (Hd : 0 < Aircraft.m_duration c)
        (Hpath : Aircraft.m_path c <> [])
        (Hp : 0 <= Aircraft.m_progress c < 1)
        (Hdts : Forall (Qle 0) dts) (Hdt : 0 <= dt) :
  let c' := aircraftUpdates dts c in
  (0 <= Aircraft.m_progress c' < 1)
  /\ Aircraft.m_progress (Aircraft.update dt c')
     == Qmod1 (f32 (Aircraft.m_progress c' + f32 (dt / Aircraft.m_duration c')))
  /\ (f32 (dt / Aircraft.m_duration c') == dt / Aircraft.m_duration c' ->
      f32 (Aircraft.m_progress c' + dt / Aircraft.m_duration c')
      == Aircraft.m_progress c' + dt / Aircraft.m_duration c' ->
      Aircraft.m_progress (Aircraft.update dt c')
      == Qmod1 (Aircraft.m_progress c' + dt / Aircraft.m_duration c'))
  /\ (0 <= Aircraft.m_progress (Aircraft.update dt c') < 1)
  /\ Aircraft.m_duration (Aircraft.update dt c') = Aircraft.m_duration c
  /\ Aircraft.m_path (Aircraft.update dt c') = Aircraft.m_path c
  /\ (forall a0 : Aircraft.t,
         Aircraft.m_duration a0 = 30 -> Aircraft.m_progress a0 = 0 ->
         Aircraft.m_path a0 <> [] ->
         Aircraft.m_progress (Aircraft.update 15 a0) == 5 # 10
         /\ Aircraft.m_progress (Aircraft.update 15 (Aircraft.update 15 a0)) == 0).
Proof.
  intros c'.
  destruct (aircraftUpdates_invariant dts c Hd Hpath Hp Hdts) as (Ed & Ep & Hr).
  fold c' in Ed, Ep, Hr.
  assert (Hd' : 0 < Aircraft.m_duration c') by congruence.
  assert (Hpath' : Aircraft.m_path c' <> []) by congruence.
  assert (Hone : Forall (Qle 0) [dt]) by (repeat constructor; assumption).
  destruct (aircraftUpdates_invariant [dt] c' Hd' Hpath' Hr Hone) as (Ed1 & Ep1 & Hr1).
  simpl in Ed1, Ep1, Hr1.
  assert (Hm := aircraft_update_mod1 dt c' Hd' Hpath' (proj1 Hr) Hdt).
  split; [assumption|]. split; [exact Hm|]. split.
  { intros Eq Es. rewrite Hm.
    assert (E1 : Aircraft.m_progress c' + f32 (dt / Aircraft.m_duration c')
                 == Aircraft.m_progress c' + dt / Aircraft.m_duration c')
      by (rewrite Eq; reflexivity).
    assert (E2 : f32 (Aircraft.m_progress c' + f32 (dt / Aircraft.m_duration c'))
                 = f32 (Aircraft.m_progress c' + dt / Aircraft.m_duration c'))
      by (apply roundTo_comp; exact E1).
    rewrite E2. unfold Qmod1. rewrite (Qfloor_comp _ _ Es), Es. reflexivity. }
  split; [assumption|]. split; [congruence|]. split; [congruence|].
  intros a0 E30 E0 Hne.
  assert (H30 : 0 < Aircraft.m_duration a0) by (rewrite E30; reflexivity).
  assert (U1 : Aircraft.m_progress (Aircraft.update 15 a0) = 1 # 2).
  { rewrite aircraft_update_active by assumption.
    cbn [Aircraft.m_progress]. rewrite E30, E0. vm_compute. reflexivity. }
  split; [rewrite U1; reflexivity|].
  assert (D1 : Aircraft.m_duration (Aircraft.update 15 a0) = 30).
  { rewrite aircraft_update_active by assumption. exact E30. }
  assert (P1 : Aircraft.m_path (Aircraft.update 15 a0) <> []).
  { rewrite aircraft_update_active by assumption. exact Hne. }
  rewrite aircraft_update_active by (rewrite ?D1; [reflexivity || assumption ..]).
  cbn [Aircraft.m_progress]. rewrite D1, U1. vm_compute. reflexivity.
Qed.

Lemma aircraft_progress_cyclic_witness :
  let c := Aircraft.mk [Common.mkPoint 960 540] Common.DIM_CYAN 0 30 18 in
  let c' := aircraftUpdates [15; 15; 10] c in
  (0 <= Aircraft.m_progress c' < 1)
  /\ Aircraft.m_progress (Aircraft.update 25 c')
     == Qmod1 (f32 (Aircraft.m_progress c' + f32 (25 / Aircraft.m_duration c')))
  /\ (0 <= Aircraft.m_progress (Aircraft.update 25 c') < 1)
  /\ Aircraft.m_duration (Aircraft.update 25 c') = Aircraft.m_duration c
  /\ Aircraft.m_path (Aircraft.update 25 c') = Aircraft.m_path c.
Proof.
  intros c c'.
  assert (Hd : 0 < Aircraft.m_duration c) by reflexivity.
  assert (Hpath : Aircraft.m_path c <> []) by discriminate.
  assert (Hp : 0 <= Aircraft.m_progress c < 1) by (simpl; lra).
  assert (Hdts : Forall (Qle 0) [15; 15; 10]) by (repeat constructor; lra).
  assert (Hdt : 0 <= 25) by lra.
  destruct (aircraft_progress_cyclic c [15; 15; 10] 25 Hd Hpath Hp Hdts Hdt)
    as (H1 & H2 & _ & H4 & H5 & H6 & _).
  repeat split; assumption.
Defined.

(** C6 as written fails for a negative time step: the wrap is applied
    only when the progress has reached 1, so [update(-6)] with a period of
    30 seconds takes the progress from 0 to the [float] nearest to -0.2,
    outside [0, 1) and not [(0 - 6/30) mod 1.0 = 0.8].  It also fails
    where the [float] sum rounds up to 1: with progress 0.5 and the
    [float] time step [15 - 2^-20] the sum is computed as 1.0 and the
    progress wraps to 0, whereas [(0.5 + dt/30) mod 1.0] is just below
    1. *)
Lemma aircraft_progress_counterexample :
  let c := Aircraft.mk [Common.mkPoint 960 540] Common.DIM_CYAN 0 30 18 in
  let half := Aircraft.mk [Common.mkPoint 960 540] Common.DIM_CYAN (1 # 2) 30 18 in
  let dt := 15 - (1 # 1048576) in
  (Aircraft.m_progress (Aircraft.update (-6) c) == f32 (- (1 # 5))
   /\ Aircraft.m_progress (Aircraft.update (-6) c) < 0
   /\ Qmod1 (Aircraft.m_progress c + (-6) / Aircraft.m_duration c) == 4 # 5
   /\ ~ Aircraft.m_progress (Aircraft.update (-6) c)
        == Qmod1 (Aircraft.m_progress c + (-6) / Aircraft.m_duration c))
  /\ (f32 dt == dt
      /\ Aircraft.m_progress (Aircraft.update dt half) == 0
      /\ Qmod1 (Aircraft.m_progress half + dt / Aircraft.m_duration half)
         == 31457279 # 31457280
      /\ ~ Aircraft.m_progress (Aircraft.update dt half)
           == Qmod1 (Aircraft.m_progress half + dt / Aircraft.m_duration half)).
Proof.
  vm_compute. repeat split; congruence.
Qed.

End AircraftProgress.

(* ----------------------------------------------------------------- *)
(** ** Geodesic path sampling *)

Section PathSampling.
Import Common Geodesy.

Variable Inverse : Q -> Q -> Q -> Q -> Q * Q * Q.
Variable Position : Q -> Q -> Q -> Q -> Q * Q.




End PathSampling.

Section PathSamplingExamples.
Import Common Geodesy.



End PathSamplingExamples.

(* ----------------------------------------------------------------- *)
(** ** The finished-to-explosion handoff *)

Section MissileHandoff.
Import Common Handoff.


(** *** C++ loop *)

(** Closed form of the missile loop: every missile is updated, and one
    explosion is pushed, in order, for each missile that is finished
    after its update. *)
Lemma updateMissiles_closed (dt : Q) (ms : list Missile.t) :
  forall exs,
    Main.updateMissiles dt ms exs
    = (map (Missile.update dt) ms,
       exs ++ map impactOf (filter Missile.isFinished (map (Missile.update dt) ms))).
Proof.
  induction ms as [|m ms IH]; intros exs; simpl.
  - now rewrite app_nil_r.
  - rewrite IH. destruct (Missile.isFinished (Missile.update dt m)); simpl.
    + now rewrite <- app_assoc.
    + reflexivity.
Qed.


Lemma spawnedIn_count (dt : Q) (launched : list Missile.t) (w : Main.World) :
  Main.spawnedIn dt launched w
  = length (filter Missile.isFinished
                   (map (Missile.update dt) (Main.missiles w ++ launched))).
Proof.
  unfold Main.spawnedIn. rewrite updateMissiles_closed. simpl.
  rewrite length_app, length_map. lia.
Qed.





Lemma missile_update_le_1 (dt : Q) (m : Missile.t) :
  Missile.m_progress (Missile.update dt m) <= 1.
Proof.
  unfold Missile.update. simpl.
  destruct (Qlt_bool 1 (Missile.m_progress m + dt / Missile.m_duration m)) eqn:E.
  - apply Qle_refl.
  - now apply Qlt_bool_false_iff in E.
Qed.

Lemma nth_last (l : list Point) (d : Point) :
  nth (length l - 1) l d = last l d.
Proof.
  induction l as [|p l IH]; [reflexivity|].
  destruct l as [|q l]; [reflexivity|].
  change (last (p :: q :: l) d) with (last (q :: l) d). rewrite <- IH.
  simpl length. replace (S (S (length l)) - 1)%nat with (S (length l)) by lia.
  replace (S (length l) - 1)%nat with (length l) by lia.
  reflexivity.
Qed.

(** A missile that is finished after its update sits on the last point
    of its path. *)
Lemma finished_at_terminal (dt : Q) (m : Missile.t) :
  Missile.isFinished (Missile.update dt m) = true ->
  Missile.m_path m <> [] ->
  Missile.getPosition (Missile.update dt m) = terminalPoint m.
Proof.
  intros Hf Hne. unfold terminalPoint.
  assert (H1 : Missile.m_progress (Missile.update dt m) == 1).
  { apply Qle_antisym; [apply missile_update_le_1|].
    now apply Qle_bool_iff in Hf. }
  unfold Missile.getPosition.
  change (Missile.m_path (Missile.update dt m)) with (Missile.m_path m).
  destruct (Missile.m_path m) as [|p l] eqn:P; [congruence|].
  set (size := Z.of_nat (length (p :: l))).
  assert (Hs : (1 <= size)%Z) by (unfold size; simpl length; lia).
  assert (Hq : Missile.m_progress (Missile.update dt m) * inject_Z (size - 1)
               == inject_Z (size - 1)) by (rewrite H1; ring).
  assert (Ht : Qtrunc (Missile.m_progress (Missile.update dt m) * inject_Z (size - 1))
               = (size - 1)%Z).
  { unfold Qtrunc.
    assert (Hn : 0 <= Missile.m_progress (Missile.update dt m) * inject_Z (size - 1)).
    { rewrite Hq. change 0 with (inject_Z 0). rewrite <- Zle_Qle. lia. }
    apply Qle_bool_iff in Hn. rewrite Hn, Hq. apply Qfloor_Z. }
  rewrite Ht.
  replace ((size - 1 <? 0)%Z || (size <=? size - 1)%Z) with false
    by (symmetry; apply orb_false_iff; split; [apply Z.ltb_ge | apply Z.leb_gt]; lia).
  replace (Z.to_nat (size - 1)) with (length (p :: l) - 1)%nat by (unfold size; lia).
  apply nth_last.
Qed.

(** *** Web loop *)









(** *** The explosion collections after a frame and after a web update *)


Lemma frame_explosions (dt : Q) (launched : list Missile.t) (w : Main.World) :
  Main.explosions (Main.frame dt launched w)
  = Main.removeFinishedExplosions
      (map (Explosion.update dt)
           (Main.explosions w
            ++ map impactOf
                   (filter Missile.isFinished
                           (map (Missile.update dt) (Main.missiles w ++ launched))))).
Proof.
  unfold Main.frame. rewrite updateMissiles_closed. reflexivity.
Qed.






End MissileHandoff.

(* ----------------------------------------------------------------- *)
(** ** Composite pass *)

Section CompositePass.
Import Composite CompositeClaim.

(** C8 (amended).  For every pixel the composite pass computes, on the
    red, green and blue channels,
    [((scene + bloom*bloomIntensity) * mix(1, scanline, 0.5) * vignette
      + noise(uv,time)*noiseIntensity) * flicker]
    with [flicker = 1 + sin(t*120)*flickerIntensity
                      + 0.5*sin(t*67)*flickerIntensity];
    the scanline texture enters at half strength,
    [mix(1, scanline, 0.5) = (1 + scanline)/2]; the alpha channel is
    [(scene + bloom*bloomIntensity) * mix(1, scanline, 0.5) * vignette],
    without noise and flicker. *)
Theorem composite_formula :
  forall (sin : Q -> Q)
         (screenTexture bloomTexture scanlineTexture vignetteTexture : sampler2D)
         (noiseIntensity bloomIntensity flickerIntensity time : Q)
         (TexCoord : vec2),
    let out := main sin screenTexture bloomTexture scanlineTexture vignetteTexture
                    noiseIntensity bloomIntensity flickerIntensity time TexCoord in
    let sceneColor := screenTexture TexCoord in
    let bloomColor := bloomTexture TexCoord in
    let scanline := scanlineTexture TexCoord in
    let vignetteMask := vignetteTexture TexCoord in
    let noise := rand sin (mkVec2 (u TexCoord + time) (v TexCoord + time)) in
    let flicker := 1 + sin (time * 120) * flickerIntensity
                   + (5 # 10) * sin (time * 67) * flickerIntensity in
    let lit (f : vec4 -> Q) :=
      (f sceneColor + f bloomColor * bloomIntensity)
      * mix 1 (f scanline) (5 # 10) * f vignetteMask in
    cr out == (lit cr + noise * noiseIntensity) * flicker
    /\ cg out == (lit cg + noise * noiseIntensity) * flicker
    /\ cb out == (lit cb + noise * noiseIntensity) * flicker
    /\ ca out == lit ca
    /\ (forall s : Q, mix 1 s (5 # 10) == (1 + s) / 2).
Proof.
  intros sin screenTexture bloomTexture scanlineTexture vignetteTexture
         noiseIntensity bloomIntensity flickerIntensity time TexCoord.
  cbv zeta. unfold main, mix. simpl.
  split; [ring|]. split; [ring|]. split; [ring|]. split; [ring|].
  intros s. field.
Qed.

(** C8 as written fails.  On a darkened scanline row (texture value
    200/255), with bloom, noise and flicker switched off, the pass
    multiplies the scene by [(1 + 200/255)/2], not by [200/255]; and with
    noise switched on the alpha channel does not receive it. *)
Lemma composite_counterexample :
  let scene : sampler2D := fun _ => mkVec4 (1 # 2) (1 # 2) (1 # 2) 1 in
  let black : sampler2D := fun _ => mkVec4 0 0 0 0 in
  let dark : sampler2D := fun _ => mkVec4 (200 # 255) (200 # 255) (200 # 255) 1 in
  let white : sampler2D := fun _ => mkVec4 1 1 1 1 in
  let still : Q -> Q := fun _ => 0 in
  let quarter : Q -> Q := fun _ => 1 # 4 in
  let uv := mkVec2 (1 # 2) (1 # 2) in
  ~ cr (main still scene black dark white 0 0 0 0 uv)
    == cr (claimed still scene black dark white 0 0 0 0 uv)
  /\ ~ ca (main quarter scene black white white (1 # 10) 0 0 0 uv)
       == ca (claimed quarter scene black white white (1 # 10) 0 0 0 uv).
Proof.
  split; vm_compute; discriminate.
Qed.

End CompositePass.

(* ================================================================= *)
(** * Further properties of the code *)

(* ----------------------------------------------------------------- *)
(** ** Viewports and culling *)

Section Viewports.
Import Common Utils UtilsMore.


Lemma andb4_true (a b c d : bool) :
  a && b && c && d = true <-> (a = true /\ b = true) /\ (c = true /\ d = true).
Proof.
  rewrite !andb_true_iff. tauto.
Qed.


(** X3.  The culling test of the map renderer never rejects a visible
    coordinate: whatever passes [isInViewport] passes
    [isRoughlyInViewport]. *)
Theorem culling_keeps_visible_points :
  forall (lo la : Q) (viewport : option Viewport),
    isInViewport lo la viewport = true ->
    isRoughlyInViewport lo la viewport = true.
Proof.
  intros lo la [vp|]; [|reflexivity].
  unfold isInViewport, isRoughlyInViewport.
  rewrite !andb4_true, !Qle_bool_iff.
  intros [[H1 H2] [H3 H4]]. repeat split; lra.
Qed.

Lemma culling_keeps_visible_points_witness :
  isInViewport (-74) 40 (Some (mkViewport (-100) 40 2)) = true
  /\ isRoughlyInViewport (-74) 40 (Some (mkViewport (-100) 40 2)) = true.
Proof.
  assert (H : isInViewport (-74) 40 (Some (mkViewport (-100) 40 2)) = true)
    by reflexivity.
  split; [exact H|].
  exact (culling_keeps_visible_points (-74) 40 _ H).
Defined.

End Viewports.

(* ----------------------------------------------------------------- *)
(** ** Visibility and projection on doubles *)

Section ViewportEdges.
Import Common Utils.

(** Bounds of a rounded value. *)
Lemma f64_bounds (q : Q) :
  q - (1 # 9007199254740992) * Qabs q <= f64 q
  /\ f64 q <= q + (1 # 9007199254740992) * Qabs q.
Proof.
  pose proof (roundTo_error 53 q) as H. fold (f64 q) in H.
  change (pow2 (- (53))) with (1 # 9007199254740992) in H.
  apply Qabs_Qle_condition in H. split; lra.
Qed.

Lemma f64_pos_bounds (q : Q) :
  0 <= q ->
  q * (1 - (1 # 9007199254740992)) <= f64 q
  /\ f64 q <= q * (1 + (1 # 9007199254740992)).
Proof.
  intros H. pose proof (f64_bounds q) as B. rewrite Qabs_pos in B by assumption.
  split; lra.
Qed.

Lemma f64_neg_bounds (q : Q) :
  q <= 0 ->
  q * (1 + (1 # 9007199254740992)) <= f64 q
  /\ f64 q <= q * (1 - (1 # 9007199254740992)).
Proof.
  intros H. pose proof (f64_bounds q) as B. rewrite Qabs_neg in B by assumption.
  split; lra.
Qed.

(** The half range that [lonLatToXY] divides by, for a visible span
    [full / z], is the real half range [H = full / 2 / z] up to two
    roundings. *)
Lemma halfRange_bounds (full z H : Q) :
  0 < z -> 0 < full -> H == full / 2 / z ->
  H * (1 - (1 # 2251799813685248)) <= f64 (f64 (full / z) / 2)
  /\ f64 (f64 (full / z) / 2) <= H * (1 + (1 # 2251799813685248)).
Proof.
  intros Hz Hh EH.
  assert (HH : 0 < H).
  { rewrite EH. apply Qlt_shift_div_l; [assumption|].
    assert (E0 : 0 * z == 0) by ring. rewrite E0.
    apply Qlt_shift_div_l; lra. }
  assert (E : full / z == 2 * H) by (rewrite EH; field; lra).
  assert (Hq : 0 <= full / z) by (rewrite E; lra).
  destruct (f64_pos_bounds _ Hq) as [A1 A2].
  set (q := full / z) in *. set (a := f64 q) in *. clearbody a. clearbody q.
  assert (Ha0 : 0 <= a) by lra.
  assert (Eh : a / 2 == a * (1 # 2)) by field.
  assert (Ha : 0 <= a / 2) by lra.
  destruct (f64_pos_bounds _ Ha) as [B1 B2].
  set (h := a / 2) in *. set (b := f64 h) in *. clearbody b. clearbody h.
  split; lra.
Qed.

(** The normalised coordinate of [lonLatToXY], [relLon / (viewRangeX / 2)],
    for a coordinate [v], a centre [c] and the half range [H]. *)
Lemma norm_inside (full z c v H : Q) :
  0 < z -> 0 < full -> H == full / 2 / z ->
  Qabs (v - c) <= (1 - (1 # 1073741824)) * H ->
  Qabs (f64 (f64 (v - c) / f64 (f64 (full / z) / 2)))
  <= 1 - (1 # 2147483648).
Proof.
  intros Hz Hf EH Hin.
  destruct (halfRange_bounds full z H Hz Hf EH) as [R1 R2].
  assert (HH : 0 < H).
  { rewrite EH. apply Qlt_shift_div_l; [assumption|].
    assert (E0 : 0 * z == 0) by ring. rewrite E0.
    apply Qlt_shift_div_l; lra. }
  set (hr := f64 (f64 (full / z) / 2)) in *. clearbody hr.
  pose proof (f64_bounds (v - c)) as [B1 B2].
  apply Qabs_Qle_condition in Hin as Hin'.
  set (R := v - c) in *. set (rel := f64 R) in *. clearbody rel.
  set (aR := Qabs R) in *. clearbody aR. clearbody R.
  assert (Hpos : 0 < hr) by lra.
  assert (Hn0 : - (1 - (3 # 4294967296)) <= rel / hr
                /\ rel / hr <= 1 - (3 # 4294967296)).
  { split.
    - apply Qle_shift_div_l; [assumption|]. lra.
    - apply Qle_shift_div_r; [assumption|]. lra. }
  set (n0 := rel / hr) in *. clearbody n0.
  pose proof (f64_bounds n0) as [N1 N2].
  assert (Ha : Qabs n0 <= 1 - (3 # 4294967296))
    by (apply Qabs_Qle_condition; split; lra).
  set (an := Qabs n0) in *. clearbody an.
  apply Qabs_Qle_condition. split; lra.
Qed.

Lemma norm_above (full z c v H : Q) :
  0 < z -> 0 < full -> H == full / 2 / z ->
  (1 + (1 # 1073741824)) * H <= v - c ->
  1 + (1 # 2147483648) <= f64 (f64 (v - c) / f64 (f64 (full / z) / 2)).
Proof.
  intros Hz Hf EH Hout.
  destruct (halfRange_bounds full z H Hz Hf EH) as [R1 R2].
  assert (HH : 0 < H).
  { rewrite EH. apply Qlt_shift_div_l; [assumption|].
    assert (E0 : 0 * z == 0) by ring. rewrite E0.
    apply Qlt_shift_div_l; lra. }
  set (hr := f64 (f64 (full / z) / 2)) in *. clearbody hr.
  assert (HR : 0 <= v - c) by lra.
  pose proof (f64_pos_bounds (v - c) HR) as [B1 B2].
  set (R := v - c) in *. set (rel := f64 R) in *. clearbody rel. clearbody R.
  assert (Hpos : 0 < hr) by lra.
  assert (Hn0 : 1 + (3 # 4294967296) <= rel / hr).
  { apply Qle_shift_div_l; [assumption|]. lra. }
  set (n0 := rel / hr) in *. clearbody n0.
  assert (Hn0' : 0 <= n0) by lra.
  pose proof (f64_pos_bounds n0 Hn0') as [N1 N2]. lra.
Qed.

Lemma norm_below (full z c v H : Q) :
  0 < z -> 0 < full -> H == full / 2 / z ->
  v - c <= - ((1 + (1 # 1073741824)) * H) ->
  f64 (f64 (v - c) / f64 (f64 (full / z) / 2)) <= - (1 + (1 # 2147483648)).
Proof.
  intros Hz Hf EH Hout.
  destruct (halfRange_bounds full z H Hz Hf EH) as [R1 R2].
  assert (HH : 0 < H).
  { rewrite EH. apply Qlt_shift_div_l; [assumption|].
    assert (E0 : 0 * z == 0) by ring. rewrite E0.
    apply Qlt_shift_div_l; lra. }
  set (hr := f64 (f64 (full / z) / 2)) in *. clearbody hr.
  assert (HR : v - c <= 0) by lra.
  pose proof (f64_neg_bounds (v - c) HR) as [B1 B2].
  set (R := v - c) in *. set (rel := f64 R) in *. clearbody rel. clearbody R.
  assert (Hpos : 0 < hr) by lra.
  assert (Hn0 : rel / hr <= - (1 + (3 # 4294967296))).
  { apply Qle_shift_div_r; [assumption|]. lra. }
  set (n0 := rel / hr) in *. clearbody n0.
  assert (Hn0' : n0 <= 0) by lra.
  pose proof (f64_neg_bounds n0 Hn0') as [N1 N2]. lra.
Qed.

(** The screen coordinate [((n + 1) / 2) * W] and its mirror image
    [((1 - n) / 2) * W] for a normalised coordinate [n]. *)
Lemma screen_of_unit (t W : Q) :
  (1 # 2147483648) <= t -> t <= 2 - (1 # 2147483648) -> 0 < W ->
  0 <= f64 (f64 (f64 t / 2) * W) /\ f64 (f64 (f64 t / 2) * W) <= W.
Proof.
  intros Ht0 Ht1 HW.
  assert (Ht : 0 <= t) by lra.
  pose proof (f64_pos_bounds t Ht) as [A1 A2].
  set (a := f64 t) in *. clearbody a.
  assert (Eh : a / 2 == a * (1 # 2)) by field.
  assert (Ha : 0 <= a / 2) by lra.
  pose proof (f64_pos_bounds _ Ha) as [B1 B2].
  set (h := a / 2) in *. set (b := f64 h) in *. clearbody b. clearbody h.
  assert (Hb0 : 0 <= b) by lra.
  assert (Hb1 : b <= 1 - (1 # 8589934592)) by lra.
  assert (Hp0 : 0 <= b * W) by (apply Qmult_le_0_compat; lra).
  assert (Hp1 : b * W <= (1 - (1 # 8589934592)) * W)
    by (apply Qmult_le_compat_r; lra).
  pose proof (f64_pos_bounds _ Hp0) as [C1 C2].
  set (p := b * W) in *. set (r := f64 p) in *. clearbody r. clearbody p.
  split; lra.
Qed.

Lemma screen_of_large (t W : Q) :
  2 + (1 # 2147483648) <= t -> 0 < W -> W < f64 (f64 (f64 t / 2) * W).
Proof.
  intros Ht HW.
  assert (Ht0 : 0 <= t) by lra.
  pose proof (f64_pos_bounds t Ht0) as [A1 A2].
  set (a := f64 t) in *. clearbody a.
  assert (Eh : a / 2 == a * (1 # 2)) by field.
  assert (Ha : 0 <= a / 2) by lra.
  pose proof (f64_pos_bounds _ Ha) as [B1 B2].
  set (h := a / 2) in *. set (b := f64 h) in *. clearbody b. clearbody h.
  assert (Hb1 : 1 + (1 # 8589934592) <= b) by lra.
  assert (Hp1 : (1 + (1 # 8589934592)) * W <= b * W)
    by (apply Qmult_le_compat_r; lra).
  assert (Hp0 : 0 <= b * W) by lra.
  pose proof (f64_pos_bounds _ Hp0) as [C1 C2].
  set (p := b * W) in *. set (r := f64 p) in *. clearbody r. clearbody p.
  lra.
Qed.

Lemma screen_of_negative (t W : Q) :
  t <= - (1 # 2147483648) -> 0 < W -> f64 (f64 (f64 t / 2) * W) < 0.
Proof.
  intros Ht HW.
  assert (Ht0 : t <= 0) by lra.
  pose proof (f64_neg_bounds t Ht0) as [A1 A2].
  set (a := f64 t) in *. clearbody a.
  assert (Eh : a / 2 == a * (1 # 2)) by field.
  assert (Ha : a / 2 <= 0) by lra.
  pose proof (f64_neg_bounds _ Ha) as [B1 B2].
  set (h := a / 2) in *. set (b := f64 h) in *. clearbody b. clearbody h.
  assert (Hb1 : b <= - (1 # 8589934592)) by lra.
  assert (Hp1 : b * W <= - (1 # 8589934592) * W)
    by (apply Qmult_le_compat_r; lra).
  assert (Hp0 : b * W <= 0) by lra.
  pose proof (f64_neg_bounds _ Hp0) as [C1 C2].
  set (p := b * W) in *. set (r := f64 p) in *. clearbody r. clearbody p.
  lra.
Qed.

(** The two bounds that [isInViewport] compares a coordinate with. *)
Lemma viewport_bounds (half z c H : Q) :
  0 < z -> 0 < half -> H == half / z -> Qabs c <= 4194304 * H ->
  (c - (1 + (3 # 4294967296)) * H <= f64 (c - f64 (half / z))
   /\ f64 (c - f64 (half / z)) <= c - (1 - (3 # 4294967296)) * H)
  /\ (c + (1 - (3 # 4294967296)) * H <= f64 (c + f64 (half / z))
      /\ f64 (c + f64 (half / z)) <= c + (1 + (3 # 4294967296)) * H).
Proof.
  intros Hz Hh EH Hc.
  assert (HH : 0 < H).
  { rewrite EH. apply Qlt_shift_div_l; lra. }
  assert (Hq : 0 <= half / z) by (rewrite <- EH; lra).
  pose proof (f64_pos_bounds _ Hq) as [A1 A2].
  set (q := half / z) in *. set (w := f64 q) in *. clearbody w. clearbody q.
  pose proof (f64_bounds (c - w)) as [L1 L2].
  pose proof (f64_bounds (c + w)) as [U1 U2].
  assert (Hc' := Hc). apply Qabs_Qle_condition in Hc'.
  assert (Hl : Qabs (c - w) <= 4194306 * H) by (apply Qabs_Qle_condition; split; lra).
  assert (Hu : Qabs (c + w) <= 4194306 * H) by (apply Qabs_Qle_condition; split; lra).
  set (al := Qabs (c - w)) in *. set (au := Qabs (c + w)) in *.
  set (lower := f64 (c - w)) in *. set (upper := f64 (c + w)) in *.
  clearbody al au lower upper.
  repeat split; lra.
Qed.

Lemma zoomOr1_pos (z : Q) : 0 < z -> zoomOr1 z = z.
Proof.
  intros H. unfold zoomOr1. destruct (Qeq_bool z 0) eqn:E; [|reflexivity].
  apply Qeq_bool_iff in E. lra.
Qed.

Lemma Qabs_cases (q b : Q) : b <= Qabs q -> b <= q \/ q <= - b.
Proof.
  intros H. destruct (Qlt_le_dec q 0) as [Hn|Hp].
  - right. rewrite Qabs_neg in H by lra. lra.
  - left. rewrite Qabs_pos in H by assumption. assumption.
Qed.

(** X1.  Away from the edge of the viewport the visibility test and the
    projection agree.  For a viewport with a positive zoom (and a centre
    of at most [2^22] half extents) on a canvas of positive integer size,
    as the two functions are evaluated on [double]s: a coordinate within
    [1 - 2^-30] of the half extents from the centre, in longitude and in
    latitude, passes [isInViewport] and [lonLatToXY] places it on the
    canvas, in [0, width] x [0, height]; a coordinate at least
    [1 + 2^-30] half extents from the centre, in longitude or in
    latitude, fails [isInViewport] and [lonLatToXY] places it off the
    canvas.  Without a viewport [isInViewport] is always true. *)
Theorem viewport_visibility_is_on_canvas
        (vp : Viewport) (lo la : Q) (w h : Z)
        (Hzoom : 0 < zoom vp) (Hw : (0 < w)%Z) (Hh : (0 < h)%Z)
        (Hlon : Qabs (centerLon vp) * zoom vp <= 4194304 * 180)
        (Hlat : Qabs (centerLat vp) * zoom vp <= 4194304 * 90) :
  let halfWidth := 180 / zoom vp in
  let halfHeight := 90 / zoom vp in
  let p := lonLatToXY64 lo la (inject_Z w) (inject_Z h) (Some vp) in
  (Qabs (lo - centerLon vp) <= (1 - (1 # 1073741824)) * halfWidth ->
   Qabs (la - centerLat vp) <= (1 - (1 # 1073741824)) * halfHeight ->
   isInViewport64 lo la (Some vp) = true
   /\ 0 <= x p <= inject_Z w /\ 0 <= y p <= inject_Z h)
  /\ ((1 + (1 # 1073741824)) * halfWidth <= Qabs (lo - centerLon vp) ->
      isInViewport64 lo la (Some vp) = false
      /\ ~ 0 <= x p <= inject_Z w)
  /\ ((1 + (1 # 1073741824)) * halfHeight <= Qabs (la - centerLat vp) ->
      isInViewport64 lo la (Some vp) = false
      /\ ~ 0 <= y p <= inject_Z h)
  /\ isInViewport64 lo la None = true.
Proof.
  intros halfWidth halfHeight p.
  assert (HW : 0 < inject_Z w) by (change 0 with (inject_Z 0); now rewrite <- Zlt_Qlt).
  assert (HH : 0 < inject_Z h) by (change 0 with (inject_Z 0); now rewrite <- Zlt_Qlt).
  assert (Ex : halfWidth == 360 / 2 / zoom vp) by (unfold halfWidth; field; lra).
  assert (Ey : halfHeight == 180 / 2 / zoom vp) by (unfold halfHeight; field; lra).
  assert (Pw : 0 < halfWidth) by (apply Qlt_shift_div_l; lra).
  assert (Ph : 0 < halfHeight) by (apply Qlt_shift_div_l; lra).
  assert (Cx : Qabs (centerLon vp) <= 4194304 * halfWidth).
  { unfold halfWidth.
    assert (E : 4194304 * (180 / zoom vp) == 4194304 * 180 / zoom vp)
      by (field; lra).
    rewrite E. apply Qle_shift_div_l; assumption. }
  assert (Cy : Qabs (centerLat vp) <= 4194304 * halfHeight).
  { unfold halfHeight.
    assert (E : 4194304 * (90 / zoom vp) == 4194304 * 90 / zoom vp)
      by (field; lra).
    rewrite E. apply Qle_shift_div_l; assumption. }
  destruct (viewport_bounds 180 (zoom vp) (centerLon vp) halfWidth Hzoom
                            ltac:(reflexivity) ltac:(reflexivity) Cx)
    as [[Lx1 Lx2] [Ux1 Ux2]].
  destruct (viewport_bounds 90 (zoom vp) (centerLat vp) halfHeight Hzoom
                            ltac:(reflexivity) ltac:(reflexivity) Cy)
    as [[Ly1 Ly2] [Uy1 Uy2]].
  pose proof (norm_inside 360 (zoom vp) (centerLon vp) lo halfWidth Hzoom
                          ltac:(reflexivity) Ex) as Nxi.
  pose proof (norm_above 360 (zoom vp) (centerLon vp) lo halfWidth Hzoom
                         ltac:(reflexivity) Ex) as Nxa.
  pose proof (norm_below 360 (zoom vp) (centerLon vp) lo halfWidth Hzoom
                         ltac:(reflexivity) Ex) as Nxb.
  pose proof (norm_inside 180 (zoom vp) (centerLat vp) la halfHeight Hzoom
                          ltac:(reflexivity) Ey) as Nyi.
  pose proof (norm_above 180 (zoom vp) (centerLat vp) la halfHeight Hzoom
                         ltac:(reflexivity) Ey) as Nya.
  pose proof (norm_below 180 (zoom vp) (centerLat vp) la halfHeight Hzoom
                         ltac:(reflexivity) Ey) as Nyb.
  unfold p, isInViewport64, lonLatToXY64. rewrite (zoomOr1_pos _ Hzoom).
  cbn [x y].
  set (nx := f64 (f64 (lo - centerLon vp) / f64 (f64 (360 / zoom vp) / 2))) in *.
  set (ny := f64 (f64 (la - centerLat vp) / f64 (f64 (180 / zoom vp) / 2))) in *.
  set (lowerX := f64 (centerLon vp - f64 (180 / zoom vp))) in *.
  set (upperX := f64 (centerLon vp + f64 (180 / zoom vp))) in *.
  set (lowerY := f64 (centerLat vp - f64 (90 / zoom vp))) in *.
  set (upperY := f64 (centerLat vp + f64 (90 / zoom vp))) in *.
  clearbody nx ny lowerX upperX lowerY upperY.
  split; [|split; [|split; [|reflexivity]]].
  - intros Hx Hy.
    specialize (Nxi Hx). specialize (Nyi Hy).
    apply Qabs_Qle_condition in Hx, Hy, Nxi, Nyi.
    split.
    + rewrite !andb_true_iff, !Qle_bool_iff. repeat split; lra.
    + split.
      * apply screen_of_unit; [lra | lra | assumption].
      * apply screen_of_unit; [lra | lra | assumption].
  - intros Hx. apply Qabs_cases in Hx. destruct Hx as [Hx|Hx].
    + specialize (Nxa Hx). split.
      * assert (E : Qle_bool lo upperX = false) by (apply Qle_bool_false_iff; lra).
        rewrite E. now rewrite andb_false_r.
      * intros [_ H1].
        assert (H2 := screen_of_large (nx + 1) (inject_Z w) ltac:(lra) HW). lra.
    + assert (Hx' : lo - centerLon vp <= - ((1 + (1 # 1073741824)) * halfWidth))
        by lra.
      specialize (Nxb Hx'). split.
      * assert (E : Qle_bool lowerX lo = false) by (apply Qle_bool_false_iff; lra).
        now rewrite E.
      * intros [H1 _].
        assert (H2 := screen_of_negative (nx + 1) (inject_Z w) ltac:(lra) HW). lra.
  - intros Hy. apply Qabs_cases in Hy. destruct Hy as [Hy|Hy].
    + specialize (Nya Hy). split.
      * assert (E : Qle_bool la upperY = false) by (apply Qle_bool_false_iff; lra).
        rewrite E. now rewrite andb_false_r.
      * intros [H1 _].
        assert (H2 := screen_of_negative (1 - ny) (inject_Z h) ltac:(lra) HH). lra.
    + assert (Hy' : la - centerLat vp <= - ((1 + (1 # 1073741824)) * halfHeight))
        by lra.
      specialize (Nyb Hy'). split.
      * assert (E : Qle_bool lowerY la = false) by (apply Qle_bool_false_iff; lra).
        rewrite E. now rewrite andb_false_r.
      * intros [_ H1].
        assert (H2 := screen_of_large (1 - ny) (inject_Z h) ltac:(lra) HH). lra.
Qed.

Lemma viewport_visibility_is_on_canvas_witness :
  let vp := mkViewport (-100) 40 2 in
  let p := lonLatToXY64 (-74) 40 800 600 (Some vp) in
  isInViewport64 (-74) 40 (Some vp) = true
  /\ 0 <= x p <= 800 /\ 0 <= y p <= 600.
Proof.
  intros vp p.
  assert (Hzoom : 0 < zoom vp) by reflexivity.
  assert (Hw : (0 < 800)%Z) by reflexivity.
  assert (Hh : (0 < 600)%Z) by reflexivity.
  assert (Hlon : Qabs (centerLon vp) * zoom vp <= 4194304 * 180) by discriminate.
  assert (Hlat : Qabs (centerLat vp) * zoom vp <= 4194304 * 90) by discriminate.
  assert (Hx : Qabs (-74 - centerLon vp) <= (1 - (1 # 1073741824)) * (180 / zoom vp))
    by discriminate.
  assert (Hy : Qabs (40 - centerLat vp) <= (1 - (1 # 1073741824)) * (90 / zoom vp))
    by discriminate.
  exact (proj1 (viewport_visibility_is_on_canvas vp (-74) 40 800 600
                  Hzoom Hw Hh Hlon Hlat) Hx Hy).
Defined.

End ViewportEdges.

(* ----------------------------------------------------------------- *)
(** ** The two antimeridian tests *)

Section CrossingTests.
Import Common.

(** On the 1920 pixel screen the stored abscissa of a longitude of
    [-180, 180] is within [2^-23 * 1920] pixels of its real value. *)
Lemma screen_x_near (lo la : Q) :
  -180 <= lo <= 180 ->
  Qabs (x (lonlat_to_xy_f32 lo la SCREEN_WIDTH SCREEN_HEIGHT)
        - (lo + 180) * (16 # 3)) <= 1920 # 8388608.
Proof.
  intros Hlo.
  pose proof (global64_near_x lo la (inject_Z SCREEN_WIDTH)
                              (inject_Z SCREEN_HEIGHT)) as G.
  apply f32_of_near64 in G.
  change (x (lonlat_to_xy_f32 lo la SCREEN_WIDTH SCREEN_HEIGHT))
    with (f32 (x (Utils.lonLatToXY64 lo la (inject_Z SCREEN_WIDTH)
                                     (inject_Z SCREEN_HEIGHT) None))).
  set (v := f32 _) in *. clearbody v.
  change (pow2 (-23)) with (1 # 8388608) in G.
  change (Qabs (inject_Z SCREEN_WIDTH)) with 1920 in G.
  change (inject_Z SCREEN_WIDTH) with 1920 in G.
  assert (Ha : Qabs lo <= 180) by (apply Qabs_Qle_condition; lra).
  assert (Hn := Qabs_nonneg lo).
  assert (E : (lo + 180) / 360 * 1920 == (lo + 180) * (16 # 3)) by field.
  rewrite E in G.
  apply Qabs_Qle_condition. apply Qabs_Qle_condition in G.
  set (a := Qabs lo) in *. clearbody a.
  assert (Eb : (1 # 8388608) * ((a / 180 + 1) / 2 * 1920)
               == (1 # 8388608) * 1920 * (a / 360 + (1 # 2))) by field.
  rewrite Eb in G.
  assert (Hb : a / 360 + (1 # 2) <= 1)
    by (unfold Qdiv; change (/ 360) with (1 # 360); lra).
  assert (Hb0 : 0 <= a / 360 + (1 # 2))
    by (unfold Qdiv; change (/ 360) with (1 # 360); lra).
  set (b := a / 360 + (1 # 2)) in *. clearbody b.
  split; lra.
Qed.

(** The [float] difference of two stored abscissas is within 0.001
    pixel of the real difference of the projections. *)
Lemma screen_dx_near (lon1 lat1 lon2 lat2 : Q) :
  -180 <= lon1 <= 180 -> -180 <= lon2 <= 180 ->
  Qabs (f32 (x (lonlat_to_xy_f32 lon2 lat2 SCREEN_WIDTH SCREEN_HEIGHT)
             - x (lonlat_to_xy_f32 lon1 lat1 SCREEN_WIDTH SCREEN_HEIGHT))
        - (lon2 - lon1) * (16 # 3)) <= 1 # 1000.
Proof.
  intros H1 H2.
  pose proof (screen_x_near lon1 lat1 H1) as E1.
  pose proof (screen_x_near lon2 lat2 H2) as E2.
  set (x1 := x (lonlat_to_xy_f32 lon1 lat1 SCREEN_WIDTH SCREEN_HEIGHT)) in *.
  set (x2 := x (lonlat_to_xy_f32 lon2 lat2 SCREEN_WIDTH SCREEN_HEIGHT)) in *.
  clearbody x1 x2.
  pose proof (roundTo_error 24 (x2 - x1)) as Hr. fold (f32 (x2 - x1)) in Hr.
  change (pow2 (- (24))) with (1 # 16777216) in Hr.
  apply Qabs_Qle_condition in E1, E2.
  assert (Hd : Qabs (x2 - x1) <= 1921).
  { apply Qabs_Qle_condition. split; lra. }
  set (d := f32 (x2 - x1)) in *. clearbody d.
  set (m := Qabs (x2 - x1)) in *. clearbody m.
  apply Qabs_Qle_condition. apply Qabs_Qle_condition in Hr.
  split; lra.
Qed.

Lemma splitSegment_cases (lon1 lat1 lon2 lat2 : Q) :
  (UtilsMore.splitSegmentAtAntimeridian lon1 lat1 lon2 lat2
   = [UtilsMore.mkPiece [(lon1, lat1)] true;
      UtilsMore.mkPiece [(lon2, lat2)] true]
   <-> 180 < Qabs (f64 (lon2 - lon1)))
  /\ (UtilsMore.splitSegmentAtAntimeridian lon1 lat1 lon2 lat2
      = [UtilsMore.mkPiece [(lon1, lat1); (lon2, lat2)] false]
      <-> Qabs (f64 (lon2 - lon1)) <= 180).
Proof.
  unfold UtilsMore.splitSegmentAtAntimeridian.
  destruct (Qlt_bool 180 (Qabs (f64 (lon2 - lon1)))) eqn:E.
  - apply Qlt_bool_iff in E. split; split; try tauto; try discriminate.
    intros H. lra.
  - apply Qlt_bool_false_iff in E. split; split; try tauto; try discriminate.
    intros H. lra.
Qed.

(** X4.  On the full map the screen-space crossing test of the C++ front
    end and the geographic test of the web front end agree away from the
    threshold.  For two longitudes of [-180, 180], projected by
    [lonlat_to_xy] on the 1920 pixel screen: when they differ by at least
    180.001 degrees, [crossesAntimeridian] holds of the projected points
    and [splitSegmentAtAntimeridian] returns the two end points as
    separate one-point pieces flagged as crossing; when they differ by at
    most 179.999 degrees, [crossesAntimeridian] fails and
    [splitSegmentAtAntimeridian] returns the segment as one unflagged
    piece.  In every case [splitSegmentAtAntimeridian] returns the two
    flagged pieces exactly when the [double] difference of the longitudes
    exceeds 180 in absolute value, and the single piece otherwise. *)
Theorem crossing_tests_agree
        (lon1 lat1 lon2 lat2 : Q)
        (H1 : -180 <= lon1 <= 180) (H2 : -180 <= lon2 <= 180) :
  let p1 := lonlat_to_xy_f32 lon1 lat1 SCREEN_WIDTH SCREEN_HEIGHT in
  let p2 := lonlat_to_xy_f32 lon2 lat2 SCREEN_WIDTH SCREEN_HEIGHT in
  (180 + (1 # 1000) <= Qabs (lon2 - lon1) ->
   VectorMap.crossesAntimeridian p1 p2 = true
   /\ UtilsMore.splitSegmentAtAntimeridian lon1 lat1 lon2 lat2
      = [UtilsMore.mkPiece [(lon1, lat1)] true;
         UtilsMore.mkPiece [(lon2, lat2)] true])
  /\ (Qabs (lon2 - lon1) <= 180 - (1 # 1000) ->
      VectorMap.crossesAntimeridian p1 p2 = false
      /\ UtilsMore.splitSegmentAtAntimeridian lon1 lat1 lon2 lat2
         = [UtilsMore.mkPiece [(lon1, lat1); (lon2, lat2)] false])
  /\ (UtilsMore.splitSegmentAtAntimeridian lon1 lat1 lon2 lat2
      = [UtilsMore.mkPiece [(lon1, lat1)] true;
         UtilsMore.mkPiece [(lon2, lat2)] true]
      <-> 180 < Qabs (f64 (lon2 - lon1)))
  /\ (UtilsMore.splitSegmentAtAntimeridian lon1 lat1 lon2 lat2
      = [UtilsMore.mkPiece [(lon1, lat1); (lon2, lat2)] false]
      <-> Qabs (f64 (lon2 - lon1)) <= 180).
Proof.
  intros p1 p2.
  pose proof (screen_dx_near lon1 lat1 lon2 lat2 H1 H2) as Hdx.
  fold p1 p2 in Hdx.
  pose proof (roundTo_error 53 (lon2 - lon1)) as Hw.
  fold (f64 (lon2 - lon1)) in Hw.
  change (pow2 (- (53))) with (1 # 9007199254740992) in Hw.
  destruct (splitSegment_cases lon1 lat1 lon2 lat2) as [Ctwo Cone].
  assert (Hm : Qabs (lon2 - lon1) <= 360) by (apply Qabs_Qle_condition; lra).
  set (dx := f32 (x p2 - x p1)) in *.
  set (dl := f64 (lon2 - lon1)) in *.
  assert (Ec : VectorMap.crossesAntimeridian p1 p2 = true <-> 960 < Qabs dx).
  { rewrite crossesAntimeridian_iff. unfold Segments.exceedsHalfWidth.
    fold dx. change (inject_Z SCREEN_WIDTH / 2) with (1920 / 2).
    assert (E : 1920 / 2 == 960) by reflexivity. rewrite E. reflexivity. }
  assert (Ef : VectorMap.crossesAntimeridian p1 p2 = false <-> Qabs dx <= 960).
  { destruct (VectorMap.crossesAntimeridian p1 p2).
    - split; [discriminate|]. intros H. assert (960 < Qabs dx) by now apply Ec. lra.
    - split; [|reflexivity]. intros _. apply Qnot_lt_le. intros H.
      apply Ec in H. discriminate. }
  clearbody dx dl p1 p2.
  apply Qabs_Qle_condition in Hdx, Hw.
  split; [|split; [|split; [exact Ctwo | exact Cone]]].
  - intros Hfar. split.
    + apply Ec. destruct (Qlt_le_dec (lon2 - lon1) 0) as [Hn|Hn].
      * rewrite Qabs_neg in Hfar, Hw by lra.
        rewrite (Qabs_neg dx) by lra. lra.
      * rewrite Qabs_pos in Hfar, Hw by lra.
        rewrite (Qabs_pos dx) by lra. lra.
    + apply Ctwo. destruct (Qlt_le_dec (lon2 - lon1) 0) as [Hn|Hn].
      * rewrite Qabs_neg in Hfar, Hw by lra.
        rewrite (Qabs_neg dl) by lra. lra.
      * rewrite Qabs_pos in Hfar, Hw by lra.
        rewrite (Qabs_pos dl) by lra. lra.
  - intros Hnear. apply Qabs_Qle_condition in Hnear. split.
    + apply Ef. apply Qabs_Qle_condition. split; lra.
    + apply Cone. apply Qabs_Qle_condition.
      set (m := Qabs (lon2 - lon1)) in *. clearbody m. split; lra.
Qed.

Lemma crossing_tests_agree_witness :
  VectorMap.crossesAntimeridian
    (lonlat_to_xy_f32 170 0 SCREEN_WIDTH SCREEN_HEIGHT)
    (lonlat_to_xy_f32 (-170) 10 SCREEN_WIDTH SCREEN_HEIGHT) = true
  /\ UtilsMore.splitSegmentAtAntimeridian 170 0 (-170) 10
     = [UtilsMore.mkPiece [(170, 0)] true; UtilsMore.mkPiece [(-170, 10)] true].
Proof.
  assert (H1 : -180 <= 170 <= 180) by (split; discriminate).
  assert (H2 : -180 <= -170 <= 180) by (split; discriminate).
  assert (Hfar : 180 + (1 # 1000) <= Qabs (-170 - 170)) by discriminate.
  exact (proj1 (crossing_tests_agree 170 0 (-170) 10 H1 H2) Hfar).
Defined.

End CrossingTests.

(* ----------------------------------------------------------------- *)
(** ** Clamping and target colours *)

Section SmallHelpers.
Import Common.

(** X5.  [clamp] with [min <= max] returns a value of [[min, max]], leaves
    a value of that range unchanged, and is idempotent. *)
Theorem clamp_range (value min max : Q) (Hbounds : min <= max) :
  (min <= Targets.clamp value min max /\ Targets.clamp value min max <= max)
  /\ (min <= value <= max -> Targets.clamp value min max = value)
  /\ Targets.clamp (Targets.clamp value min max) min max
     = Targets.clamp value min max.
Proof.
  unfold Targets.clamp.
  destruct (Qlt_bool value min) eqn:E1.
  - apply Qlt_bool_iff in E1.
    assert (F1 : Qlt_bool min min = false) by (apply Qlt_bool_false_iff; lra).
    assert (F2 : Qlt_bool max min = false) by (apply Qlt_bool_false_iff; lra).
    rewrite F1, F2. split; [lra|]. split; [intros [H _]; lra | reflexivity].
  - pose proof E1 as B1. apply Qlt_bool_false_iff in E1.
    destruct (Qlt_bool max value) eqn:E2.
    + apply Qlt_bool_iff in E2.
      assert (F1 : Qlt_bool max min = false) by (apply Qlt_bool_false_iff; lra).
      assert (F2 : Qlt_bool max max = false) by (apply Qlt_bool_false_iff; lra).
      rewrite F1, F2. split; [lra|]. split; [intros [_ H]; lra | reflexivity].
    + rewrite B1, E2. apply Qlt_bool_false_iff in E2.
      split; [lra|]. split; reflexivity.
Qed.

Lemma clamp_range_witness :
  (0 <= Targets.clamp (3 # 2) 0 1 /\ Targets.clamp (3 # 2) 0 1 <= 1)
  /\ (0 <= 3 # 2 <= 1 -> Targets.clamp (3 # 2) 0 1 = 3 # 2)
  /\ Targets.clamp (Targets.clamp (3 # 2) 0 1) 0 1 = Targets.clamp (3 # 2) 0 1.
Proof.
  apply (clamp_range (3 # 2) 0 1). lra.
Defined.

(** X6.  Both front ends colour a missile by its target in the same way:
    red exactly when the target lies within 0.01 degrees, in latitude and
    in longitude, of Moscow or of Tokyo, and cyan otherwise. *)
Theorem target_colour_rule :
  forall (target : LatLon),
    let moscow := Qabs (lat target - (557558 # 10000)) < 1 # 100
                  /\ Qabs (lon target - (376173 # 10000)) < 1 # 100 in
    let tokyo := Qabs (lat target - (356762 # 10000)) < 1 # 100
                 /\ Qabs (lon target - (1396503 # 10000)) < 1 # 100 in
    (Targets.getColorForTarget target = RED <-> moscow \/ tokyo)
    /\ (Targets.getColorForTarget target = CYAN <-> ~ (moscow \/ tokyo))
    /\ Targets.isRussiaOrJapanTarget target
       = UtilsMore.isRussiaOrJapanTarget (lat target) (lon target)
    /\ (forall greatCircle start duration,
           WebMissile.color (WebMissile.new greatCircle start target duration)
           = Targets.getColorForTarget target).
Proof.
  intros target moscow tokyo.
  assert (H : Targets.isRussiaOrJapanTarget target = true <-> moscow \/ tokyo).
  { unfold Targets.isRussiaOrJapanTarget, moscow, tokyo. cbv zeta.
    rewrite orb_true_iff, !andb_true_iff, !Qlt_bool_iff. reflexivity. }
  unfold Targets.getColorForTarget.
  split; [|split; [|split]].
  - destruct (Targets.isRussiaOrJapanTarget target).
    + split; [intros _; now apply H | reflexivity].
    + split; [discriminate | intros Hm; apply H in Hm; discriminate].
  - destruct (Targets.isRussiaOrJapanTarget target).
    + split; [discriminate | intros Hn; exfalso; apply Hn; now apply H].
    + split; [intros _ Hm; apply H in Hm; discriminate | reflexivity].
  - reflexivity.
  - reflexivity.
Qed.

End SmallHelpers.

(* ----------------------------------------------------------------- *)
(** ** Keyboard controls and frame timing of the C++ main loop *)

Section MainControls.
Import Controls.

Lemma keyDown_interval_bounds (k : Key) (s : t) :
  3 # 10 <= launchInterval s <= 10 ->
  3 # 10 <= launchInterval (keyDown k s) <= 10.
Proof.
  intros [Hl Hu]. destruct k; simpl; try (split; assumption); try lra.
  - unfold Qmax_std.
    destruct (Qlt_bool (3 # 10) (launchInterval s - (5 # 10))) eqn:E.
    + apply Qlt_bool_iff in E. lra.
    + lra.
  - unfold Qmin_std.
    destruct (Qlt_bool (launchInterval s + (5 # 10)) 10) eqn:E.
    + apply Qlt_bool_iff in E. lra.
    + lra.
Qed.

(** X7.  Whatever keys are pressed, the launch interval stays between 0.3
    and 10 seconds: UP shortens it by half a second but not below 0.3, DOWN
    lengthens it by half a second but not above 10, R sets it to 2, and no
    other key changes it. *)
Theorem launch_interval_stays_bounded :
  forall (ks : list Key),
    (3 # 10 <= launchInterval (keysDown ks initial) <= 10)
    /\ (forall s, 3 # 10 <= launchInterval s <= 10 ->
                  3 # 10 <= launchInterval (keysDown ks s) <= 10)
    /\ (forall s, 3 # 10 <= launchInterval s ->
                  launchInterval (keyDown KEY_UP s) <= launchInterval s
                  /\ (8 # 10 <= launchInterval s ->
                      launchInterval (keyDown KEY_UP s)
                      == launchInterval s - (5 # 10)))
    /\ (forall s, launchInterval s <= 10 ->
                  launchInterval s <= launchInterval (keyDown KEY_DOWN s)
                  /\ (launchInterval s <= 95 # 10 ->
                      launchInterval (keyDown KEY_DOWN s)
                      == launchInterval s + (5 # 10)))
    /\ (forall s, launchInterval (keyDown KEY_R s) = 2)
    /\ (forall s k, k <> KEY_UP -> k <> KEY_DOWN -> k <> KEY_R ->
                    launchInterval (keyDown k s) = launchInterval s).
Proof.
  intros ks.
  assert (H : forall s, 3 # 10 <= launchInterval s <= 10 ->
                        3 # 10 <= launchInterval (keysDown ks s) <= 10).
  { unfold keysDown. induction ks as [|k ks IH]; intros s Hs; simpl; [assumption|].
    apply IH. now apply keyDown_interval_bounds. }
  split; [apply H; simpl; lra|]. split; [exact H|]. split; [|split; [|split]].
  - intros s Hs. simpl. unfold Qmax_std.
    destruct (Qlt_bool (3 # 10) (launchInterval s - (5 # 10))) eqn:E.
    + split; [lra | intros _; reflexivity].
    + apply Qlt_bool_false_iff in E. split; [assumption | intros H8; lra].
  - intros s Hs. simpl. unfold Qmin_std.
    destruct (Qlt_bool (launchInterval s + (5 # 10)) 10) eqn:E.
    + split; [lra | intros _; reflexivity].
    + apply Qlt_bool_false_iff in E. split; [assumption | intros H9; lra].
  - reflexivity.
  - intros s k Hup Hdown Hr. destruct k; try reflexivity; congruence.
Qed.

Lemma launch_interval_stays_bounded_witness :
  let s := keysDown [KEY_UP; KEY_UP; KEY_UP; KEY_UP; KEY_DOWN] initial in
  3 # 10 <= launchInterval s <= 10.
Proof.
  exact (proj1 (launch_interval_stays_bounded
                  [KEY_UP; KEY_UP; KEY_UP; KEY_UP; KEY_DOWN])).
Defined.

Lemma keyDown_running_false (k : Key) (s : t) :
  running s = false -> running (keyDown k s) = false.
Proof. intros H. destruct k; simpl; auto. Qed.

(** X8.  The C key cycles the CRT mode OFF, LIGHT, FULL and back: three
    presses restore the mode, one or two presses never do, and no other
    key changes it.  The F key toggles the fullscreen flag: one press
    inverts it, two presses restore it, and no other key changes it. *)
Theorem crt_mode_cycle :
  forall (s : t),
    crtMode (keyDown KEY_C (keyDown KEY_C (keyDown KEY_C s))) = crtMode s
    /\ crtMode (keyDown KEY_C s) <> crtMode s
    /\ crtMode (keyDown KEY_C (keyDown KEY_C s)) <> crtMode s
    /\ (forall k, k <> KEY_C -> crtMode (keyDown k s) = crtMode s)
    /\ crtMode (keyDown KEY_C initial) = LIGHT
    /\ fullscreen (keyDown KEY_F s) = negb (fullscreen s)
    /\ fullscreen (keyDown KEY_F (keyDown KEY_F s)) = fullscreen s
    /\ (forall k, k <> KEY_F -> fullscreen (keyDown k s) = fullscreen s)
    /\ fullscreen (keyDown KEY_F initial) = true.
Proof.
  intros s.
  split; [|split; [|split; [|split; [|split; [|split; [|split; [|split]]]]]]].
  - simpl. destruct (crtMode s); reflexivity.
  - simpl. destruct (crtMode s); discriminate.
  - simpl. destruct (crtMode s); discriminate.
  - intros k Hk. destruct k; try reflexivity. congruence.
  - reflexivity.
  - reflexivity.
  - simpl. apply negb_involutive.
  - intros k Hk. destruct k; try reflexivity. congruence.
  - reflexivity.
Qed.

(** X9.  Quitting is final and fullscreen is a toggle: after ESC or Q no
    later key sets [running] again, only ESC and Q clear it, and two
    presses of F restore the fullscreen flag. *)
Theorem quit_is_final :
  forall (s : t) (ks : list Key),
    running (keysDown (KEY_ESCAPE :: ks) s) = false
    /\ running (keysDown (KEY_Q :: ks) s) = false
    /\ (running s = false -> running (keysDown ks s) = false)
    /\ (~ In KEY_ESCAPE ks -> ~ In KEY_Q ks ->
        running (keysDown ks s) = running s)
    /\ fullscreen (keyDown KEY_F (keyDown KEY_F s)) = fullscreen s.
Proof.
  intros s ks.
  assert (H : forall st, running st = false -> running (keysDown ks st) = false).
  { unfold keysDown. induction ks as [|k ks IH]; intros st Hst; simpl; [assumption|].
    apply IH. now apply keyDown_running_false. }
  split; [apply H; reflexivity|]. split; [apply H; reflexivity|].
  split; [apply H|]. split.
  - clear H. revert s. unfold keysDown.
    induction ks as [|k ks IH]; intros s Hesc Hq; simpl; [reflexivity|].
    rewrite IH.
    + destruct k; try reflexivity; exfalso; [apply Hesc | apply Hq]; now left.
    + intros Hin. apply Hesc. now right.
    + intros Hin. apply Hq. now right.
  - simpl. apply negb_involutive.
Qed.

Lemma quit_is_final_witness :
  running (keysDown [KEY_UP; KEY_C; KEY_F] (keyDown KEY_Q initial)) = false.
Proof.
  exact (proj1 (proj2 (proj2 (quit_is_final (keyDown KEY_Q initial)
                                            [KEY_UP; KEY_C; KEY_F])))
               eq_refl).
Defined.

End MainControls.

(* ----------------------------------------------------------------- *)
(** ** Launch timer, frame cap and explosion lifetime *)

Section FrameTiming.
Import Controls Timing.




Lemma capDelta_le (dt : Q) : capDelta dt <= 1 # 10.
Proof.
  unfold capDelta. destruct (Qlt_bool (1 # 10) dt) eqn:E.
  - apply Qle_refl.
  - now apply Qlt_bool_false_iff in E.
Qed.

Lemma missileUpdates_progress_bound (dts : list Q) :
  forall m,
    Missile.m_duration m = 12 ->
    Forall (fun dt => dt <= 1 # 10) dts ->
    Missile.m_duration (Runs.missileUpdates dts m) = 12
    /\ Missile.m_progress (Runs.missileUpdates dts m)
       <= Missile.m_progress m + inject_Z (Z.of_nat (length dts)) * (1 # 120).
Proof.
  unfold Runs.missileUpdates.
  induction dts as [|dt dts IH]; intros m Hd Hdts.
  - cbn [fold_left length]. change (inject_Z (Z.of_nat 0)) with 0.
    split; [assumption|]. lra.
  - inversion Hdts as [|? ? Hdt Hrest]; subst.
    cbn [fold_left].
    destruct (IH (Missile.update dt m) Hd Hrest) as [IH1 IH2].
    split; [assumption|].
    assert (Hstep : Missile.m_progress (Missile.update dt m)
                    <= Missile.m_progress m + (1 # 120)).
    { rewrite missile_update_Qmin, Hd.
      assert (Ed : dt / 12 == dt * (1 # 12)) by field.
      rewrite Ed. eapply Qle_trans; [apply Q.le_min_r|]. lra. }
    cbn [length]. rewrite Nat2Z.inj_succ, <- Z.add_1_l, inject_Z_plus.
    change (inject_Z 1) with 1. lra.
Qed.

(** X11.  The frame time is capped at 0.1 s, so a missile (duration 12 s)
    cannot finish early: whatever the measured frame times are, a newly
    constructed missile is still in flight after fewer than 120 frames, and
    its progress after [n] frames is at most [n/120]. *)
Theorem missile_needs_120_frames :
  forall (Inverse : Q -> Q -> Q -> Q -> Q * Q * Q)
         (Position : Q -> Q -> Q -> Q -> Q * Q)
         (start end_ : Common.LatLon) (c : Common.Color) (deltas : list Q),
    let m := Runs.missileUpdates (map capDelta deltas)
                                 (Missile.new Inverse Position start end_ c) in
    (forall dt, capDelta dt <= 1 # 10 /\ (dt <= 1 # 10 -> capDelta dt = dt))
    /\ Missile.m_progress m <= inject_Z (Z.of_nat (length deltas)) * (1 # 120)
    /\ ((length deltas < 120)%nat -> Missile.isFinished m = false).
Proof.
  intros Inverse Position start end_ c deltas m.
  assert (Hcap : Forall (fun dt => dt <= 1 # 10) (map capDelta deltas)).
  { apply Forall_forall. intros dt Hin. apply in_map_iff in Hin.
    destruct Hin as (d & <- & _). apply capDelta_le. }
  destruct (missileUpdates_progress_bound
              (map capDelta deltas) (Missile.new Inverse Position start end_ c)
              eq_refl Hcap) as [_ Hb].
  fold m in Hb. rewrite length_map in Hb.
  change (Missile.m_progress (Missile.new Inverse Position start end_ c)) with 0 in Hb.
  assert (Hp : Missile.m_progress m
               <= inject_Z (Z.of_nat (length deltas)) * (1 # 120)) by lra.
  split; [|split].
  - intros dt. split; [apply capDelta_le|].
    intros Hle. unfold capDelta.
    destruct (Qlt_bool (1 # 10) dt) eqn:E; [|reflexivity].
    apply Qlt_bool_iff in E. lra.
  - exact Hp.
  - intros Hn. unfold Missile.isFinished. apply Qle_bool_false_iff.
    assert (Hz : inject_Z (Z.of_nat (length deltas)) <= inject_Z 119)
      by (rewrite <- Zle_Qle; lia).
    change (inject_Z 119) with 119 in Hz. lra.
Qed.

Lemma missile_needs_120_frames_witness :
  let m := Runs.missileUpdates
             (map capDelta [5; 5; 5])
             (Missile.new Geodesy.equatorInverse Geodesy.equatorPosition
                          (Common.mkLatLon 0 0) (Common.mkLatLon 0 170) Common.CYAN) in
  Missile.isFinished m = false.
Proof.
  intros m.
  refine (proj2 (proj2 (missile_needs_120_frames
                          Geodesy.equatorInverse Geodesy.equatorPosition
                          (Common.mkLatLon 0 0) (Common.mkLatLon 0 170)
                          Common.CYAN [5; 5; 5])) _).
  simpl. lia.
Defined.

End FrameTiming.

(* ----------------------------------------------------------------- *)
(** ** Explosions in the C++ frame *)

Section ExplosionLife.
Import Common Renderer Timing.

Lemma frame_alive (dt : Q) (launched : list Missile.t) (w : Main.World) :
  Forall alive (Main.explosions (Main.frame dt launched w)).
Proof.
  rewrite frame_explosions. unfold Main.removeFinishedExplosions.
  apply Forall_forall. intros e He. apply filter_In in He.
  destruct He as [_ He]. now apply negb_true_iff in He.
Qed.

Lemma filter_length_bound {A : Type} (f : A -> bool) (l : list A) :
  (length (filter f l) <= length l)%nat.
Proof.
  induction l as [|a l IH]; simpl; [lia|]. destruct (f a); simpl; lia.
Qed.

Lemma frame_explosions_count (dt : Q) (launched : list Missile.t)
      (w : Main.World) :
  (length (Main.explosions (Main.frame dt launched w))
   <= length (Main.explosions w) + Main.spawnedIn dt launched w)%nat.
Proof.
  rewrite frame_explosions, spawnedIn_count.
  unfold Main.removeFinishedExplosions.
  eapply Nat.le_trans; [apply filter_length_bound|].
  rewrite length_map, length_app, length_map. lia.
Qed.

Lemma run_explosions (frames : list (Q * list Missile.t)) :
  forall w n,
    (Forall alive (Main.explosions w) ->
     Forall alive (Main.explosions (fst (Main.run frames w n))))
    /\ (n <= snd (Main.run frames w n))%nat
    /\ (length (Main.explosions (fst (Main.run frames w n))) + n
        <= length (Main.explosions w) + snd (Main.run frames w n))%nat.
Proof.
  induction frames as [|[dt launched] frames IH]; intros w n.
  - cbn [Main.run fst snd]. split; [auto|]. split; lia.
  - cbn [Main.run].
    destruct (IH (Main.frame dt launched w) (n + Main.spawnedIn dt launched w)%nat)
      as (Ha & Hn & Hc).
    pose proof (frame_explosions_count dt launched w) as Hf.
    split; [intros _; apply Ha, frame_alive|]. split; lia.
Qed.

(** X12.  After every frame no explosion of the collection is finished:
    each one has an age below its duration, since an explosion is removed
    in the frame in which its age reaches its duration.  Over any run of
    frames that starts without a finished explosion this stays so, and
    explosions only come from finished missiles: the collection never
    holds more explosions than it held at the start plus those that the
    missile loop has pushed since. *)
Theorem explosions_removed_when_due :
  forall (dt : Q) (launched : list Missile.t) (w : Main.World),
    Forall alive (Main.explosions (Main.frame dt launched w))
    /\ (forall e, In e (Main.explosions (Main.frame dt launched w)) ->
                  Explosion.m_age e < Explosion.m_duration e)
    /\ (length (Main.explosions (Main.frame dt launched w))
        <= length (Main.explosions w) + Main.spawnedIn dt launched w)%nat
    /\ (forall (frames : list (Q * list Missile.t)) (n : nat),
           (Forall alive (Main.explosions w) ->
            Forall alive (Main.explosions (fst (Main.run frames w n))))
           /\ (length (Main.explosions (fst (Main.run frames w n)))
               <= length (Main.explosions w)
                  + (snd (Main.run frames w n) - n))%nat).
Proof.
  intros dt launched w.
  pose proof (frame_alive dt launched w) as Ha.
  split; [exact Ha|]. split; [|split].
  - intros e He. rewrite Forall_forall in Ha. specialize (Ha e He).
    unfold alive, Explosion.isFinished in Ha.
    now apply Qle_bool_false_iff in Ha.
  - apply frame_explosions_count.
  - intros frames n. destruct (run_explosions frames w n) as (H1 & H2 & H3).
    split; [exact H1 | lia].
Qed.

Lemma explosions_removed_when_due_witness :
  let w := Main.mkWorld [] [Explosion.new 0 0 CYAN] in
  Forall alive (Main.explosions
                  (fst (Main.run [(1 # 10, []); (1 # 10, [])] w 0))).
Proof.
  intros w.
  assert (Hw : Forall alive (Main.explosions w)).
  { repeat constructor. }
  exact (proj1 (proj2 (proj2 (proj2 (explosions_removed_when_due 0 [] w)))
                      [(1 # 10, []); (1 # 10, [])] 0%nat) Hw).
Defined.

(** X13.  A ring that is drawn is a glow of four circles around the
    impact point, all with the same radius between 0 and 50 pixels, and
    none more opaque than the explosion colour. *)
Theorem drawn_ring_bounds (e : Explosion.t) (i : nat)
        (Hlast : nth (Explosion.NUM_RINGS - 1) Explosion.RING_DELAYS 0
                 < Explosion.m_duration e)
        (Halpha : 0 <= a (Explosion.m_color e)) :
  Explosion.drawRing e i = []
  \/ exists radius : Q,
       0 <= radius <= 50
       /\ length (Explosion.drawRing e i) = 4%nat
       /\ Forall (fun call =>
                    prim call = Circle (Explosion.m_x e) (Explosion.m_y e) radius
                    /\ 0 <= a (color call) <= a (Explosion.m_color e))
                 (Explosion.drawRing e i).
Proof.
  unfold Explosion.drawRing.
  set (ringAge := Explosion.m_age e - nth i Explosion.RING_DELAYS 0).
  set (ringDuration := Explosion.m_duration e
                       - nth (Explosion.NUM_RINGS - 1) Explosion.RING_DELAYS 0).
  assert (Hd : 0 < ringDuration) by (unfold ringDuration; lra).
  destruct (Qlt_bool ringAge 0) eqn:E0; [now left|].
  apply Qlt_bool_false_iff in E0.
  destruct (Qlt_bool 1 (ringAge / ringDuration)) eqn:E1; [now left|].
  apply Qlt_bool_false_iff in E1.
  pose proof (Qdiv_nonneg ringAge ringDuration E0 Hd) as Ht.
  set (t := ringAge / ringDuration) in *. clearbody t.
  right. exists (t * 50). split; [lra|]. split; [reflexivity|].
  unfold drawCircleWithGlow. cbn [Z.to_nat Pos.to_nat Pos.iter_op Init.Nat.add glowLoop].
  set (al := a (Explosion.m_color e)) in *. clearbody al.
  assert (Hp : 0 <= (1 - t) * al).
  { apply Qmult_le_0_compat; lra. }
  assert (Hq : (1 - t) * al <= al).
  { assert (Ht' : t * al >= 0) by (apply Qmult_le_0_compat; lra).
    assert (Er : (1 - t) * al == al - t * al) by ring. rewrite Er. lra. }
  set (ra := (1 - t) * al) in *. clearbody ra.
  assert (Hk : forall k : Q, 0 <= k -> k <= 1 -> 0 <= ra * k <= al).
  { intros k K0 K1. split; [apply Qmult_le_0_compat; assumption|].
    apply Qle_trans with (ra * 1); [|lra].
    rewrite (Qmult_comm ra k), (Qmult_comm ra 1).
    apply Qmult_le_compat_r; assumption. }
  repeat constructor; cbn [prim color a]; try reflexivity;
    apply Hk; discriminate.
Qed.

Lemma drawn_ring_bounds_witness :
  let e := Explosion.update 1 (Explosion.new 100 100 CYAN) in
  exists radius : Q,
    0 <= radius <= 50 /\ length (Explosion.drawRing e 1) = 4%nat.
Proof.
  intros e.
  assert (Hlast : nth (Explosion.NUM_RINGS - 1) Explosion.RING_DELAYS 0
                  < Explosion.m_duration e) by reflexivity.
  assert (Halpha : 0 <= a (Explosion.m_color e)) by discriminate.
  destruct (drawn_ring_bounds e 1 Hlast Halpha) as [H | [radius [Hr [Hl _]]]].
  - discriminate H.
  - exists radius. split; assumption.
Defined.

End ExplosionLife.

(* ----------------------------------------------------------------- *)
(** ** Drawing a missile *)

Section MissileDrawing.
Import Common VectorMap Renderer Segments MissileDraw.
Variable sin : Q -> Q.

Lemma flush_keep (cur : list Point) (c : Color) (calls : list DrawCall) :
  flush cur c calls = calls ++ pathCalls c (keep cur).
Proof.
  unfold flush, keep, pathCalls. destruct (1 <? length cur)%nat.
  - cbn [flat_map]. now rewrite app_nil_r.
  - cbn [flat_map]. now rewrite app_nil_r.
Qed.

Lemma pathCalls_app (c : Color) (s1 s2 : list (list Point)) :
  pathCalls c (s1 ++ s2) = pathCalls c s1 ++ pathCalls c s2.
Proof. unfold pathCalls. apply flat_map_app. Qed.

Lemma saveSegment_map_points (cur : list Point) (out : list LineSegment) (c : Color) :
  map points (saveSegment cur out c) = map points out ++ keep cur.
Proof.
  unfold saveSegment, keep. destruct (1 <? length cur)%nat.
  - now rewrite map_app.
  - now rewrite app_nil_r.
Qed.

(** The trail loop of [Missile::draw] performs the steps of the loop of
    [VectorMap::splitAtAntimeridian], drawing a piece where that one
    stores it. *)
Lemma trailLoop_splitLoop (c c' : Color) (rest : list Point) :
  forall prev cur calls,
    trailLoop prev rest cur c calls
    = (fst (splitLoop prev rest cur [] c'),
       calls ++ pathCalls c (map points (snd (splitLoop prev rest cur [] c')))).
Proof.
  induction rest as [|p rest IH]; intros prev cur calls.
  - simpl. now rewrite app_nil_r.
  - cbn [trailLoop splitLoop].
    change (Qlt_bool (inject_Z SCREEN_WIDTH * (5 # 10))
                     (Qabs (f32 (x p - x prev))))
      with (crossesAntimeridian prev p).
    destruct (crossesAntimeridian prev p).
    + rewrite IH. rewrite (splitLoop_output c' rest p [p] (saveSegment cur [] c')).
      cbn [fst snd]. f_equal.
      rewrite map_app, pathCalls_app, saveSegment_map_points, flush_keep.
      simpl. now rewrite app_assoc.
    + apply IH.
Qed.

Lemma glowLoop_prim (p : Primitive) (c : Color) (layers : Z) (n : nat) :
  forall call, In call (glowLoop p c layers n) -> prim call = p.
Proof.
  induction n as [|n IH]; intros call; simpl; [tauto|].
  intros [<-|H]; [reflexivity | now apply IH].
Qed.

Lemma pathCalls_In (c : Color) (segs : list (list Point)) (call : DrawCall) :
  In call (pathCalls c segs) -> exists s, In s segs /\ prim call = Path s.
Proof.
  unfold pathCalls. rewrite in_flat_map. intros (s & Hs & Hc).
  exists s. split; [assumption|]. now apply glowLoop_prim in Hc.
Qed.

Lemma infix_firstn (s : list Point) (n : nat) (pts : list Point) :
  infix s (firstn n pts) -> infix s pts.
Proof.
  intros (pre & post & E). exists pre, (post ++ skipn n pts).
  rewrite <- (firstn_skipn n pts) at 1. rewrite E.
  now rewrite <- !app_assoc.
Qed.

Lemma draw_unfold (m : Missile.t) :
  Missile.m_path m <> [] -> (2 <= numPoints m)%Z ->
  draw sin m
  = drawBase m (Missile.m_basePos m)
    ++ pathCalls (Missile.m_color m) (splitPath (visiblePath m))
    ++ marker sin m.
Proof.
  intros Hne Hn. unfold draw.
  destruct (Missile.m_path m) as [|q0 path] eqn:Ep; [congruence|].
  destruct (numPoints m <? 2)%Z eqn:En; [apply Z.ltb_lt in En; lia|].
  destruct (visiblePath m) as [|p0 rest] eqn:Ev.
  - exfalso. unfold visiblePath in Ev. rewrite Ep in Ev.
    destruct (Z.to_nat (numPoints m)) eqn:E; [lia | discriminate].
  - rewrite (trailLoop_splitLoop (Missile.m_color m) DIM_CYAN).
    rewrite flush_keep. unfold splitPath, splitAtAntimeridian.
    destruct (splitLoop p0 rest [p0] [] DIM_CYAN) as [cur out].
    cbn [fst snd]. rewrite saveSegment_map_points, pathCalls_app.
    now rewrite <- !app_assoc.
Qed.

(** X14.  The trail of a missile is drawn as the antimeridian
    segmentation of its visible path: when the path is not empty and at
    least two of its points are visible, [Missile::draw] issues the launch
    icon, then one glowing polyline for each segment that
    [VectorMap::splitAtAntimeridian] makes of the visible prefix, in
    order, then the target marker: the loop of [Missile::draw] tests the
    same [float] difference of abscissas.  Hence every polyline a missile
    draws has at least two points, contains no pair of consecutive points
    whose [float] difference of abscissas exceeds half the screen width,
    and is a contiguous run of the missile path. *)
Theorem missile_trail_is_split_path (m : Missile.t) :
  (Missile.m_path m <> [] -> (2 <= numPoints m)%Z ->
   draw sin m
   = drawBase m (Missile.m_basePos m)
     ++ pathCalls (Missile.m_color m) (splitPath (visiblePath m))
     ++ marker sin m)
  /\ (forall (call : DrawCall) (pts : list Point),
         In call (draw sin m) -> prim call = Path pts ->
         (2 <= length pts)%nat /\ noCrossing pts
         /\ infix pts (Missile.m_path m)).
Proof.
  split; [apply draw_unfold|].
  intros call pts Hin Hp.
  assert (Hbase : forall cl, In cl (drawBase m (Missile.m_basePos m)) ->
                             prim cl <> Path pts).
  { intros cl H. unfold drawBase, drawLineWithGlow in H.
    rewrite !in_app_iff in H.
    destruct H as [H|[H|H]]; apply glowLoop_prim in H; rewrite H; discriminate. }
  assert (Hmark : forall cl, In cl (marker sin m) -> prim cl <> Path pts).
  { intros cl H. unfold marker in H.
    destruct (Qle_bool (f32 (85 # 100)) (Missile.m_progress m)
              && Qlt_bool (Missile.m_progress m) 1); [|destruct H].
    unfold drawCircleWithGlow in H. apply glowLoop_prim in H.
    rewrite H. discriminate. }
  destruct (Missile.m_path m) as [|q0 path] eqn:Ep.
  { unfold draw in Hin. rewrite Ep in Hin. destruct Hin. }
  destruct (Z_lt_le_dec (numPoints m) 2) as [Hlt|Hge].
  { unfold draw in Hin. rewrite Ep in Hin.
    apply Z.ltb_lt in Hlt. rewrite Hlt in Hin.
    exfalso. exact (Hbase call Hin Hp). }
  rewrite draw_unfold in Hin by (rewrite ?Ep; [discriminate || assumption ..]).
  rewrite !in_app_iff in Hin. destruct Hin as [H|[H|H]].
  - exfalso. exact (Hbase call H Hp).
  - apply pathCalls_In in H. destruct H as (s & Hs & Hc).
    rewrite Hp in Hc. injection Hc as ->.
    destruct (splitPath_segments (length (visiblePath m)) (visiblePath m)
                                 (le_n _) s Hs) as (H2 & Hnc & Hinf).
    split; [assumption|]. split; [assumption|].
    rewrite <- Ep. unfold visiblePath in Hinf. now apply infix_firstn in Hinf.
  - exfalso. exact (Hmark call H Hp).
Qed.

End MissileDrawing.

Lemma missile_trail_is_split_path_witness :
  let path := [Common.mkPoint 1900 500; Common.mkPoint 1910 490;
               Common.mkPoint 5 480; Common.mkPoint 15 470;
               Common.mkPoint 25 460] in
  let m := Missile.mk path (Common.mkPoint 1900 500) Common.CYAN (7 # 8) 12 in
  MissileDraw.draw (fun _ => 0) m
  = MissileDraw.drawBase m (Missile.m_basePos m)
    ++ MissileDraw.pathCalls Common.CYAN
         [[Common.mkPoint 1900 500; Common.mkPoint 1910 490];
          [Common.mkPoint 5 480; Common.mkPoint 15 470]]
    ++ MissileDraw.marker (fun _ => 0) m.
Proof.
  intros path m.
  refine (proj1 (missile_trail_is_split_path (fun _ => 0) m) _ _).
  - discriminate.
  - vm_compute. discriminate.
Defined.

Section TargetMarker.
Import Common Renderer MissileDraw Handoff.
Variable sin : Q -> Q.
Hypothesis sin_range : forall q, -(1) <= sin q <= 1.

(** A [float] of at least one half is a multiple of [2^-24]. *)
Lemma float_grid (p : Q) :
  representable 24 p -> 1 # 2 <= p ->
  exists k : Z, p == inject_Z k * pow2 (-24).
Proof.
  intros (k & e & Eq & Hk) Hp.
  assert (Hpe := pow2_pos e).
  assert (Hk0 : (0 < k)%Z).
  { destruct (Z.lt_ge_cases 0 k) as [H|H]; [assumption|exfalso].
    assert (Hn : inject_Z k <= 0).
    { change 0 with (inject_Z 0). rewrite <- Zle_Qle. lia. }
    assert (Hx : 0 <= - inject_Z k * pow2 e)
      by (apply Qmult_le_0_compat; lra).
    assert (Er : - inject_Z k * pow2 e == - (inject_Z k * pow2 e)) by ring.
    lra. }
  assert (He : (-25 < e)%Z).
  { apply pow2_lt_inv.
    assert (Hlt : inject_Z k * pow2 e < inject_Z (2 ^ 24) * pow2 e).
    { apply Qmult_lt_compat_r; [assumption|]. rewrite <- Zlt_Qlt. lia. }
    assert (E1 : inject_Z (2 ^ 24) * pow2 e == pow2 25 * (pow2 (-1) * pow2 e))
      by (change (inject_Z (2 ^ 24)) with 16777216; change (pow2 25) with 33554432;
          change (pow2 (-1)) with (1 # 2); ring).
    assert (E2 : pow2 (-25) * pow2 25 == 1) by reflexivity.
    assert (Hq : pow2 (-1) <= inject_Z k * pow2 e)
      by (change (pow2 (-1)) with (1 # 2); rewrite <- Eq; exact Hp).
    change (pow2 (-25)) with (1 # 33554432).
    change (pow2 25) with 33554432 in E1. change (pow2 (-1)) with (1 # 2) in E1, Hq.
    set (t := pow2 e) in *. clearbody t.
    set (kk := inject_Z k * t) in *. clearbody kk.
    change (inject_Z (2 ^ 24)) with 16777216 in Hlt, E1. lra. }
  exists (k * 2 ^ (e + 24))%Z.
  rewrite inject_Z_mult, <- (pow2_inject (e + 24)) by lia.
  rewrite Eq, <- Qmult_assoc, <- pow2_add.
  replace (e + 24 + -24)%Z with e by lia. reflexivity.
Qed.

(** For a [float] progress the test against [0.85f] is the test against
    0.85: no [float] lies between 0.85 and the [float] nearest to it. *)
Lemma marker_threshold (p : Q) :
  representable 24 p -> (f32 (85 # 100) <= p <-> 85 # 100 <= p).
Proof.
  intros Hf.
  assert (E : f32 (85 # 100) = 7130317 # 8388608) by (vm_compute; reflexivity).
  rewrite E. split; [intros H; lra|]. intros H.
  destruct (float_grid p Hf) as (k & Ek); [lra|].
  change (pow2 (-24)) with (1 # 16777216) in Ek.
  assert (Hk : (14260633 < k)%Z).
  { rewrite Zlt_Qlt. change (inject_Z 14260633) with 14260633. lra. }
  assert (Hk' : inject_Z 14260634 <= inject_Z k) by (rewrite <- Zle_Qle; lia).
  change (inject_Z 14260634) with 14260634 in Hk'. lra.
Qed.

(** The marker block on its own: when it draws, and what. *)
Lemma marker_window (m : Missile.t) :
  representable 24 (Missile.m_progress m) ->
  (marker sin m <> []
   <-> 85 # 100 <= Missile.m_progress m /\ Missile.m_progress m < 1).
Proof.
  intros Hf. rewrite <- (marker_threshold _ Hf). unfold marker.
  destruct (Qle_bool (f32 (85 # 100)) (Missile.m_progress m)) eqn:E1;
    destruct (Qlt_bool (Missile.m_progress m) 1) eqn:E2; cbn [andb].
  - apply Qle_bool_iff in E1. apply Qlt_bool_iff in E2.
    split; [intros _; split; assumption | intros _; discriminate].
  - apply Qlt_bool_false_iff in E2.
    split; [congruence | intros [_ H]; exfalso; lra].
  - apply Qle_bool_false_iff in E1.
    split; [congruence | intros [H _]; exfalso; lra].
  - apply Qle_bool_false_iff in E1.
    split; [congruence | intros [H _]; exfalso; lra].
Qed.

Lemma marker_shape (m : Missile.t) :
  exists radius : Q,
    10 <= radius <= 15
    /\ Forall (fun call =>
                 prim call = Circle (x (terminalPoint m))
                                    (y (terminalPoint m)) radius
                 /\ 0 <= a (color call) <= 1)
              (marker sin m)
    /\ (marker sin m <> [] -> length (marker sin m) = 3%nat).
Proof.
  pose proof (sin_range (Missile.m_progress m * 20)) as Hs.
  exists (10 + ((5 # 10) + (5 # 10) * sin (Missile.m_progress m * 20)) * 5).
  split; [lra|]. unfold marker, terminalPoint.
  destruct (Qle_bool (f32 (85 # 100)) (Missile.m_progress m)
            && Qlt_bool (Missile.m_progress m) 1);
    [|split; [constructor | congruence]].
  split; [|reflexivity].
  set (s := sin (Missile.m_progress m * 20)) in *. clearbody s.
  unfold drawCircleWithGlow.
  set (pa := (5 # 10) + ((5 # 10) + (5 # 10) * s) * (5 # 10)).
  assert (Hpa : 0 <= pa /\ pa <= 1) by (unfold pa; lra).
  clearbody pa. destruct Hpa as [Hp0 Hp1].
  assert (Hk : forall k : Q, 0 <= k -> k <= 1 -> 0 <= pa * k <= 1).
  { intros k K0 K1. split; [apply Qmult_le_0_compat; assumption|].
    apply Qle_trans with (pa * 1); [|lra].
    rewrite (Qmult_comm pa k), (Qmult_comm pa 1).
    apply Qmult_le_compat_r; assumption. }
  repeat constructor; cbn [prim color a]; try reflexivity;
    apply Hk; discriminate.
Qed.

(** The [float] product of a [float] progress below 1 and a path length
    of at most two is below 2. *)
Lemma short_path_product (p : Q) (n : nat) :
  representable 24 p -> 0 <= p -> p < 1 -> (n <= 2)%nat ->
  f32 (p * inject_Z (Z.of_nat n)) < 2.
Proof.
  intros Hf Hp0 Hp1 Hn.
  assert (Hex : f32 (p * inject_Z (Z.of_nat n)) == p * inject_Z (Z.of_nat n)).
  { apply roundTo_exact. destruct Hf as (k & e & Eq & Hk).
    destruct n as [|[|[|n]]]; [| | |lia].
    - exists 0%Z, 0%Z. split; [cbn; ring | reflexivity].
    - exists k, e. split; [|assumption].
      change (inject_Z (Z.of_nat 1)) with 1. rewrite Eq. ring.
    - exists k, (e + 1)%Z. split; [|assumption].
      change (inject_Z (Z.of_nat 2)) with 2.
      rewrite Eq, pow2_add. change (pow2 1) with 2. ring. }
  rewrite Hex.
  assert (Hn2 : inject_Z (Z.of_nat n) <= 2).
  { change 2 with (inject_Z 2). rewrite <- Zle_Qle. lia. }
  assert (Hn0 : 0 <= inject_Z (Z.of_nat n)).
  { change 0 with (inject_Z 0). rewrite <- Zle_Qle. lia. }
  destruct (Qeq_dec (inject_Z (Z.of_nat n)) 0) as [E0|N0].
  - rewrite E0. lra.
  - apply Qlt_le_trans with (1 * inject_Z (Z.of_nat n)); [|lra].
    apply Qmult_lt_compat_r; [lra | assumption].
Qed.

(** In the marker window at least two points are visible exactly when
    the path has three points or more. *)
Lemma numPoints_in_window (m : Missile.t) :
  representable 24 (Missile.m_progress m) ->
  85 # 100 <= Missile.m_progress m -> Missile.m_progress m < 1 ->
  ((2 <= numPoints m)%Z <-> (3 <= length (Missile.m_path m))%nat).
Proof.
  intros Hf Hlo Hhi. unfold numPoints.
  set (n := length (Missile.m_path m)).
  set (p := Missile.m_progress m) in *.
  assert (Hn0 : 0 <= inject_Z (Z.of_nat n)).
  { change 0 with (inject_Z 0). rewrite <- Zle_Qle. lia. }
  assert (Hpn : 0 <= p * inject_Z (Z.of_nat n))
    by (apply Qmult_le_0_compat; lra).
  pose proof (roundTo_nonneg 24 _ Hpn) as Hr0.
  fold (f32 (p * inject_Z (Z.of_nat n))) in Hr0.
  unfold Qtrunc. apply Qle_bool_iff in Hr0 as Hb. rewrite Hb.
  split.
  - intros H2.
    destruct (Nat.le_gt_cases n 2) as [Hle|Hgt]; [exfalso|lia].
    pose proof (short_path_product p n Hf ltac:(lra) Hhi Hle) as Hs.
    pose proof (Qfloor_le (f32 (p * inject_Z (Z.of_nat n)))) as Hfl.
    rewrite Zle_Qle in H2. change (inject_Z 2) with 2 in H2. lra.
  - intros H3.
    assert (Hq : 3 <= inject_Z (Z.of_nat n)).
    { change 3 with (inject_Z 3). rewrite <- Zle_Qle. lia. }
    assert (Hge : (85 # 100) * 3 <= p * inject_Z (Z.of_nat n)).
    { apply Qle_trans with ((85 # 100) * inject_Z (Z.of_nat n)).
      - rewrite !(Qmult_comm (85 # 100)).
        apply Qmult_le_compat_r; [assumption | discriminate].
      - apply Qmult_le_compat_r; assumption. }
    pose proof (roundTo_error 24 (p * inject_Z (Z.of_nat n))) as He.
    fold (f32 (p * inject_Z (Z.of_nat n))) in He.
    change (pow2 (- (24))) with (1 # 16777216) in He.
    rewrite (Qabs_pos (p * inject_Z (Z.of_nat n))) in He by assumption.
    apply Qabs_Qle_condition in He.
    set (v := p * inject_Z (Z.of_nat n)) in *.
    assert (H2 : 2 <= f32 v) by (clearbody v; lra).
    change 2%Z with (Qfloor 2). now apply Qfloor_resp_le.
Qed.

(** A circle among the invocations of [draw] comes from the marker
    block, which is reached only with a path and two visible points. *)
Lemma draw_circle_from_marker (m : Missile.t) (call : DrawCall)
      (cx cy radius : Q) :
  In call (draw sin m) -> prim call = Circle cx cy radius ->
  In call (marker sin m)
  /\ Missile.m_path m <> [] /\ (2 <= numPoints m)%Z.
Proof.
  intros Hin Hp.
  assert (Hbase : forall cl, In cl (drawBase m (Missile.m_basePos m)) ->
                             prim cl <> Circle cx cy radius).
  { intros cl H. unfold drawBase, drawLineWithGlow in H.
    rewrite !in_app_iff in H.
    destruct H as [H|[H|H]]; apply glowLoop_prim in H; rewrite H; discriminate. }
  destruct (Missile.m_path m) as [|q0 path] eqn:Ep.
  { unfold draw in Hin. rewrite Ep in Hin. destruct Hin. }
  destruct (Z_lt_le_dec (numPoints m) 2) as [Hlt|Hge].
  { unfold draw in Hin. rewrite Ep in Hin.
    apply Z.ltb_lt in Hlt. rewrite Hlt in Hin.
    exfalso. exact (Hbase call Hin Hp). }
  assert (Hne : Missile.m_path m <> []) by (rewrite Ep; discriminate).
  rewrite (draw_unfold sin m Hne Hge) in Hin.
  rewrite !in_app_iff in Hin. destruct Hin as [H|[H|H]].
  - exfalso. exact (Hbase call H Hp).
  - apply pathCalls_In in H. destruct H as (s & _ & Hc).
    rewrite Hp in Hc. discriminate.
  - split; [assumption|]. split; [discriminate | assumption].
Qed.

(** X15.  For a missile whose progress is a [float], [Missile::draw]
    draws the pulsing target marker exactly when the path has at least
    three points and the progress is in [0.85, 1): with fewer points the
    routine returns before the marker block, since fewer than two points
    are visible.  Every circle that a missile draws belongs to the
    marker: it is centred at the last point of the path, has a radius
    between 10 and 15 pixels and an alpha between 0 and 1; the marker is
    the last three invocations, after the launch icon and the trail.
    When an update finishes the missile no circle is drawn any more, and
    the position at which the frame creates the explosion is the point
    that the marker showed. *)
Theorem target_marker_window (m : Missile.t)
        (Hfloat : representable 24 (Missile.m_progress m)) :
  (drawsCircle (draw sin m)
   <-> (3 <= length (Missile.m_path m))%nat
       /\ 85 # 100 <= Missile.m_progress m /\ Missile.m_progress m < 1)
  /\ (forall (call : DrawCall) (cx cy radius : Q),
         In call (draw sin m) -> prim call = Circle cx cy radius ->
         cx = x (terminalPoint m) /\ cy = y (terminalPoint m)
         /\ 10 <= radius <= 15 /\ 0 <= a (color call) <= 1)
  /\ ((3 <= length (Missile.m_path m))%nat ->
      85 # 100 <= Missile.m_progress m -> Missile.m_progress m < 1 ->
      draw sin m
      = drawBase m (Missile.m_basePos m)
        ++ pathCalls (Missile.m_color m) (VectorMap.splitPath (visiblePath m))
        ++ marker sin m
      /\ length (marker sin m) = 3%nat)
  /\ (forall dt : Q,
         Missile.isFinished (Missile.update dt m) = true ->
         Missile.m_path m <> [] ->
         ~ drawsCircle (draw sin (Missile.update dt m))
         /\ Missile.getPosition (Missile.update dt m) = terminalPoint m).
Proof.
  assert (Hdraw : (3 <= length (Missile.m_path m))%nat ->
                  85 # 100 <= Missile.m_progress m -> Missile.m_progress m < 1 ->
                  draw sin m
                  = drawBase m (Missile.m_basePos m)
                    ++ pathCalls (Missile.m_color m)
                                 (VectorMap.splitPath (visiblePath m))
                    ++ marker sin m
                  /\ length (marker sin m) = 3%nat).
  { intros H3 Hlo Hhi.
    assert (Hne : Missile.m_path m <> [])
      by (destruct (Missile.m_path m); [simpl in H3; lia | discriminate]).
    split.
    - apply draw_unfold; [assumption|].
      now apply (numPoints_in_window m Hfloat Hlo Hhi).
    - destruct (marker_shape m) as (radius & _ & _ & Hlen).
      apply Hlen. apply (marker_window m Hfloat). split; assumption. }
  split; [|split; [|split; [exact Hdraw|]]].
  - split.
    + intros (call & cx & cy & radius & Hin & Hp).
      destruct (draw_circle_from_marker m call cx cy radius Hin Hp)
        as (Hm & Hne & Hn).
      assert (Hw : marker sin m <> []) by (intros E; rewrite E in Hm; destruct Hm).
      apply (marker_window m Hfloat) in Hw. destruct Hw as [Hlo Hhi].
      split; [|split; assumption].
      now apply (numPoints_in_window m Hfloat Hlo Hhi).
    + intros (H3 & Hlo & Hhi). destruct (Hdraw H3 Hlo Hhi) as [Hd Hl].
      destruct (marker_shape m) as (radius & _ & Hall & _).
      destruct (marker sin m) as [|call rest] eqn:Em; [discriminate Hl|].
      exists call, (x (terminalPoint m)), (y (terminalPoint m)), radius.
      split.
      * rewrite Hd. rewrite !in_app_iff. right. right. now left.
      * inversion Hall as [|? ? [Hc _] _]. exact Hc.
  - intros call cx cy radius Hin Hp.
    destruct (draw_circle_from_marker m call cx cy radius Hin Hp) as (Hm & _ & _).
    destruct (marker_shape m) as (rad & Hr & Hall & _).
    rewrite Forall_forall in Hall. destruct (Hall call Hm) as [Hc Ha].
    rewrite Hp in Hc. injection Hc as -> -> ->.
    split; [reflexivity|]. split; [reflexivity|]. split; assumption.
  - intros dt Hf Hne. split; [|now apply finished_at_terminal].
    intros (call & cx & cy & radius & Hin & Hp).
    assert (Hm : In call (marker sin (Missile.update dt m)))
      by exact (proj1 (draw_circle_from_marker _ _ _ _ _ Hin Hp)).
    unfold marker in Hm. apply Qle_bool_iff in Hf.
    destruct (Qlt_bool (Missile.m_progress (Missile.update dt m)) 1) eqn:E.
    + apply Qlt_bool_iff in E. lra.
    + rewrite andb_false_r in Hm. destruct Hm.
Qed.

End TargetMarker.

Lemma target_marker_window_witness :
  let path := [Common.mkPoint 100 200; Common.mkPoint 200 300;
               Common.mkPoint 300 400] in
  let m := Missile.mk path (Common.mkPoint 100 200) Common.RED (7 # 8) 12 in
  length (MissileDraw.marker (fun _ => 0) m) = 3%nat
  /\ MissileDraw.drawsCircle (MissileDraw.draw (fun _ => 0) m).
Proof.
  intros path m.
  assert (Hs : forall q : Q, -(1) <= (fun _ : Q => 0) q <= 1)
    by (intros q; split; discriminate).
  assert (Hfl : representable 24 (Missile.m_progress m)).
  { exists 7%Z, (-3)%Z. split; reflexivity. }
  assert (H3 : (3 <= length (Missile.m_path m))%nat) by (simpl; lia).
  assert (Hlo : 85 # 100 <= Missile.m_progress m) by discriminate.
  assert (Hhi : Missile.m_progress m < 1) by reflexivity.
  destruct (target_marker_window (fun _ => 0) Hs m Hfl) as (Hiff & _ & Hd & _).
  split.
  - exact (proj2 (Hd H3 Hlo Hhi)).
  - apply (proj2 Hiff). split; [exact H3|]. split; assumption.
Defined.

(* ----------------------------------------------------------------- *)
(** ** The aircraft loop *)

Section AircraftLoop.
Import Common Renderer AircraftDraw.

Lemma inject_nat_succ (f : nat) :
  inject_Z (Z.of_nat (S f)) == inject_Z (Z.of_nat f) + 1.
Proof. rewrite Nat2Z.inj_succ, <- Z.add_1_r, inject_Z_plus. reflexivity. Qed.

Lemma inject_nat_nonneg (f : nat) : 0 <= inject_Z (Z.of_nat f).
Proof.
  change 0 with (inject_Z 0). rewrite <- Zle_Qle. apply Nat2Z.is_nonneg.
Qed.

Lemma wrapDown_spec (f : nat) :
  forall lo : Q,
    lo <= 180 + 360 * inject_Z (Z.of_nat f) ->
    exists (l : Q) (k : nat),
      wrapDown (S f) lo = Some l
      /\ l == lo - 360 * inject_Z (Z.of_nat k)
      /\ l <= 180
      /\ (lo <= 180 -> l = lo)
      /\ (180 < lo -> -180 < l).
Proof.
  induction f as [|f IH]; intros lo Hb.
  - change (inject_Z (Z.of_nat 0)) with 0 in Hb.
    exists lo, O. cbn [wrapDown].
    destruct (Qlt_bool 180 lo) eqn:E; [apply Qlt_bool_iff in E; exfalso; lra|].
    change (inject_Z (Z.of_nat 0)) with 0.
    split; [reflexivity|]. split; [ring|]. split; [lra|].
    split; [reflexivity | intros; exfalso; lra].
  - rewrite inject_nat_succ in Hb.
    change (wrapDown (S (S f)) lo)
      with (if Qlt_bool 180 lo then wrapDown (S f) (lo - 360) else Some lo).
    destruct (Qlt_bool 180 lo) eqn:E.
    + apply Qlt_bool_iff in E.
      destruct (IH (lo - 360)) as (l & k & Hw & Hl & Hu & Hsame & Hlow); [lra|].
      exists l, (S k). split; [assumption|]. rewrite inject_nat_succ.
      split; [rewrite Hl; ring|]. split; [assumption|].
      split; [intros; exfalso; lra|]. intros _.
      destruct (Qlt_le_dec 180 (lo - 360)) as [Hbig|Hsmall].
      * now apply Hlow.
      * rewrite (Hsame Hsmall). lra.
    + apply Qlt_bool_false_iff in E. exists lo, O.
      change (inject_Z (Z.of_nat 0)) with 0.
      split; [reflexivity|]. split; [ring|]. split; [assumption|].
      split; [reflexivity | intros; exfalso; lra].
Qed.

Lemma wrapUp_spec (f : nat) :
  forall lo : Q,
    -180 - 360 * inject_Z (Z.of_nat f) <= lo ->
    exists (l : Q) (k : nat),
      wrapUp (S f) lo = Some l
      /\ l == lo + 360 * inject_Z (Z.of_nat k)
      /\ -180 <= l
      /\ (-180 <= lo -> l = lo)
      /\ (lo < -180 -> l < 180).
Proof.
  induction f as [|f IH]; intros lo Hb.
  - change (inject_Z (Z.of_nat 0)) with 0 in Hb.
    exists lo, O. cbn [wrapUp].
    destruct (Qlt_bool lo (-180)) eqn:E; [apply Qlt_bool_iff in E; exfalso; lra|].
    change (inject_Z (Z.of_nat 0)) with 0.
    split; [reflexivity|]. split; [ring|]. split; [lra|].
    split; [reflexivity | intros; exfalso; lra].
  - rewrite inject_nat_succ in Hb.
    change (wrapUp (S (S f)) lo)
      with (if Qlt_bool lo (-180) then wrapUp (S f) (lo + 360) else Some lo).
    destruct (Qlt_bool lo (-180)) eqn:E.
    + apply Qlt_bool_iff in E.
      destruct (IH (lo + 360)) as (l & k & Hw & Hl & Hu & Hsame & Hlow); [lra|].
      exists l, (S k). split; [assumption|]. rewrite inject_nat_succ.
      split; [rewrite Hl; ring|]. split; [assumption|].
      split; [intros; exfalso; lra|]. intros _.
      destruct (Qlt_le_dec (lo + 360) (-180)) as [Hbig|Hsmall].
      * now apply Hlow.
      * rewrite (Hsame Hsmall). lra.
    + apply Qlt_bool_false_iff in E. exists lo, O.
      change (inject_Z (Z.of_nat 0)) with 0.
      split; [reflexivity|]. split; [ring|]. split; [assumption|].
      split; [reflexivity | intros; exfalso; lra].
Qed.

Lemma fuelFor_enough (bound : Q) (fuel : nat) :
  (fuelFor bound <= fuel)%nat ->
  exists f, fuel = S f /\ bound <= 360 * inject_Z (Z.of_nat f).
Proof.
  unfold fuelFor. intros H. destruct fuel as [|f]; [lia|].
  exists f. split; [reflexivity|].
  assert (Hz : (Qceiling (bound / 360) <= Z.of_nat f)%Z) by lia.
  rewrite Zle_Qle in Hz. pose proof (Qle_ceiling (bound / 360)) as Hc.
  assert (Hq : bound / 360 <= inject_Z (Z.of_nat f)) by lra.
  assert (E : bound == 360 * (bound / 360)) by field. rewrite E. lra.
Qed.

Lemma wrapLongitude_spec (fuel : nat) (bound lo : Q) :
  (fuelFor bound <= fuel)%nat -> Qabs lo <= bound ->
  exists (l : Q) (k : Z),
    wrapLongitude fuel lo = Some l
    /\ l == lo + 360 * inject_Z k
    /\ -180 <= l <= 180
    /\ (-180 <= lo <= 180 -> l = lo).
Proof.
  intros Hf Hb. destruct (fuelFor_enough bound fuel Hf) as (f & -> & Hq).
  apply Qabs_Qle_condition in Hb. destruct Hb as [Hb1 Hb2].
  pose proof (inject_nat_nonneg f) as Hnn.
  destruct (wrapDown_spec f lo) as (l1 & k1 & Hw1 & Hl1 & Hu1 & Hs1 & Hlo1); [lra|].
  assert (Hfuel2 : -180 - 360 * inject_Z (Z.of_nat f) <= l1).
  { destruct (Qlt_le_dec 180 lo) as [Hbig|Hsmall].
    - specialize (Hlo1 Hbig). lra.
    - rewrite (Hs1 Hsmall). lra. }
  destruct (wrapUp_spec f l1 Hfuel2) as (l & k2 & Hw2 & Hl2 & Hu2 & Hs2 & Hlo2).
  exists l, (Z.of_nat k2 - Z.of_nat k1)%Z.
  unfold wrapLongitude. rewrite Hw1. split; [assumption|].
  split; [|split; [split; [assumption|]|]].
  - rewrite Hl2, Hl1. unfold Zminus. rewrite inject_Z_plus, inject_Z_opp. ring.
  - destruct (Qlt_le_dec l1 (-180)) as [Hx|Hx].
    + specialize (Hlo2 Hx). lra.
    + rewrite (Hs2 Hx). assumption.
  - intros [H1 H2]. pose proof (Hs1 H2) as E1. subst l1. now apply Hs2.
Qed.

(** X16.  For a longitude of at most [2^53] in absolute value, the range
    in which subtracting and adding 360 is exact for a [double],
    [wrapLongitude] ends and returns the longitude shifted by a whole
    number of turns into [-180, 180]; a longitude already in that range is
    returned as it is.  The two loops together test their conditions at
    most [2 * (2 + |lon| / 360)] times. *)
Theorem wrapLongitude_normalises (lo : Q) (fuel : nat)
        (Hrange : Qabs lo <= 9007199254740992)
        (Hfuel : (fuelFor (Qabs lo) <= fuel)%nat) :
  exists (l : Q) (k : Z),
    wrapLongitude fuel lo = Some l
    /\ l == lo + 360 * inject_Z k
    /\ -180 <= l <= 180
    /\ (-180 <= lo <= 180 -> l = lo).
Proof. apply (wrapLongitude_spec fuel (Qabs lo) lo Hfuel). apply Qle_refl. Qed.

Lemma wrapLongitude_normalises_witness :
  exists (l : Q) (k : Z),
    wrapLongitude 3 550 = Some l
    /\ l == 550 + 360 * inject_Z k
    /\ -180 <= l <= 180.
Proof.
  assert (Hrange : Qabs 550 <= 9007199254740992) by discriminate.
  assert (Hfuel : (fuelFor (Qabs 550) <= 3)%nat) by (vm_compute; lia).
  destruct (wrapLongitude_normalises 550 3 Hrange Hfuel)
    as (l & k & H1 & H2 & H3 & _).
  exists l, k. split; [assumption|]. split; assumption.
Defined.

Section Loop.
Variables sin cos : Q -> Q.
Variable M_PI : Q.
Hypothesis cos_range : forall q, -(1) <= cos q <= 1.

Lemma Qabs_mult_unit (radius u : Q) :
  -(1) <= u <= 1 -> Qabs (radius * u) <= Qabs radius.
Proof.
  intros Hu. rewrite Qabs_Qmult.
  assert (H1 : Qabs u <= 1) by (apply Qabs_Qle_condition; lra).
  pose proof (Qabs_nonneg radius).
  apply Qle_trans with (Qabs radius * 1); [|lra].
  rewrite (Qmult_comm (Qabs radius) (Qabs u)), (Qmult_comm (Qabs radius) 1).
  apply Qmult_le_compat_r; assumption.
Qed.

Lemma loopPoint_spec (fuel : nat) (center : LatLon) (radiusDeg : Q)
      (samples : Z) (i : nat) :
  (fuelFor (Qabs (lon center) + Qabs radiusDeg) <= fuel)%nat ->
  exists p : Point,
    loopPoint sin cos M_PI fuel center radiusDeg samples i = Some p
    /\ 0 <= x p <= inject_Z SCREEN_WIDTH
    /\ y p == (90 - (lat center
                     + radiusDeg
                       * sin (inject_Z (Z.of_nat i) / inject_Z samples * 2 * M_PI)))
              / 180 * inject_Z SCREEN_HEIGHT.
Proof.
  intros Hf. unfold loopPoint.
  set (angle := inject_Z (Z.of_nat i) / inject_Z samples * 2 * M_PI).
  assert (Hb : Qabs (lon center + radiusDeg * cos angle)
               <= Qabs (lon center) + Qabs radiusDeg).
  { eapply Qle_trans; [apply Qabs_triangle|].
    pose proof (Qabs_mult_unit radiusDeg (cos angle) (cos_range angle)). lra. }
  destruct (wrapLongitude_spec fuel _ _ Hf Hb) as (l & k & Hw & _ & [Hl Hu] & _).
  rewrite Hw. eexists. split; [reflexivity|].
  unfold lonlat_to_xy, SCREEN_WIDTH, SCREEN_HEIGHT. cbn [x y].
  split; [|reflexivity].
  assert (E : (l + 180) / 360 * inject_Z 1920 == (l + 180) * (1920 # 360))
    by (field). rewrite E.
  assert (E2 : inject_Z 1920 == 360 * (1920 # 360)) by reflexivity.
  rewrite E2. split; lra.
Qed.

Lemma buildPoints_spec (fuel : nat) (center : LatLon) (radiusDeg : Q)
      (samples : Z) (idxs : list nat) :
  (fuelFor (Qabs (lon center) + Qabs radiusDeg) <= fuel)%nat ->
  exists path : list Point,
    buildPoints sin cos M_PI fuel center radiusDeg samples idxs = Some path
    /\ length path = length idxs
    /\ Forall (fun p => 0 <= x p <= inject_Z SCREEN_WIDTH) path
    /\ ((forall q, -(1) <= sin q <= 1) ->
        Qabs (lat center) + Qabs radiusDeg <= 90 ->
        Forall (fun p => 0 <= y p <= inject_Z SCREEN_HEIGHT) path).
Proof.
  intros Hfuel. induction idxs as [|i idxs IH].
  - exists []. cbn [buildPoints length].
    split; [reflexivity|]. split; [reflexivity|]. split; [constructor|].
    intros _ _. constructor.
  - destruct IH as (ps & Hps & Hlen & Hx & Hy).
    destruct (loopPoint_spec fuel center radiusDeg samples i Hfuel)
      as (p & Hp & Hpx & Hpy).
    exists (p :: ps). cbn [buildPoints]. rewrite Hp, Hps.
    split; [reflexivity|]. split; [cbn [length]; now rewrite Hlen|].
    split; [constructor; assumption|].
    intros Hsin Hlat. constructor; [|now apply Hy].
    rewrite Hpy. unfold SCREEN_HEIGHT.
    set (angle := inject_Z (Z.of_nat i) / inject_Z samples * 2 * M_PI).
    pose proof (Qabs_mult_unit radiusDeg (sin angle) (Hsin angle)) as Hr.
    set (d := radiusDeg * sin angle) in *. clearbody d.
    assert (Hd : Qabs (lat center + d) <= 90).
    { eapply Qle_trans; [apply Qabs_triangle|]. lra. }
    apply Qabs_Qle_condition in Hd. destruct Hd as [Hd1 Hd2].
    set (la := lat center + d) in *. clearbody la.
    assert (E : (90 - la) / 180 * inject_Z 1080 == (90 - la) * 6) by field.
    rewrite E.
    assert (E2 : inject_Z 1080 == 180 * 6) by reflexivity.
    rewrite E2. split; lra.
Qed.

(** X17.  [Aircraft::buildLoop] yields exactly [samples] points, and
    every one of them lies between the left and the right edge of the
    screen, because its longitude is wrapped before it is projected.  The
    latitude is not wrapped: a loop whose centre latitude plus radius stays
    within [-90, 90] also lies between the top and the bottom edge. *)
Theorem buildLoop_on_screen (fuel : nat) (center : LatLon) (radiusDeg : Q)
        (samples : Z)
        (Hfuel : (fuelFor (Qabs (lon center) + Qabs radiusDeg) <= fuel)%nat) :
  exists path : list Point,
    buildLoop sin cos M_PI fuel center radiusDeg samples = Some path
    /\ length path = Z.to_nat samples
    /\ Forall (fun p => 0 <= x p <= inject_Z SCREEN_WIDTH) path
    /\ ((forall q, -(1) <= sin q <= 1) ->
        Qabs (lat center) + Qabs radiusDeg <= 90 ->
        Forall (fun p => 0 <= y p <= inject_Z SCREEN_HEIGHT) path).
Proof.
  unfold buildLoop.
  destruct (buildPoints_spec fuel center radiusDeg samples
                             (seq 0 (Z.to_nat samples)) Hfuel)
    as (path & Hp & Hl & Hx & Hy).
  exists path. rewrite length_seq in Hl. split; [assumption|].
  split; [assumption|]. split; assumption.
Qed.

End Loop.

Lemma buildLoop_on_screen_witness :
  exists path : list Point,
    buildLoop (fun _ => 0) (fun _ => 1) (355 # 113) 2 (mkLatLon 60 175) 12 240
    = Some path
    /\ length path = 240%nat
    /\ Forall (fun p => 0 <= x p <= inject_Z SCREEN_WIDTH) path.
Proof.
  assert (Hcos : forall q : Q, -(1) <= (fun _ : Q => 1) q <= 1)
    by (intros q; split; discriminate).
  assert (Hfuel : (fuelFor (Qabs (lon (mkLatLon 60 175)) + Qabs 12) <= 2)%nat)
    by (vm_compute; lia).
  destruct (buildLoop_on_screen (fun _ => 0) (fun _ => 1) (355 # 113) Hcos
                                2 (mkLatLon 60 175) 12 240 Hfuel)
    as (path & Hp & Hl & Hx & _).
  exists path. split; [assumption|]. split; assumption.
Defined.



End AircraftLoop.

(* ----------------------------------------------------------------- *)
(** ** The post-processing shaders *)

Section PostProcessing.
Import Composite PostShaders.

Lemma bloom_channel (f : vec4 -> Q) (tex : sampler2D)
      (resolution direction TexCoord : vec2) (lo hi : Q) :
  f (mkVec4 0 0 0 0) = 0 ->
  (forall p q, f (vadd p q) = f p + f q) ->
  (forall p k, f (vscale p k) = f p * k) ->
  (forall p, lo <= f (tex p) <= hi) ->
  (9999994 # 10000000) * lo <= f (bloom tex resolution direction TexCoord)
  /\ f (bloom tex resolution direction TexCoord) <= (9999994 # 10000000) * hi.
Proof.
  intros H0 Hadd Hscale Hb.
  unfold bloom. cbn [seq fold_left]. unfold bloomStep.
  cbn [nth weights].
  rewrite !Hadd, !Hscale, H0.
  repeat match goal with
         | |- context [f (tex ?p)] =>
             let c := fresh "c" in
             let Hc := fresh "Hc" in
             pose proof (Hb p) as Hc; set (c := f (tex p)) in *; clearbody c
         end.
  split; lra.
Qed.

(** X19.  The blur pass is a weighted sum of nine samples along the blur
    direction whose weights add up to 0.9999994.  If every channel of the
    texture lies between [lo] and [hi], every channel of the result lies
    between [0.9999994 * lo] and [0.9999994 * hi]: the pass cannot
    brighten a channel beyond the brightest sample.  On a texture of one
    colour the result is that colour times 0.9999994, whatever the
    resolution and the direction. *)
Theorem bloom_is_weighted_average (tex : sampler2D)
        (resolution direction TexCoord : vec2) :
  (forall lo hi : Q,
      (forall p, within lo hi (tex p)) ->
      within ((9999994 # 10000000) * lo) ((9999994 # 10000000) * hi)
             (bloom tex resolution direction TexCoord))
  /\ (forall c : vec4,
         (forall p, tex p = c) ->
         scaled (9999994 # 10000000) c
                (bloom tex resolution direction TexCoord)).
Proof.
  assert (Hw : forall lo hi : Q,
             (forall p, within lo hi (tex p)) ->
             within ((9999994 # 10000000) * lo) ((9999994 # 10000000) * hi)
                    (bloom tex resolution direction TexCoord)).
  { intros lo hi H. unfold within.
    split; [|split; [|split]].
    - apply (bloom_channel cr); try reflexivity. intros p. apply (H p).
    - apply (bloom_channel cg); try reflexivity. intros p. apply (H p).
    - apply (bloom_channel cb); try reflexivity. intros p. apply (H p).
    - apply (bloom_channel ca); try reflexivity. intros p. apply (H p). }
  split; [exact Hw|].
  intros c Hc. unfold scaled.
  split; [|split; [|split]].
  - assert (Hb : forall p, cr c <= cr (tex p) <= cr c)
      by (intros p; rewrite Hc; split; apply Qle_refl).
    destruct (bloom_channel cr tex resolution direction TexCoord (cr c) (cr c)
                            eq_refl (fun _ _ => eq_refl) (fun _ _ => eq_refl) Hb).
    now apply Qle_antisym.
  - assert (Hb : forall p, cg c <= cg (tex p) <= cg c)
      by (intros p; rewrite Hc; split; apply Qle_refl).
    destruct (bloom_channel cg tex resolution direction TexCoord (cg c) (cg c)
                            eq_refl (fun _ _ => eq_refl) (fun _ _ => eq_refl) Hb).
    now apply Qle_antisym.
  - assert (Hb : forall p, cb c <= cb (tex p) <= cb c)
      by (intros p; rewrite Hc; split; apply Qle_refl).
    destruct (bloom_channel cb tex resolution direction TexCoord (cb c) (cb c)
                            eq_refl (fun _ _ => eq_refl) (fun _ _ => eq_refl) Hb).
    now apply Qle_antisym.
  - assert (Hb : forall p, ca c <= ca (tex p) <= ca c)
      by (intros p; rewrite Hc; split; apply Qle_refl).
    destruct (bloom_channel ca tex resolution direction TexCoord (ca c) (ca c)
                            eq_refl (fun _ _ => eq_refl) (fun _ _ => eq_refl) Hb).
    now apply Qle_antisym.
Qed.

Lemma bloom_is_weighted_average_witness :
  let tex : sampler2D := fun _ => mkVec4 (1 # 4) (3 # 4) (1 # 2) 1 in
  within ((9999994 # 10000000) * 0) ((9999994 # 10000000) * 1)
         (bloom tex (mkVec2 1920 1080) (mkVec2 1 0) (mkVec2 (1 # 4) (3 # 4))).
Proof.
  intros tex.
  apply (proj1 (bloom_is_weighted_average
                  tex (mkVec2 1920 1080) (mkVec2 1 0) (mkVec2 (1 # 4) (3 # 4)))
               0 1).
  intros p. unfold within, tex. cbn [cr cg cb ca].
  split; [|split; [|split]]; split; discriminate.
Defined.

End PostProcessing.

Section BarrelAndChromatic.
Import Composite PostShaders.
Variable length : vec2 -> Q.

Lemma Qsquare_nonneg (q : Q) : 0 <= q * q.
Proof.
  destruct (Qlt_le_dec q 0) as [H|H].
  - assert (E : q * q == (- q) * (- q)) by ring. rewrite E.
    apply Qmult_le_0_compat; lra.
  - apply Qmult_le_0_compat; assumption.
Qed.

Lemma Qabs_factor (c f : Q) : 1 <= f -> Qabs c <= Qabs (c * f).
Proof.
  intros Hf. rewrite Qabs_Qmult. rewrite (Qabs_pos f) by lra.
  pose proof (Qabs_nonneg c) as Hc.
  apply Qle_trans with (Qabs c * 1); [lra|].
  rewrite (Qmult_comm (Qabs c) 1), (Qmult_comm (Qabs c) f).
  apply Qmult_le_compat_r; assumption.
Qed.

(** X20.  The barrel pass reads the texture only inside the unit square:
    its result is opaque black or the texture at the distorted coordinate,
    and then that coordinate is in [0, 1] x [0, 1].  The distorted
    coordinate of the screen centre is the centre, for every distortion;
    with distortion 0 every coordinate is its own distorted coordinate;
    with a distortion >= 0 the distorted coordinate is at least as far from
    the centre as the pixel, in both axes, whatever [length] returns.
    Hence a screen corner is black as soon as the distortion is positive
    and the length of the half diagonal is not 0. *)
Theorem barrel_reads_inside (tex : sampler2D) (distortion : Q) (uv : vec2) :
  (barrel length tex distortion uv = mkVec4 0 0 0 1
   \/ (barrel length tex distortion uv = tex (barrelPoint length distortion uv)
       /\ 0 <= u (barrelPoint length distortion uv) <= 1
       /\ 0 <= v (barrelPoint length distortion uv) <= 1))
  /\ (u uv == 1 # 2 -> v uv == 1 # 2 ->
      u (barrelPoint length distortion uv) == 1 # 2
      /\ v (barrelPoint length distortion uv) == 1 # 2)
  /\ (distortion == 0 ->
      u (barrelPoint length distortion uv) == u uv
      /\ v (barrelPoint length distortion uv) == v uv)
  /\ (0 <= distortion ->
      Qabs (u uv - (1 # 2)) <= Qabs (u (barrelPoint length distortion uv) - (1 # 2))
      /\ Qabs (v uv - (1 # 2)) <= Qabs (v (barrelPoint length distortion uv) - (1 # 2)))
  /\ (0 < distortion ->
      ~ length (mkVec2 (0 - (5 # 10)) (0 - (5 # 10))) == 0 ->
      barrel length tex distortion (mkVec2 0 0) = mkVec4 0 0 0 1).
Proof.
  split; [|split; [|split; [|split]]].
  - unfold barrel.
    destruct (Qlt_bool (u (barrelPoint length distortion uv)) 0) eqn:E1;
      [now left|].
    destruct (Qlt_bool 1 (u (barrelPoint length distortion uv))) eqn:E2;
      [now left|].
    destruct (Qlt_bool (v (barrelPoint length distortion uv)) 0) eqn:E3;
      [now left|].
    destruct (Qlt_bool 1 (v (barrelPoint length distortion uv))) eqn:E4;
      [now left|].
    right. cbn [orb]. apply Qlt_bool_false_iff in E1, E2, E3, E4.
    split; [reflexivity|]. split; split; assumption.
  - intros Hu Hv. unfold barrelPoint. cbn [u v].
    set (f := 1 + _ * _ * distortion). clearbody f.
    split; [rewrite Hu | rewrite Hv]; ring.
  - intros Hd. unfold barrelPoint. cbn [u v].
    set (d := length _). clearbody d. split; rewrite Hd; ring.
  - intros Hd. unfold barrelPoint. cbn [u v].
    set (d := length _). clearbody d.
    assert (Hf : 1 <= 1 + d * d * distortion).
    { pose proof (Qsquare_nonneg d).
      assert (0 <= d * d * distortion) by (apply Qmult_le_0_compat; assumption).
      lra. }
    set (f := 1 + d * d * distortion) in *. clearbody f.
    split.
    + assert (E : (5 # 10) + (u uv - (5 # 10)) * f - (1 # 2)
                  == (u uv - (1 # 2)) * f) by ring.
      rewrite E. now apply Qabs_factor.
    + assert (E : (5 # 10) + (v uv - (5 # 10)) * f - (1 # 2)
                  == (v uv - (1 # 2)) * f) by ring.
      rewrite E. now apply Qabs_factor.
  - intros Hd Hl. unfold barrel.
    assert (Hneg : u (barrelPoint length distortion (mkVec2 0 0)) < 0).
    { unfold barrelPoint. cbn [u v].
      set (d := length _) in *. clearbody d.
      assert (Hsq : 0 < d * d).
      { destruct (Qlt_le_dec 0 (d * d)) as [H|H]; [assumption|].
        exfalso. apply Hl.
        pose proof (Qsquare_nonneg d) as Hn.
        assert (Hz : d * d == 0) by (apply Qle_antisym; assumption).
        apply Qmult_integral in Hz. tauto. }
      assert (Hp : 0 < d * d * distortion).
      { apply Qmult_lt_0_compat; assumption. }
      set (e := d * d * distortion) in *. clearbody e. lra. }
    apply Qlt_bool_iff in Hneg. rewrite Hneg. reflexivity.
Qed.

End BarrelAndChromatic.

Lemma barrel_reads_inside_witness :
  Qabs ((1 # 10) - (1 # 2))
  <= Qabs (Composite.u (PostShaders.barrelPoint
                          (fun _ => 1 # 2) (2 # 10)
                          (Composite.mkVec2 (1 # 10) (4 # 5))) - (1 # 2)).
Proof.
  assert (Hd : 0 <= 2 # 10) by discriminate.
  exact (proj1 (proj1 (proj2 (proj2 (proj2
           (barrel_reads_inside (fun _ => 1 # 2) (fun p => Composite.mkVec4 0 0 0 0)
                                (2 # 10) (Composite.mkVec2 (1 # 10) (4 # 5))))))
               Hd)).
Defined.

Section Chromatic.
Import Composite PostShaders.

(** X21.  The chromatic pass always returns an opaque pixel, whatever
    the alpha of the texture, and leaves the green channel where it is.
    Red and blue are read at two points placed symmetrically about the
    pixel; for a pixel of the unit square they are at most
    [|intensity| * 0.005] away from it in each axis, and they coincide with
    the pixel at the screen centre and when the intensity is 0. *)
Theorem chromatic_shift_bounds (tex : sampler2D) (intensity : Q) (uv : vec2) :
  ca (chromatic tex intensity uv) = 1
  /\ cg (chromatic tex intensity uv) = cg (tex uv)
  /\ (0 <= u uv <= 1 -> 0 <= v uv <= 1 ->
      Qabs (u (chromaticOffset intensity uv)) <= Qabs intensity * (5 # 1000)
      /\ Qabs (v (chromaticOffset intensity uv)) <= Qabs intensity * (5 # 1000))
  /\ (intensity == 0 \/ (u uv == 1 # 2 /\ v uv == 1 # 2) ->
      u (chromaticOffset intensity uv) == 0
      /\ v (chromaticOffset intensity uv) == 0).
Proof.
  split; [reflexivity|]. split; [reflexivity|]. split.
  - assert (Hb : forall c : Q, 0 <= c <= 1 ->
                 Qabs ((c - (5 # 10)) * intensity * (1 # 100))
                 <= Qabs intensity * (5 # 1000)).
    { intros c Hc. rewrite !Qabs_Qmult.
      assert (H1 : Qabs (c - (5 # 10)) <= 1 # 2)
        by (apply Qabs_Qle_condition; lra).
      assert (E1 : Qabs (1 # 100) == 1 # 100) by reflexivity. rewrite E1.
      pose proof (Qabs_nonneg intensity) as Hi.
      assert (H2 : Qabs (c - (5 # 10)) * Qabs intensity
                   <= (1 # 2) * Qabs intensity)
        by (apply Qmult_le_compat_r; assumption).
      set (t := Qabs (c - (5 # 10)) * Qabs intensity) in *. clearbody t.
      set (ai := Qabs intensity) in *. clearbody ai. lra. }
    intros Hu Hv. unfold chromaticOffset. cbn [u v].
    split; apply Hb; assumption.
  - unfold chromaticOffset. cbn [u v]. intros [H|[Hu Hv]].
    + split; rewrite H; ring.
    + split; [rewrite Hu | rewrite Hv]; ring.
Qed.

Lemma chromatic_shift_bounds_witness :
  let uv := mkVec2 1 0 in
  Qabs (u (chromaticOffset 2 uv)) <= Qabs 2 * (5 # 1000)
  /\ Qabs (v (chromaticOffset 2 uv)) <= Qabs 2 * (5 # 1000).
Proof.
  intros uv.
  apply (proj1 (proj2 (proj2
           (chromatic_shift_bounds (fun p => mkVec4 (u p) (v p) 0 0) 2 uv)))).
  - split; discriminate.
  - split; discriminate.
Defined.

End Chromatic.

(* ----------------------------------------------------------------- *)
(** ** Projection matrices *)

Section Projections.
Import Matrices.

(** X22.  For a canvas of non-zero width and height the matrix of the
    web renderer, [createOrthographicProjection(0, width, height, 0)], and
    the matrix that the C++ renderer uploads are equal entry by entry, and
    the vertex shader sends the pixel [(x, y)] to
    [(2x/width - 1, 1 - 2y/height, 0, 1)]: the top left pixel to [(-1, 1)],
    and every pixel of the canvas into the clip square. *)
Theorem pixel_projection (width height : Q)
        (Hw : ~ width == 0) (Hh : ~ height == 0) :
  mat4_eq (getProjectionMatrix width height) (ortho width height)
  /\ (forall px py : Q,
         gvec4_eq (vertexPosition (getProjectionMatrix width height) px py)
                  (mkG (2 * px / width - 1) (1 - 2 * py / height) 0 1))
  /\ gvec4_eq (vertexPosition (getProjectionMatrix width height) 0 0)
              (mkG (-1) 1 0 1)
  /\ (forall px py : Q,
         0 < width -> 0 < height ->
         0 <= px <= width -> 0 <= py <= height ->
         -1 <= gx (vertexPosition (getProjectionMatrix width height) px py) <= 1
         /\ -1 <= gy (vertexPosition (getProjectionMatrix width height) px py) <= 1).
Proof.
  assert (Hpos : forall px py : Q,
             gvec4_eq (vertexPosition (getProjectionMatrix width height) px py)
                      (mkG (2 * px / width - 1) (1 - 2 * py / height) 0 1)).
  { intros px py.
    unfold gvec4_eq, vertexPosition, mulMV, getProjectionMatrix,
      createOrthographicProjection, get.
    cbn [nth gx gy gz gw].
    split; [field; assumption|]. split; [field; assumption|].
    split; [field | ring]. }
  split; [|split; [exact Hpos|split]].
  - unfold mat4_eq, getProjectionMatrix, createOrthographicProjection, ortho.
    repeat constructor; try reflexivity; try (field; assumption).
  - destruct (Hpos 0 0) as (H1 & H2 & H3 & H4).
    unfold gvec4_eq. cbn [gx gy gz gw] in *.
    split; [rewrite H1; field; assumption|].
    split; [rewrite H2; field; assumption|]. split; assumption.
  - intros px py Hw0 Hh0 Hx Hy.
    destruct (Hpos px py) as (H1 & H2 & _). cbn [gx gy] in H1, H2.
    rewrite H1, H2.
    assert (Hxw : 0 <= px / width <= 1).
    { split; [apply Qle_shift_div_l; lra | apply Qle_shift_div_r; lra]. }
    assert (Hyh : 0 <= py / height <= 1).
    { split; [apply Qle_shift_div_l; lra | apply Qle_shift_div_r; lra]. }
    assert (E1 : 2 * px / width == 2 * (px / width)) by (field; assumption).
    assert (E2 : 2 * py / height == 2 * (py / height)) by (field; assumption).
    rewrite E1, E2.
    set (a := px / width) in *. set (b := py / height) in *.
    clearbody a b. split; split; lra.
Qed.

Lemma pixel_projection_witness :
  gvec4_eq (vertexPosition (getProjectionMatrix 1920 1080) 0 0)
           (mkG (-1) 1 0 1).
Proof.
  assert (Hw : ~ 1920 == 0) by discriminate.
  assert (Hh : ~ 1080 == 0) by discriminate.
  exact (proj1 (proj2 (proj2 (pixel_projection 1920 1080 Hw Hh)))).
Defined.

Ltac sixteen m :=
  do 16 (destruct m as [|? m]; [discriminate|]);
  destruct m; [|discriminate].

(** X23.  [mat4Multiply(a, b)] returns 16 entries; under the
    column-major convention with which the matrices are uploaded it is the
    transformation that applies [a] first and [b] second:
    [mat4Multiply(a, b) * p = b * (a * p)] for every vector [p].  The
    identity matrix is neutral on both sides. *)
Theorem mat4Multiply_applies_left_first (a b : mat4)
        (Ha : length a = 16%nat) (Hb : length b = 16%nat) :
  length (mat4Multiply a b) = 16%nat
  /\ (forall p : gvec4,
         gvec4_eq (mulMV (mat4Multiply a b) p) (mulMV b (mulMV a p)))
  /\ mat4_eq (mat4Multiply a identity) a
  /\ mat4_eq (mat4Multiply identity a) a.
Proof.
  sixteen a. sixteen b.
  split; [reflexivity|]. split; [|split].
  - intros p. unfold gvec4_eq, mulMV, mat4Multiply, get.
    cbn [flat_map map seq app nth Nat.add Nat.mul gx gy gz gw].
    split; [ring|]. split; [ring|]. split; ring.
  - unfold mat4_eq, mat4Multiply, identity, get.
    cbn [flat_map map seq app nth Nat.add Nat.mul].
    repeat constructor; ring.
  - unfold mat4_eq, mat4Multiply, identity, get.
    cbn [flat_map map seq app nth Nat.add Nat.mul].
    repeat constructor; ring.
Qed.

Lemma mat4Multiply_applies_left_first_witness :
  let flip := ortho 2 2 in
  let shift : mat4 := [1; 0; 0; 0;  0; 1; 0; 0;  0; 0; 1; 0;  5; 7; 0; 1] in
  gvec4_eq (mulMV (mat4Multiply shift flip) (mkG 0 0 0 1))
           (mulMV flip (mulMV shift (mkG 0 0 0 1))).
Proof.
  intros flip shift.
  exact (proj1 (proj2 (mat4Multiply_applies_left_first shift flip eq_refl eq_refl))
               (mkG 0 0 0 1)).
Defined.

End Projections.

(* ----------------------------------------------------------------- *)
(** ** The simulation clock *)

Section Clock.
Import Ascii String Format.

Lemma Qfloor_unique (q : Q) (z : Z) :
  inject_Z z <= q -> q < inject_Z (z + 1) -> Qfloor q = z.
Proof.
  intros H1 H2.
  pose proof (Qfloor_le q) as F1. pose proof (Qlt_floor q) as F2.
  assert (A : (z < Qfloor q + 1)%Z) by (rewrite Zlt_Qlt; lra).
  assert (B : (Qfloor q < z + 1)%Z) by (rewrite Zlt_Qlt; lra).
  lia.
Qed.

Lemma Qfloor_div (q : Q) (n : Z) :
  (0 < n)%Z -> Qfloor (q / inject_Z n) = (Qfloor q / n)%Z.
Proof.
  intros Hn.
  pose proof (Qfloor_le q) as F1. pose proof (Qlt_floor q) as F2.
  assert (Hnq : 0 < inject_Z n) by (change 0 with (inject_Z 0); now rewrite <- Zlt_Qlt).
  pose proof (Z.mul_div_le (Qfloor q) n Hn) as D1.
  pose proof (Z.mul_succ_div_gt (Qfloor q) n Hn) as D2.
  set (k := (Qfloor q / n)%Z) in *.
  assert (D1q : inject_Z n * inject_Z k <= inject_Z (Qfloor q))
    by (rewrite <- inject_Z_mult, <- Zle_Qle; exact D1).
  assert (D2q : inject_Z (Qfloor q) + 1 <= inject_Z n * inject_Z (k + 1)).
  { rewrite <- inject_Z_mult. change 1 with (inject_Z 1).
    rewrite <- inject_Z_plus, <- Zle_Qle. unfold Z.succ in D2. lia. }
  apply Qfloor_unique.
  - apply Qle_shift_div_l; [assumption|]. rewrite Qmult_comm. lra.
  - apply Qlt_shift_div_r; [assumption|]. rewrite Qmult_comm.
    rewrite inject_Z_plus in F2. change (inject_Z 1) with 1 in F2. lra.
Qed.

Lemma Qfloor_sub_Z (q : Q) (k : Z) :
  Qfloor (q - inject_Z k) = (Qfloor q - k)%Z.
Proof.
  pose proof (Qfloor_le q) as F1. pose proof (Qlt_floor q) as F2.
  apply Qfloor_unique.
  - unfold Z.sub. rewrite inject_Z_plus, inject_Z_opp. lra.
  - replace (Qfloor q - k + 1)%Z with ((Qfloor q + 1) + - k)%Z by lia.
    rewrite inject_Z_plus, inject_Z_opp. lra.
Qed.

Lemma jsRem_nonneg (p : Q) (n : Z) :
  0 <= p -> (0 < n)%Z ->
  jsRem p (inject_Z n) == p - inject_Z (n * (Qfloor p / n)).
Proof.
  intros Hp Hn. unfold jsRem, Qtrunc.
  assert (Hnq : 0 < inject_Z n) by (change 0 with (inject_Z 0); now rewrite <- Zlt_Qlt).
  assert (Hq : 0 <= p / inject_Z n) by (apply Qle_shift_div_l; lra).
  apply Qle_bool_iff in Hq. rewrite Hq.
  rewrite Qfloor_div by assumption. rewrite inject_Z_mult. reflexivity.
Qed.

Lemma pad2_length (z : Z) :
  (0 <= z < 100)%Z -> String.length (padStart (toString z) 2) = 2%nat.
Proof.
  intros Hz.
  assert (Hn : forall n : nat, (n < 100)%nat ->
               String.length (padStart (toString (Z.of_nat n)) 2) = 2%nat).
  { intros n Hn. do 100 (destruct n as [|n]; [reflexivity|]). lia. }
  rewrite <- (Z2Nat.id z) by lia. apply Hn. lia.
Qed.

Lemma append_length (s1 s2 : String.string) :
  String.length (String.append s1 s2)
  = (String.length s1 + String.length s2)%nat.
Proof.
  induction s1 as [|c s1 IH]; simpl; [reflexivity | now rewrite IH].
Qed.

(** X24.  For a time of less than 100 hours, [0 <= seconds < 360000],
    [formatTime] splits the whole seconds exactly:
    [h * 3600 + m * 60 + s = floor(seconds)] with [0 <= h < 100],
    [0 <= m < 60] and [0 <= s < 60], and the text has exactly 8
    characters ("HH:MM:SS"). *)
Theorem formatTime_splits_seconds (seconds : Q)
        (Hs : 0 <= seconds) (Hlt : seconds < 360000) :
  (hours seconds * 3600 + minutes seconds * 60 + secs seconds
   = Qfloor seconds)%Z
  /\ (0 <= hours seconds < 100)%Z
  /\ (0 <= minutes seconds < 60)%Z
  /\ (0 <= secs seconds < 60)%Z
  /\ String.length (formatTime seconds) = 8%nat.
Proof.
  assert (HS : (0 <= Qfloor seconds)%Z).
  { change 0%Z with (Qfloor 0). now apply Qfloor_resp_le. }
  assert (Eh : hours seconds = (Qfloor seconds / 3600)%Z).
  { unfold hours. change 3600 with (inject_Z 3600). now apply Qfloor_div. }
  assert (Em : minutes seconds = ((Qfloor seconds mod 3600) / 60)%Z).
  { unfold minutes. change 3600 with (inject_Z 3600).
    change 60 with (inject_Z 60).
    rewrite Qfloor_div by lia.
    rewrite (Qfloor_comp _ _ (jsRem_nonneg seconds 3600 Hs eq_refl)).
    rewrite Qfloor_sub_Z. f_equal. rewrite Z.mod_eq by lia. reflexivity. }
  assert (Es : secs seconds = (Qfloor seconds mod 60)%Z).
  { unfold secs. change 60 with (inject_Z 60).
    rewrite (Qfloor_comp _ _ (jsRem_nonneg seconds 60 Hs eq_refl)).
    rewrite Qfloor_sub_Z. rewrite Z.mod_eq by lia. reflexivity. }
  set (S := Qfloor seconds) in *.
  assert (Hm : (0 <= minutes seconds < 60)%Z).
  { rewrite Em. pose proof (Z.mod_pos_bound S 3600 eq_refl).
    split; [apply Z.div_pos; lia | apply Z.div_lt_upper_bound; lia]. }
  assert (Hsec : (0 <= secs seconds < 60)%Z).
  { rewrite Es. apply Z.mod_pos_bound. lia. }
  assert (Hh : (0 <= hours seconds)%Z) by (rewrite Eh; apply Z.div_pos; lia).
  assert (Hh2 : (hours seconds < 100)%Z).
  { rewrite Eh. apply Z.div_lt_upper_bound; [lia|].
    assert (HSq : inject_Z S < inject_Z 360000).
    { pose proof (Qfloor_le seconds). unfold S.
      change (inject_Z 360000) with 360000. lra. }
    rewrite <- Zlt_Qlt in HSq. lia. }
  split; [|split; [lia|split; [assumption|split; [assumption|]]]].
  - rewrite Eh, Em, Es.
    clear Eh Em Es Hm Hsec Hh Hh2. Z.div_mod_to_equations. lia.
  - unfold formatTime. rewrite !append_length.
    rewrite !pad2_length by lia. reflexivity.
Qed.

Lemma formatTime_splits_seconds_witness :
  (hours (7384 + (1 # 2)) * 3600 + minutes (7384 + (1 # 2)) * 60
   + secs (7384 + (1 # 2)) = Qfloor (7384 + (1 # 2)))%Z
  /\ formatTime (7384 + (1 # 2)) = "02:03:04"%string.
Proof.
  assert (Hs : 0 <= 7384 + (1 # 2)) by discriminate.
  assert (Hlt : 7384 + (1 # 2) < 360000) by reflexivity.
  split; [|reflexivity].
  exact (proj1 (formatTime_splits_seconds (7384 + (1 # 2)) Hs Hlt)).
Defined.

End Clock.

(* ----------------------------------------------------------------- *)
(** ** The tic-tac-toe screen *)

Section TicTacToeGame.
Import TicTacToe.

Lemma assign_length (b : list (option Mark)) (v : option Mark) :
  forall i, length (assign b i v) = length b.
Proof.
  induction b as [|c b IH]; intros i; [reflexivity|].
  destruct i as [|i]; simpl; [reflexivity | now rewrite IH].
Qed.

Lemma cell_assign_same (b : list (option Mark)) (v : option Mark) :
  forall i, (i < length b)%nat -> cell (assign b i v) i = v.
Proof.
  unfold cell. induction b as [|c b IH]; intros i Hi; simpl in Hi; [lia|].
  destruct i as [|i]; simpl; [reflexivity | apply IH; lia].
Qed.

Lemma cell_assign_other (b : list (option Mark)) (v : option Mark) :
  forall i j, i <> j -> cell (assign b i v) j = cell b j.
Proof.
  unfold cell. induction b as [|c b IH]; intros i j Hij; [reflexivity|].
  destruct i as [|i], j as [|j]; simpl; try reflexivity; try congruence.
  apply IH. congruence.
Qed.

Lemma available_In (b : list (option Mark)) (i : nat) :
  In i (available b) <-> (i < 9)%nat /\ cell b i = None.
Proof.
  unfold available. rewrite filter_In, in_seq.
  destruct (cell b i); intuition (try lia; congruence).
Qed.

Lemma available_NoDup (b : list (option Mark)) : NoDup (available b).
Proof. unfold available. apply NoDup_filter, seq_NoDup. Qed.

Lemma random_index (rnd : Q) (n : nat) :
  0 <= rnd -> rnd < 1 -> (0 < n)%nat ->
  (Z.to_nat (Qfloor (rnd * inject_Z (Z.of_nat n))) < n)%nat.
Proof.
  intros H0 H1 Hn.
  assert (Hq : 0 < inject_Z (Z.of_nat n)).
  { change 0 with (inject_Z 0). rewrite <- Zlt_Qlt. lia. }
  set (q := inject_Z (Z.of_nat n)) in *.
  assert (Hlt : rnd * q < q).
  { assert (E : q == 1 * q) by ring. rewrite E at 2.
    apply Qmult_lt_compat_r; assumption. }
  pose proof (Qfloor_le (rnd * q)) as Hf.
  assert (Hz : (Qfloor (rnd * q) < Z.of_nat n)%Z).
  { rewrite Zlt_Qlt. fold q. lra. }
  lia.
Qed.

Lemma complete_sound (b : list (option Mark)) (line : list nat) :
  complete b line = true ->
  exists (i j k : nat) (p : Mark),
    line = [i; j; k]
    /\ cell b i = Some p /\ cell b j = Some p /\ cell b k = Some p.
Proof.
  unfold complete.
  destruct line as [|i [|j [|k [|? ?]]]]; try discriminate.
  destruct (cell b i) as [p|] eqn:Ei; [|discriminate].
  destruct (cell b j) as [q|] eqn:Ej; [|discriminate].
  destruct (cell b k) as [s|] eqn:Ek; [|discriminate].
  intros H. apply andb_true_iff in H. destruct H as [H1 H2].
  exists i, j, k, p.
  destruct p, q, s; try discriminate; repeat split; assumption.
Qed.

(** What a move does to a running, well-formed game. *)
Lemma makeAIMove_spec (rnd : Q) (g : t) :
  wellFormed g -> gameOver g = false -> 0 <= rnd -> rnd < 1 ->
  exists move : nat,
    In move (available (board g))
    /\ board (makeAIMove rnd g)
       = assign (board g) move (Some (currentPlayer g))
    /\ match checkWinner (board (makeAIMove rnd g)) with
       | Some line =>
           gameOver (makeAIMove rnd g) = true
           /\ winner (makeAIMove rnd g) = Some (Won (currentPlayer g))
           /\ winLine (makeAIMove rnd g) = Some line
       | None =>
           if (length (available (board g)) =? 1)%nat
           then gameOver (makeAIMove rnd g) = true
                /\ winner (makeAIMove rnd g) = Some DRAW
           else gameOver (makeAIMove rnd g) = false
                /\ winner (makeAIMove rnd g) = None
                /\ currentPlayer (makeAIMove rnd g) = other (currentPlayer g)
       end.
Proof.
  intros (Hlen & Hrun & _) Hgo H0 H1.
  destruct (Hrun Hgo) as (Hav & Hwin & _).
  unfold makeAIMove.
  destruct (available (board g)) as [|a0 avail] eqn:Ea; [congruence|].
  set (move := nth (Z.to_nat (Qfloor (rnd * inject_Z (Z.of_nat (length (a0 :: avail))))))
                   (a0 :: avail) 0%nat).
  assert (Hin : In move (a0 :: avail)).
  { apply nth_In. apply random_index; [assumption..|]. simpl. lia. }
  exists move. split; [assumption|].
  destruct (checkWinner (assign (board g) move (Some (currentPlayer g))))
    as [line|] eqn:Ec.
  - cbn [board gameOver winner winLine]. rewrite Ec. auto.
  - destruct (length (a0 :: avail) =? 1)%nat eqn:E1.
    + cbn [board gameOver winner]. rewrite Ec. auto.
    + cbn [board gameOver winner currentPlayer]. rewrite Ec. auto.
Qed.

Lemma wellFormed_update (dt now rnd : Q) (g : t) :
  wellFormed g -> 0 <= rnd -> rnd < 1 -> wellFormed (update dt now rnd g).
Proof.
  intros HW H0 H1. unfold update.
  destruct (gameOver g) eqn:Hgo.
  - destruct (Qlt_bool 3 (now - lastMoveTime g)); [|assumption].
    unfold wellFormed, reset. cbn [board gameOver winner].
    split; [reflexivity|]. split; [|discriminate].
    intros _. split; [discriminate | split; reflexivity].
  - destruct (Qle_bool (moveDelay g) (thinkingTime g + dt)).
    + set (g1 := mk (board g) (currentPlayer g) false (winner g)
                    (winLine g) (thinkingTime g + dt) (moveDelay g)
                    (lastMoveTime g)).
      assert (HW1 : wellFormed g1).
      { destruct HW as (L & R & _). unfold wellFormed, g1.
        cbn [board gameOver winner].
        split; [exact L|]. split; [intros _; exact (R Hgo) | discriminate]. }
      assert (Hgo1 : gameOver g1 = false) by reflexivity.
      destruct (makeAIMove_spec rnd g1 HW1 Hgo1 H0 H1) as (move & Hin & Hb & Hres).
      destruct HW1 as (Hlen & _ & _).
      unfold wellFormed. cbn [board gameOver winner].
      split; [rewrite Hb, assign_length; exact Hlen|].
      destruct (checkWinner (board (makeAIMove rnd g1))) as [line|] eqn:Ec.
      * destruct Hres as (Hg & Hw & _). rewrite Hg, Hw.
        split; [discriminate | intros _; discriminate].
      * destruct (length (available (board g1)) =? 1)%nat eqn:E1.
        -- destruct Hres as (Hg & Hw). rewrite Hg, Hw.
           split; [discriminate | intros _; discriminate].
        -- destruct Hres as (Hg & Hw & _). rewrite Hg, Hw.
           split; [|discriminate]. intros _.
           split; [|split; [reflexivity | reflexivity]].
           rewrite Hb. apply Nat.eqb_neq in E1.
           pose proof (available_NoDup (board g1)) as Hnd.
           destruct (available (board g1)) as [|a1 [|a2 rest]] eqn:Ea;
             [destruct Hin | simpl in E1; lia |].
           assert (Hex : exists j, In j (a1 :: a2 :: rest) /\ j <> move).
           { destruct (Nat.eq_dec a1 move) as [<-|Hne].
             - exists a2. split; [simpl; auto|].
               inversion Hnd as [|? ? Hni _]. intros ->. apply Hni. simpl. auto.
             - exists a1. split; [simpl; auto | assumption]. }
           destruct Hex as (j & Hj & Hjm). rewrite <- Ea in Hj.
           apply available_In in Hj. destruct Hj as [Hj9 Hjc].
           assert (Hj' : In j (available (assign (board g1) move
                                                 (Some (currentPlayer g1))))).
           { apply available_In. split; [assumption|].
             rewrite cell_assign_other by congruence. assumption. }
           intros Heq. rewrite Heq in Hj'. destruct Hj'.
    + destruct HW as (L & R & _). unfold wellFormed.
      cbn [board gameOver winner].
      split; [exact L|]. split; [intros _; exact (R Hgo) | discriminate].
Qed.

(** X25.  From a new game, whatever the frame times and the clock and
    for random numbers of [0, 1), the board always has nine cells, a
    running game always has an empty cell and no winner, and a finished
    game always has a result (a mark or 'DRAW'): [makeAIMove] never finds
    the board full, so its exit "no move available" is never taken. *)
Theorem tictactoe_invariant (ticks : list Tick) (Hfair : fair ticks) :
  wellFormed (run ticks new)
  /\ (gameOver (run ticks new) = true -> winner (run ticks new) <> None)
  /\ (gameOver (run ticks new) = false ->
      available (board (run ticks new)) <> []).
Proof.
  assert (HW : wellFormed (run ticks new)).
  { assert (Hnew : wellFormed new).
    { unfold wellFormed, new. cbn [board gameOver winner].
      split; [reflexivity|]. split; [|discriminate].
      intros _. split; [discriminate | split; reflexivity]. }
    unfold run. revert Hnew. generalize new.
    induction Hfair as [|k ticks [Hk0 Hk1] _ IH]; intros g Hg; [exact Hg|].
    cbn [fold_left]. apply IH. now apply wellFormed_update. }
  split; [exact HW|]. destruct HW as (_ & Hrun & Hover).
  split; [exact Hover|]. intros H. now apply Hrun.
Qed.

Lemma tictactoe_invariant_witness :
  let ticks := [mkTick 2 2 (1 # 2); mkTick 2 4 (9 # 10); mkTick 2 6 0] in
  wellFormed (run ticks new).
Proof.
  intros ticks.
  assert (Hfair : fair ticks).
  { unfold fair, ticks. repeat constructor; cbn [random]; discriminate. }
  exact (proj1 (tictactoe_invariant ticks Hfair)).
Defined.

(** X26.  A move of a running game writes the mark of the current
    player into one empty cell and leaves every other cell as it was.  If
    it declares a winner, the winner is the player who moved and [winLine]
    is one of the eight lines, whose three cells hold that mark; if it
    declares a draw, no cell is empty and no line is complete; otherwise
    the turn passes to the other player. *)
Theorem tictactoe_move (rnd : Q) (g : t)
        (HW : wellFormed g) (Hrun : gameOver g = false)
        (H0 : 0 <= rnd) (H1 : rnd < 1) :
  (exists move : nat,
      (move < 9)%nat
      /\ cell (board g) move = None
      /\ cell (board (makeAIMove rnd g)) move = Some (currentPlayer g)
      /\ (forall i, i <> move ->
                    cell (board (makeAIMove rnd g)) i = cell (board g) i))
  /\ (forall p, winner (makeAIMove rnd g) = Some (Won p) ->
                p = currentPlayer g
                /\ exists i j k : nat,
                     winLine (makeAIMove rnd g) = Some [i; j; k]
                     /\ In [i; j; k] lines
                     /\ cell (board (makeAIMove rnd g)) i = Some p
                     /\ cell (board (makeAIMove rnd g)) j = Some p
                     /\ cell (board (makeAIMove rnd g)) k = Some p)
  /\ (winner (makeAIMove rnd g) = Some DRAW ->
      available (board (makeAIMove rnd g)) = []
      /\ checkWinner (board (makeAIMove rnd g)) = None)
  /\ (gameOver (makeAIMove rnd g) = false ->
      currentPlayer (makeAIMove rnd g) = other (currentPlayer g)).
Proof.
  destruct (makeAIMove_spec rnd g HW Hrun H0 H1) as (move & Hin & Hb & Hres).
  pose proof Hin as Hin'. apply available_In in Hin'. destruct Hin' as [Hm9 Hmc].
  destruct HW as (Hlen & Hrunning & _).
  destruct (Hrunning Hrun) as (_ & _ & Hnone).
  split; [|split; [|split]].
  - exists move. split; [assumption|]. split; [assumption|]. split.
    + rewrite Hb. apply cell_assign_same. lia.
    + intros i Hi. rewrite Hb. apply cell_assign_other. congruence.
  - intros p Hp.
    destruct (checkWinner (board (makeAIMove rnd g))) as [line|] eqn:Ec.
    + destruct Hres as (_ & Hw & Hl). rewrite Hw in Hp. injection Hp as <-.
      split; [reflexivity|].
      unfold checkWinner in Ec. apply find_some in Ec. destruct Ec as [Hline Hc].
      apply complete_sound in Hc.
      destruct Hc as (i & j & k & q & -> & Hi & Hj & Hk).
      assert (Hq : q = currentPlayer g).
      { (* the line contains the cell just written: otherwise it was
           complete before the move *)
        destruct (Nat.eq_dec i move) as [->|Hne].
        - rewrite Hb, cell_assign_same in Hi by lia. congruence.
        - destruct (Nat.eq_dec j move) as [->|Hne2].
          + rewrite Hb, cell_assign_same in Hj by lia. congruence.
          + destruct (Nat.eq_dec k move) as [->|Hne3].
            * rewrite Hb, cell_assign_same in Hk by lia. congruence.
            * exfalso.
              rewrite Hb in Hi, Hj, Hk.
              rewrite cell_assign_other in Hi, Hj, Hk by congruence.
              unfold checkWinner in Hnone.
              pose proof (find_none _ _ Hnone _ Hline) as Hf.
              unfold complete in Hf. rewrite Hi, Hj, Hk in Hf.
              destruct q; discriminate. }
      subst q. exists i, j, k. auto.
    + destruct (length (available (board g)) =? 1)%nat;
        destruct Hres as (_ & Hw & _) || destruct Hres as (_ & Hw);
        rewrite Hw in Hp; discriminate.
  - intros Hd.
    destruct (checkWinner (board (makeAIMove rnd g))) as [line|] eqn:Ec.
    + destruct Hres as (_ & Hw & _). rewrite Hw in Hd. discriminate.
    + split; [|reflexivity].
      destruct (length (available (board g)) =? 1)%nat eqn:E1.
      * apply Nat.eqb_eq in E1.
        destruct (available (board (makeAIMove rnd g))) as [|j rest] eqn:Ea;
          [reflexivity|].
        exfalso.
        assert (Hj : In j (available (board (makeAIMove rnd g))))
          by (rewrite Ea; simpl; auto).
        apply available_In in Hj. destruct Hj as [Hj9 Hjc].
        assert (Hjm : j <> move).
        { intros ->. rewrite Hb, cell_assign_same in Hjc by lia. discriminate. }
        rewrite Hb, cell_assign_other in Hjc by congruence.
        assert (Hj2 : In j (available (board g))) by (now apply available_In).
        destruct (available (board g)) as [|a1 [|a2 rest']]; simpl in E1; try lia.
        simpl in Hin, Hj2. destruct Hin as [<-|[]], Hj2 as [<-|[]]. congruence.
      * destruct Hres as (_ & Hw & _). rewrite Hw in Hd. discriminate.
  - intros Hg.
    destruct (checkWinner (board (makeAIMove rnd g))) as [line|].
    + destruct Hres as (Hg' & _). congruence.
    + destruct (length (available (board g)) =? 1)%nat.
      * destruct Hres as (Hg' & _). congruence.
      * destruct Hres as (_ & _ & Hc). exact Hc.
Qed.

Lemma tictactoe_move_witness :
  currentPlayer (makeAIMove (1 # 2) new) = other (currentPlayer new).
Proof.
  assert (HW : wellFormed new).
  { unfold wellFormed, new. cbn [board gameOver winner].
    split; [reflexivity|]. split; [|discriminate].
    intros _. split; [discriminate | split; reflexivity]. }
  assert (H0 : 0 <= 1 # 2) by discriminate.
  assert (H1 : 1 # 2 < 1) by reflexivity.
  apply (proj2 (proj2 (proj2 (tictactoe_move (1 # 2) new HW eq_refl H0 H1)))).
  reflexivity.
Defined.

End TicTacToeGame.

(* ----------------------------------------------------------------- *)
(** ** Explosions in the web simulation state *)

Section WebExplosions.
Import Handoff WebState.




End WebExplosions.

(* ----------------------------------------------------------------- *)
(** ** The DEFCON panel *)

Section DefconPanel.
Import Defcon.

Lemma defconLevel_closed (n : Z) :
  defconLevel n = Z.min 5 (Z.max 1 (6 - n / 3)).
Proof.
  unfold defconLevel. change 3 with (inject_Z 3).
  now rewrite <- Zdiv_Qdiv.
Qed.

(** X28.  The DEFCON level is always between 1 and 5 and never rises
    when the number of missiles grows.  For a missile count [n >= 0] it
    is 5 exactly when [n <= 5], that is exactly when the threat is
    MODERATE, and 1 exactly when [n >= 15]; the panel turns red (level at
    most 2) exactly when [n >= 12], while the threat is CRITICAL exactly
    when [n >= 11] and is then shown at level 3 or below. *)
Theorem defcon_level_rule (n : Z) :
  (1 <= defconLevel n <= 5)%Z
  /\ (forall m : Z, (n <= m)%Z -> (defconLevel m <= defconLevel n)%Z)
  /\ ((0 <= n)%Z ->
      (defconLevel n = 5%Z <-> threatLevel n = MODERATE)
      /\ (defconLevel n = 5%Z <-> (n <= 5)%Z)
      /\ (defconLevel n = 1%Z <-> (15 <= n)%Z)
      /\ (alertColour n = true <-> (12 <= n)%Z)
      /\ (threatLevel n = CRITICAL <-> (11 <= n)%Z)
      /\ (threatLevel n = CRITICAL -> (defconLevel n <= 3)%Z)).
Proof.
  split; [|split].
  - rewrite defconLevel_closed. lia.
  - intros m Hm. rewrite !defconLevel_closed.
    pose proof (Z.div_le_mono n m 3 ltac:(lia) Hm). lia.
  - intros Hn. unfold alertColour, threatLevel. rewrite defconLevel_closed.
    assert (D : (3 * (n / 3) <= n < 3 * (n / 3) + 3)%Z).
    { pose proof (Z.div_mod n 3 ltac:(lia)).
      pose proof (Z.mod_pos_bound n 3 ltac:(lia)). lia. }
    split; [|split; [|split; [|split; [|split]]]].
    + destruct (10 <? n)%Z eqn:E1; [apply Z.ltb_lt in E1 | apply Z.ltb_ge in E1].
      * split; [lia | discriminate].
      * destruct (5 <? n)%Z eqn:E2;
          [apply Z.ltb_lt in E2 | apply Z.ltb_ge in E2].
        -- split; [lia | discriminate].
        -- split; [reflexivity | lia].
    + lia.
    + lia.
    + rewrite Z.leb_le. lia.
    + destruct (10 <? n)%Z eqn:E1; [apply Z.ltb_lt in E1 | apply Z.ltb_ge in E1].
      * split; [lia | reflexivity].
      * split; [destruct (5 <? n)%Z; discriminate | lia].
    + destruct (10 <? n)%Z eqn:E1; [apply Z.ltb_lt in E1; lia|].
      destruct (5 <? n)%Z; discriminate.
Qed.

Lemma defcon_level_rule_witness :
  defconLevel 5 = 5%Z <-> threatLevel 5 = MODERATE.
Proof.
  assert (H : (0 <= 5)%Z) by lia.
  exact (proj1 (proj2 (proj2 (defcon_level_rule 5)) H)).
Defined.

End DefconPanel.

(* ----------------------------------------------------------------- *)
(** ** Aircraft of the web front end *)

Section WebAircraftAngle.
Import Common WebAircraft.
Variables sin cos : Q -> Q.
Variable PI : Q.
Hypothesis PI_pos : 0 < PI.

(** X29.  The web aircraft subtracts one turn at most per update.  While
    the angle is in [0, 2 PI] and the step [speed * deltaTime] is between
    0 and one turn, the new angle is again in [0, 2 PI] and differs from
    [angle + step] by zero or one turn; a step of more than one turn from
    an angle in that range leaves the angle above [2 PI].  With [sin] and
    [cos] in [-1, 1] the aircraft is never farther than [|radius|] degrees
    from its centre in latitude or in longitude. *)
Theorem web_aircraft_angle (deltaTime : Q) (c : t)
        (Hangle : 0 <= angle c <= PI * 2) :
  (0 <= speed c * deltaTime <= PI * 2 ->
   0 <= angle (update PI deltaTime c) <= PI * 2
   /\ (angle (update PI deltaTime c) == angle c + speed c * deltaTime
       \/ angle (update PI deltaTime c)
          == angle c + speed c * deltaTime - PI * 2))
  /\ (PI * 2 * 2 < angle c + speed c * deltaTime ->
      PI * 2 < angle (update PI deltaTime c))
  /\ ((forall q, -(1) <= sin q <= 1) -> (forall q, -(1) <= cos q <= 1) ->
      Qabs (lat (getCurrentPosition sin cos c) - centerLat c) <= Qabs (radius c)
      /\ Qabs (lon (getCurrentPosition sin cos c) - centerLon c)
         <= Qabs (radius c)).
Proof.
  split; [|split].
  - intros Hstep. unfold update. cbn [angle].
    set (a1 := angle c + speed c * deltaTime) in *.
    destruct (Qlt_bool (PI * 2) a1) eqn:E.
    + apply Qlt_bool_iff in E. split; [|right; reflexivity].
      unfold a1 in *. split; lra.
    + apply Qlt_bool_false_iff in E. split; [|left; reflexivity].
      unfold a1 in *. split; lra.
  - intros Hbig. unfold update. cbn [angle].
    set (a1 := angle c + speed c * deltaTime) in *.
    destruct (Qlt_bool (PI * 2) a1) eqn:E.
    + clearbody a1. lra.
    + apply Qlt_bool_false_iff in E. clearbody a1. lra.
  - intros Hsin Hcos. unfold getCurrentPosition. cbn [lat lon].
    assert (Hb : forall u : Q, -(1) <= u <= 1 ->
                 forall base, Qabs (base + u * radius c - base) <= Qabs (radius c)).
    { intros u Hu base.
      assert (E : base + u * radius c - base == u * radius c) by ring.
      rewrite E, Qabs_Qmult.
      assert (H1 : Qabs u <= 1) by (apply Qabs_Qle_condition; lra).
      pose proof (Qabs_nonneg (radius c)) as Hr.
      apply Qle_trans with (1 * Qabs (radius c)); [|lra].
      apply Qmult_le_compat_r; assumption. }
    split; apply Hb; [apply Hsin | apply Hcos].
Qed.

End WebAircraftAngle.

Lemma web_aircraft_angle_witness :
  let c := WebAircraft.mk 40 (-100) 5 (3 # 10) 6 in
  0 <= WebAircraft.angle (WebAircraft.update (22 # 7) 2 c) <= (22 # 7) * 2.
Proof.
  intros c.
  assert (Hpi : 0 < 22 # 7) by reflexivity.
  assert (Hangle : 0 <= WebAircraft.angle c <= (22 # 7) * 2)
    by (split; discriminate).
  assert (Hstep : 0 <= WebAircraft.speed c * 2 <= (22 # 7) * 2)
    by (split; discriminate).
  exact (proj1 (proj1 (web_aircraft_angle (fun _ => 0) (fun _ => 1) (22 # 7)
                                          Hpi 2 c Hangle) Hstep)).
Defined.

(* ----------------------------------------------------------------- *)
(** ** Random choices *)

Section RandomChoices.
Import Random.

Lemma randomInt_range (rnd : Q) (min max : Z) :
  fraction rnd -> (min <= max)%Z -> (min <= randomInt rnd min max <= max)%Z.
Proof.
  intros [H0 H1] Hmm. unfold randomInt.
  set (n := (max - min + 1)%Z).
  assert (Hn : 0 < inject_Z n).
  { change 0 with (inject_Z 0). rewrite <- Zlt_Qlt. unfold n. lia. }
  assert (Hlo : 0 <= rnd * inject_Z n) by (apply Qmult_le_0_compat; lra).
  assert (Hhi : rnd * inject_Z n < inject_Z n).
  { assert (E : inject_Z n == 1 * inject_Z n) by ring. rewrite E at 2.
    apply Qmult_lt_compat_r; assumption. }
  assert (F0 : (0 <= Qfloor (rnd * inject_Z n))%Z).
  { change 0%Z with (Qfloor 0). now apply Qfloor_resp_le. }
  assert (F1 : (Qfloor (rnd * inject_Z n) < n)%Z).
  { rewrite Zlt_Qlt. pose proof (Qfloor_le (rnd * inject_Z n)). lra. }
  assert (En : n = (max - min + 1)%Z) by reflexivity. clearbody n. lia.
Qed.

Lemma redraw_spec (count startIdx : Z) (draws : list Q) :
  Forall fraction draws -> (1 <= count)%Z ->
  forall targetIdx t,
    (0 <= targetIdx < count)%Z ->
    redraw draws count startIdx targetIdx = Some t ->
    t <> startIdx /\ (0 <= t < count)%Z.
Proof.
  intros Hd Hc. induction Hd as [|rnd draws Hr _ IH]; intros targetIdx t Ht.
  - cbn [redraw]. destruct (targetIdx =? startIdx)%Z eqn:E; [discriminate|].
    intros [= <-]. apply Z.eqb_neq in E. split; assumption.
  - cbn [redraw]. destruct (targetIdx =? startIdx)%Z eqn:E.
    + apply IH. pose proof (randomInt_range rnd 0 (count - 1) Hr ltac:(lia)). lia.
    + intros [= <-]. apply Z.eqb_neq in E. split; assumption.
Qed.

Lemma redraw_single (draws : list Q) :
  Forall fraction draws -> redraw draws 1 0 0 = None.
Proof.
  induction 1 as [|rnd draws Hr _ IH]; [reflexivity|].
  cbn [redraw Z.eqb].
  assert (E : randomInt rnd 0 (1 - 1) = 0%Z).
  { pose proof (randomInt_range rnd 0 (1 - 1) Hr ltac:(lia)). lia. }
  rewrite E. exact IH.
Qed.

(** X30.  For a value [rnd] of [0, 1) and integers [min <= max],
    [randomInt] returns an integer of [min, max], and [randomElement]
    returns an element of a non-empty array (it never reads outside it).
    The land-based branch of [spawnMissile], when its loop ends, has
    chosen two different cities of the list; with two cities or more the
    loop ends at the first draw that differs from the start, and with a
    single city it does not end, whatever the random numbers are. *)
Theorem random_choices (rndStart rndTarget : Q) (draws : list Q)
        (Hs : fraction rndStart) (Ht : fraction rndTarget) (Hd : Forall fraction draws) :
  (forall min max : Z, (min <= max)%Z ->
                       (min <= randomInt rndStart min max <= max)%Z)
  /\ (forall (A : Type) (array : list A),
         array <> [] ->
         exists a, randomElement rndStart array = Some a /\ In a array)
  /\ (forall (count s t : Z),
         (1 <= count)%Z ->
         pickCities rndStart rndTarget draws count = Some (s, t) ->
         s <> t /\ (0 <= s < count)%Z /\ (0 <= t < count)%Z)
  /\ (forall count : Z,
         (2 <= count)%Z ->
         randomInt rndTarget 0 (count - 1) <> randomInt rndStart 0 (count - 1) ->
         pickCities rndStart rndTarget draws count
         = Some (randomInt rndStart 0 (count - 1),
                 randomInt rndTarget 0 (count - 1)))
  /\ pickCities rndStart rndTarget draws 1 = None.
Proof.
  split; [|split; [|split; [|split]]].
  - intros min max Hmm. now apply randomInt_range.
  - intros A array Hne. unfold randomElement.
    assert (Hl : (0 < length array)%nat)
      by (destruct array; [congruence | simpl; lia]).
    pose proof (randomInt_range rndStart 0 (Z.of_nat (length array) - 1) Hs
                                ltac:(lia)) as Hr.
    set (i := randomInt rndStart 0 (Z.of_nat (length array) - 1)) in *.
    destruct (i <? 0)%Z eqn:E; [apply Z.ltb_lt in E; lia|].
    destruct (nth_error array (Z.to_nat i)) as [a|] eqn:En.
    + exists a. split; [reflexivity|]. now apply nth_error_In in En.
    + apply nth_error_None in En. lia.
  - intros count s t Hc. unfold pickCities.
    destruct (redraw draws count (randomInt rndStart 0 (count - 1))
                     (randomInt rndTarget 0 (count - 1))) as [t'|] eqn:E;
      [|discriminate].
    intros [= <- <-].
    pose proof (randomInt_range rndStart 0 (count - 1) Hs ltac:(lia)) as Hrs.
    pose proof (randomInt_range rndTarget 0 (count - 1) Ht ltac:(lia)) as Hrt.
    assert (Hrt' : (0 <= randomInt rndTarget 0 (count - 1) < count)%Z) by lia.
    destruct (redraw_spec count _ draws Hd Hc _ _ Hrt' E) as [Hne Hr].
    split; [congruence|]. split; lia.
  - intros count Hc Hne. unfold pickCities.
    apply Z.eqb_neq in Hne.
    destruct draws as [|rnd rest]; cbn [redraw]; rewrite Hne; reflexivity.
  - unfold pickCities.
    assert (E1 : randomInt rndStart 0 (1 - 1) = 0%Z).
    { pose proof (randomInt_range rndStart 0 (1 - 1) Hs ltac:(lia)). lia. }
    assert (E2 : randomInt rndTarget 0 (1 - 1) = 0%Z).
    { pose proof (randomInt_range rndTarget 0 (1 - 1) Ht ltac:(lia)). lia. }
    rewrite E1, E2, redraw_single by assumption. reflexivity.
Qed.

Lemma random_choices_witness :
  pickCities (1 # 2) (1 # 2) [1 # 2; 3 # 4; 9 # 10] 1 = None.
Proof.
  assert (Hu : fraction (1 # 2)) by (split; [discriminate | reflexivity]).
  assert (Hd : Forall fraction [1 # 2; 3 # 4; 9 # 10]).
  { repeat constructor; discriminate. }
  exact (proj2 (proj2 (proj2 (proj2
           (random_choices (1 # 2) (1 # 2) [1 # 2; 3 # 4; 9 # 10] Hu Hu Hd))))).
Defined.

End RandomChoices.
